(** * Debut trading core: tick/candle engine, plugin pipeline, order lifecycle

    A shallow embedding of the [Debut] class (constructor, [createOrder],
    [closeOrder], [closeAll], the tick [handler] and the candle window) and
    the properties of its order book, candle window and error handling.

    Numbers are IEEE binary64 values, as in JavaScript: [===] on numbers is
    [PrimFloat.eqb].  Orders are objects: the order book holds references
    into a heap, [indexOf] compares references and [closing.processing = ..]
    is visible through every reference to the object. *)

From Stdlib Require Import PrimFloat.
From Stdlib Require FloatOps SpecFloat.
From stdpp Require Import gmap strings list fin_maps pretty.

Set Warnings "-inexact-float".

(** ** Values of the options object *)

Inductive JsValue :=
| VUndefined
| VNum (f : float)
| VStr (s : string)
| VBool (b : bool).

(** [a === b] *)
Definition strict_equals (a b : JsValue) : bool :=
  match a, b with
  | VUndefined, VUndefined => true
  | VNum x, VNum y => PrimFloat.eqb x y
  | VStr s, VStr t => bool_decide (s = t)
  | VBool x, VBool y => bool_decide (x = y)
  | _, _ => false
  end.

(** Numeric reading of an option value.  The declared option types make
    [amount] and [lotsMultiplier] numbers; a missing one reads as
    [undefined], which arithmetic turns into NaN. *)
Definition to_number (a : JsValue) : float :=
  match a with
  | VNum x => x
  | VBool true => 1%float
  | VBool false => 0%float
  | _ => nan
  end.

(** [obj.key] on an object used as a record: a missing key reads as
    [undefined]. *)
Definition get (obj : gmap string JsValue) (key : string) : JsValue :=
  default VUndefined (obj !! key).

(** ** Candles, instruments, orders *)

Module Candle.
Record t := mk { o : float; h : float; l : float; c : float; v : float; time : float }.
End Candle.

Module Instrument.
Record t := mk { ticker : string; figi : JsValue; lot : float; pipSize : float; id : string }.
End Instrument.

Inductive OrderType := BUY | SELL.

(** [orders.inverseType] of the plugin utilities. *)
Definition inverseType (t : OrderType) : OrderType :=
  match t with BUY => SELL | SELL => BUY end.

(** One record for [PendingOrder] and [ExecutedOrder]: an executed order is
    a pending order with the key [orderId] present. *)
Module Order.
Record t := mk {
  cid : float;
  broker : JsValue;
  type : OrderType;
  ticker : string;
  figi : JsValue;
  currency : JsValue;
  interval : JsValue;
  author : string;
  price : float;
  lots : JsValue;
  lotSize : float;
  pipSize : float;
  close : bool;
  openPrice : JsValue;
  openId : JsValue;
  sandbox : JsValue;
  learning : JsValue;
  time : float;
  margin : JsValue;
  futures : JsValue;
  instrumentType : JsValue;
  lotsMultiplier : JsValue;
  equityLevel : JsValue;
  orderId : option string;       (* [None]: the key is absent *)
  executedLots : JsValue;
  processing : option bool       (* [None]: the key is absent *)
}.

Definition set_processing (b : bool) (x : t) : t :=
  mk (cid x) (broker x) (type x) (ticker x) (figi x) (currency x) (interval x)
     (author x) (price x) (lots x) (lotSize x) (pipSize x) (close x)
     (openPrice x) (openId x) (sandbox x) (learning x) (time x) (margin x)
     (futures x) (instrumentType x) (lotsMultiplier x) (equityLevel x)
     (orderId x) (executedLots x) (Some b).

(** [closing.processing] read as a condition *)
Definition is_processing (x : t) : bool := default false (processing x).

(** ['orderId' in closing] *)
Definition has_orderId (x : t) : bool := bool_decide (is_Some (orderId x)).
End Order.

(** A reference to an order object: its index in the heap. *)
Abbreviation loc := nat (only parsing).

(** ** Errors and results *)

(** Modelled from the spec: the error module is missing from the sources;
    the engine uses the environments Core and History of its taxonomy. *)
Inductive ErrorEnvironment := Core | History.

(** What a throw or a rejection carries: an error object, [undefined] or
    [null] as they are, or any other value, which has no [message] and is
    given by its string conversion. *)
Inductive JsError :=
| TypeError (msg : string)
| DebutError (env : ErrorEnvironment) (msg : string)
| Error (msg : string)
| ThrownUndefined
| ThrownNull
| ThrownValue (text : string).

Inductive Result (A : Type) :=
| Ok (a : A)
| Throw (e : JsError).
Arguments Ok {A} a.
Arguments Throw {A} e.

(** [e.message] inside a template literal: reading a property of
    [undefined] or [null] throws, a value without the property gives
    [undefined]. *)
Definition message (e : JsError) : Result string :=
  match e with
  | TypeError m | DebutError _ m | Error m => Ok m
  | ThrownUndefined =>
      Throw (TypeError "Cannot read properties of undefined (reading 'message')")
  | ThrownNull => Throw (TypeError "Cannot read properties of null (reading 'message')")
  | ThrownValue _ => Ok "undefined"
  end.

(** ** Hooks and the trace of observable effects

    The trace records what the outside sees of a run: every pipeline call of
    the engine ([EvHook]), every plugin invocation with the order book and
    the order objects as the plugin found them and with what it did
    ([EvInvoke]), every submission to the transport, first the call with the
    order book and the order objects as they are while the engine awaits the
    answer ([EvAwaitPlaceOrder]), then the answer ([EvPlaceOrder]), and the
    console output. *)

Module PluginHook.
Inductive t :=
| onStart | onBeforeTick | onTick | onCandle | onAfterCandle
| onBeforeOpen | onOpen | onBeforeClose | onClose | onDispose.
End PluginHook.

Global Instance PluginHook_eq_dec : EqDecision PluginHook.t.
Proof. solve_decision. Defined.

Inductive HookArg :=
| AUndefined
| ACandle (k : Candle.t)
| ARef (r : loc)
| AOrder (x : Order.t).

(** What a hook invocation does: return (only the truthiness of the value
    matters to the core) or throw. *)
Inductive HookOutcome :=
| HReturn (truthy : bool)
| HThrow (e : JsError).

Inductive Event :=
| EvHook (hook : PluginHook.t) (args : list HookArg)
| EvInvoke (plugin : nat) (hook : PluginHook.t) (args : list HookArg)
           (book : list loc) (objects : list Order.t) (out : HookOutcome)
| EvAwaitPlaceOrder (request : Order.t) (book : list loc) (objects : list Order.t)
| EvPlaceOrder (request : Order.t) (res : Result Order.t)
| EvConsoleWarn (e : JsError)
| EvConsoleLog (e : JsError)
| EvWarnUnknownOrder (order : loc).

(** ** The engine object and the world it runs in *)

(** The transport is an external collaborator.  What a call returns may
    depend on everything that happened before (the trace), which covers a
    venue with state of its own; either call may fail. *)
Record BaseTransport := {
  placeOrder : Order.t -> gmap string JsValue -> list Event -> Result Order.t;
  prepareLots : float -> string -> list Event -> Result float
}.

Record Debut := mkDebut {
  opts : gmap string JsValue;
  instrument : option Instrument.t;     (* unset until start/learn *)
  orders : list loc;
  transport : BaseTransport;
  learning : JsValue;
  candles : list Candle.t;
  name : string;                        (* [this.constructor.name] *)
  updateCandles_replaced : bool         (* [this.updateCandles] was reassigned *)
}.

Record World := mkWorld {
  self : Debut;
  heap : list Order.t;
  trace : list Event
}.

Definition with_orders (f : list loc -> list loc) (w : World) : World :=
  let d := self w in
  mkWorld (mkDebut (opts d) (instrument d) (f (orders d)) (transport d) (learning d)
                   (candles d) (name d) (updateCandles_replaced d))
          (heap w) (trace w).

Definition with_candles (f : list Candle.t -> list Candle.t) (w : World) : World :=
  let d := self w in
  mkWorld (mkDebut (opts d) (instrument d) (orders d) (transport d) (learning d)
                   (f (candles d)) (name d) (updateCandles_replaced d))
          (heap w) (trace w).

Definition with_replaced (b : bool) (w : World) : World :=
  let d := self w in
  mkWorld (mkDebut (opts d) (instrument d) (orders d) (transport d) (learning d)
                   (candles d) (name d) b)
          (heap w) (trace w).

Definition with_learning (x : JsValue) (w : World) : World :=
  let d := self w in
  mkWorld (mkDebut (opts d) (instrument d) (orders d) (transport d) x
                   (candles d) (name d) (updateCandles_replaced d))
          (heap w) (trace w).

Definition with_instrument (i : Instrument.t) (w : World) : World :=
  let d := self w in
  mkWorld (mkDebut (opts d) (Some i) (orders d) (transport d) (learning d)
                   (candles d) (name d) (updateCandles_replaced d))
          (heap w) (trace w).

Definition with_heap (f : list Order.t -> list Order.t) (w : World) : World :=
  mkWorld (self w) (f (heap w)) (trace w).

Definition log (evs : list Event) (w : World) : World :=
  mkWorld (self w) (heap w) (trace w ++ evs).

(** The events a run from [w] to [w'] added to the trace. *)
Definition emitted (w w' : World) : list Event :=
  drop (length (trace w)) (trace w').

(** ** Computations: state that survives a throw *)

Definition M (A : Type) : Type := World -> Result A * World.

Definition ret {A} (a : A) : M A := fun w => (Ok a, w).

Definition throw {A} (e : JsError) : M A := fun w => (Throw e, w).

Definition bind {A B} (m : M A) (k : A -> M B) : M B :=
  fun w =>
    match m w with
    | (Ok a, w1) => k a w1
    | (Throw e, w1) => (Throw e, w1)
    end.

(** [try { body } catch (e) { handler e }] *)
Definition try_catch {A} (body : M A) (handler : JsError -> M A) : M A :=
  fun w =>
    match body w with
    | (Ok a, w1) => (Ok a, w1)
    | (Throw e, w1) => handler e w1
    end.

(** [try { body } finally { fin }] with a [fin] that cannot throw *)
Definition try_finally {A} (body : M A) (fin : World -> World) : M A :=
  fun w => let '(r, w1) := body w in (r, fin w1).

Definition modify (f : World -> World) : M unit := fun w => (Ok tt, f w).

Declare Scope js_scope.
Delimit Scope js_scope with js.
Notation "x <- m ;; k" := (bind m (fun x => k))
  (at level 100, m at next level, right associativity) : js_scope.
Notation "m ;; k" := (bind m (fun _ => k))
  (at level 100, right associativity) : js_scope.
Local Open Scope js_scope.

(** ** Array primitives *)

(** [arr.findIndex(f)]; [None] stands for [-1] *)
Fixpoint findIndex {A} (f : A -> bool) (arr : list A) : option nat :=
  match arr with
  | [] => None
  | x :: rest => if f x then Some 0 else S <$> findIndex f rest
  end.

(** [arr.indexOf(x)] on references *)
Definition indexOf (x : loc) (arr : list loc) : option nat :=
  findIndex (fun y => bool_decide (y = x)) arr.

(** [arr.splice(idx, 1)] is stdpp's [delete idx arr]; [arr.pop()] drops the
    last element, [arr.unshift(x)] is [x :: arr], [arr.push(x)] is
    [arr ++ [x]]. *)
Definition pop {A} (arr : list A) : list A := removelast arr.

(** [arr[0] = x]: JavaScript extends an empty array *)
Definition assign0 {A} (x : A) (arr : list A) : list A :=
  match arr with
  | [] => [x]
  | _ :: rest => x :: rest
  end.

(** ** Plugins *)

(** Modelled from the spec: the plugin interface is declared outside the
    sources.  A plugin implements any subset of the hooks.  A hook sees its arguments
    and the world (engine, order objects, everything that happened so far);
    the core does not license it to change them. *)
Record PluginInterface := {
  pname : string;
  hooks : PluginHook.t -> option (list HookArg -> World -> HookOutcome)
}.

Definition quote : string := String (Ascii.ascii_of_nat 34) EmptyString.

(** [`${e}`] *)
Definition to_string (e : JsError) : string :=
  match e with
  | TypeError m => "TypeError: " +:+ m
  | DebutError _ m => "Error: " +:+ m
  | Error m => "Error: " +:+ m
  | ThrownUndefined => "undefined"
  | ThrownNull => "null"
  | ThrownValue text => text
  end.

Definition createCoreError (msg : string) : JsError := DebutError Core msg.

Definition defaultOptions : gmap string JsValue :=
  {[ "instrumentType" := VStr "SPOT";
     "fee" := VNum 0.0003;
     "lotsMultiplier" := VNum 1;
     "equityLevel" := VNum 1 ]}.

(** Pre defined rules for config validation *)
Definition validateConfig (this : Debut) : Result unit :=
  if negb (strict_equals (get (opts this) "broker") (VStr "binance"))
     && strict_equals (get (opts this) "instrumentType") (VStr "FUTURES")
  then Throw (createCoreError
                ("Futures are supported only on " +:+ quote +:+ "Binance" +:+ quote +:+ " broker"))
  else Ok tt.

(** [new Debut(transport, opts)]: [{ ...defaultOptions, ...opts }] keeps
    every key of [opts] and takes the others from the defaults. *)
Definition constructor (class_name : string) (transport : BaseTransport)
    (opts : gmap string JsValue) : Result Debut :=
  let this := mkDebut (opts ∪ defaultOptions) None [] transport VUndefined [] class_name false in
  match validateConfig this with
  | Ok _ => Ok this
  | Throw e => Throw e
  end.

(** Prev candle hot getter (last closed candle) *)
Definition prevCandle (w : World) : option Candle.t := candles (self w) !! 1.

(** Current candle hot getter *)
Definition currentCandle (w : World) : option Candle.t := candles (self w) !! 0.

Definition alloc (x : Order.t) : M loc :=
  fun w => (Ok (length (heap w)), with_heap (fun hp => hp ++ [x]) w).

Definition set_processing (r : loc) (b : bool) (w : World) : World :=
  with_heap (alter (Order.set_processing b) r) w.

(** [item.cid === order.cid] on two references, given the objects *)
Definition same_cid (objs : list Order.t) (item order : loc) : bool :=
  match objs !! item, objs !! order with
  | Some x, Some y => PrimFloat.eqb (Order.cid x) (Order.cid y)
  | _, _ => false
  end.

(** Replace pending order to executed by cid *)
Definition replacePendingOrder (order : loc) : M unit :=
  fun w =>
    match findIndex (fun item => same_cid (heap w) item order) (orders (self w)) with
    | Some idx => (Ok tt, with_orders (fun os => <[idx := order]> os) w)
    | None => (Ok tt, log [EvWarnUnknownOrder order] w)
    end.

(** Remove pending order by cid *)
Definition removePendingOrder (order : loc) : M unit :=
  fun w =>
    match findIndex (fun item => same_cid (heap w) item order) (orders (self w)) with
    | Some idx => (Ok tt, with_orders (fun os => delete idx os) w)
    | None => (Ok tt, w)
    end.

(** [await this.transport.placeOrder(pendingOrder, this.opts)] *)
Definition transport_placeOrder (pendingOrder : Order.t) : M Order.t :=
  fun w =>
    let res := placeOrder (transport (self w)) pendingOrder (opts (self w)) (trace w) in
    (res, log [EvAwaitPlaceOrder pendingOrder (orders (self w)) (heap w);
               EvPlaceOrder pendingOrder res] w).

(** The extension points of the abstract class have empty bodies. *)
Definition onOrderClosed (order : Order.t) (closing : loc) : M unit := ret tt.
Definition onOrderOpened (order : loc) : M unit := ret tt.
Definition onCandle (candle : HookArg) : M unit := ret tt.
Definition onTick (tick : Candle.t) : M unit := ret tt.

(** Candle collection managment *)
Definition updateCandles (candle : Candle.t) (w : World) : World :=
  if updateCandles_replaced (self w) then
    with_candles (fun cs => candle :: pop cs) w
  else if bool_decide (length (candles (self w)) = 10) then
    with_candles (fun cs => candle :: cs) (with_replaced true (with_candles pop w))
  else
    with_candles (fun cs => candle :: cs) w.

(** [this.currentCandle && this.currentCandle.time !== tick.time], read as a
    condition *)
Definition crosses_boundary (w : World) (tick : Candle.t) : bool :=
  match currentCandle w with
  | Some cc => negb (PrimFloat.eqb (Candle.time cc) (Candle.time tick))
  | None => false
  end.

Section Engine.

(** The plugins registered with the driver, in registration order. *)
Variable plugins : list PluginInterface.

(** Modelled from the spec: the plugin driver's side-effecting reduce is
    missing from the sources.  Every plugin's implementation of the hook is
    invoked in registration order, each awaited before the next; return
    values are ignored; a failing hook is not caught and no later plugin
    is invoked for that call. *)
Fixpoint reduce_from (i : nat) (ps : list PluginInterface)
    (hook : PluginHook.t) (args : list HookArg) : M unit :=
  match ps with
  | [] => ret tt
  | p :: rest =>
      match hooks p hook with
      | None => reduce_from (S i) rest hook args
      | Some f =>
          fun w =>
            let out := f args w in
            let w1 := log [EvInvoke i hook args (orders (self w)) (heap w) out] w in
            match out with
            | HReturn _ => reduce_from (S i) rest hook args w1
            | HThrow e => (Throw e, w1)
            end
      end
  end.

(** Modelled from the spec: the entry point of the plugin driver's
    side-effecting reduce, missing from the sources; the trace records the
    call. *)
Definition asyncReduce (hook : PluginHook.t) (args : list HookArg) : M unit :=
  modify (log [EvHook hook args]) ;; reduce_from 0 plugins hook args.

(** Modelled from the spec: the plugin driver's skip-reduce is missing from
    the sources.  Plugins are invoked in order; the first truthy return
    stops the iteration and reports skip; otherwise no skip is reported
    after all plugins ran; a failing hook propagates. *)
Fixpoint skipReduce_from (i : nat) (ps : list PluginInterface)
    (hook : PluginHook.t) (args : list HookArg) : M bool :=
  match ps with
  | [] => ret false
  | p :: rest =>
      match hooks p hook with
      | None => skipReduce_from (S i) rest hook args
      | Some f =>
          fun w =>
            let out := f args w in
            let w1 := log [EvInvoke i hook args (orders (self w)) (heap w) out] w in
            match out with
            | HReturn true => (Ok true, w1)
            | HReturn false => skipReduce_from (S i) rest hook args w1
            | HThrow e => (Throw e, w1)
            end
      end
  end.

(** Modelled from the spec: the entry point of the plugin driver's
    skip-reduce, missing from the sources; the trace records the call. *)
Definition asyncSkipReduce (hook : PluginHook.t) (args : list HookArg) : M bool :=
  modify (log [EvHook hook args]) ;; skipReduce_from 0 plugins hook args.

(** [(amount / lotPrice) * lotsMultiplier], the lot count handed to
    [prepareLots] *)
Definition raw_lots (this : Debut) (cc : Candle.t) (ins : Instrument.t) : float :=
  let price := Candle.c cc in
  let amount := get (opts this) "amount" in
  let lotsMultiplier := get (opts this) "lotsMultiplier" in
  let lotSize := Instrument.lot ins in
  let lotPrice := PrimFloat.mul price lotSize in
  PrimFloat.mul (PrimFloat.div (to_number amount) lotPrice) (to_number lotsMultiplier).

(** The [PendingOrder] that [createOrder] builds; [random] is the value
    of [Math.random()], [lots] what [prepareLots] returned. *)
Definition new_pendingOrder (this : Debut) (cc : Candle.t) (ins : Instrument.t)
    (operation : OrderType) (random lots : float) : Order.t :=
  let price := Candle.c cc in
  let time := Candle.time cc in
  let lotsMultiplier := get (opts this) "lotsMultiplier" in
  let equityLevel := get (opts this) "equityLevel" in
  let sandbox := get (opts this) "sandbox" in
  let currency := get (opts this) "currency" in
  let interval := get (opts this) "interval" in
  let broker := get (opts this) "broker" in
  let margin := get (opts this) "margin" in
  let instrumentType := get (opts this) "instrumentType" in
  let lotSize := Instrument.lot ins in
  Order.mk (PrimFloat.mul random 1e17) broker operation
    (Instrument.ticker ins) (Instrument.figi ins) currency interval
    (name this) price (VNum lots) lotSize (Instrument.pipSize ins)
    false VUndefined VUndefined sandbox (learning this) time margin
    (VBool (strict_equals instrumentType (VStr "FUTURES")))
    instrumentType lotsMultiplier equityLevel
    None VUndefined None.

(** The [try] block of [createOrder] *)
Definition createOrder_try (pending : loc) (pendingOrder : Order.t) : M (option loc) :=
  skip <- asyncSkipReduce PluginHook.onBeforeOpen [ARef pending] ;;
  if (skip : bool) then ret None
  else
    modify (with_orders (fun os => os ++ [pending])) ;;
    executed <- transport_placeOrder pendingOrder ;;
    order <- alloc executed ;;
    asyncReduce PluginHook.onOpen [ARef order] ;;
    onOrderOpened order ;;
    replacePendingOrder order ;;
    ret (Some order).

(** The [catch] block of [createOrder]; [iso] is the value of
    [new Date().toISOString()].  The message is built first, and building
    it fails when [undefined] or [null] was thrown: the block then throws
    and nothing of it is done.  Otherwise the function returns
    [undefined]. *)
Definition createOrder_catch (pending : loc) (iso : string) (e : JsError)
    : M (option loc) :=
  match message e with
  | Throw failure => throw failure
  | Ok msg =>
      modify (log [EvConsoleWarn
                     (createCoreError (iso +:+ " Error Order Place " +:+ msg))]) ;;
      removePendingOrder pending ;;
      ret None
  end.

(** Place market order with type.  The lot count is prepared by the
    transport before the [try] block is entered. *)
Definition createOrder (operation : OrderType) (random : float) (iso : string)
    : M (option loc) :=
  fun w =>
    match currentCandle w with
    | None => (Throw (TypeError "Cannot destructure property 'c' of 'this.currentCandle'"), w)
    | Some cc =>
        match instrument (self w) with
        | None =>
            (Throw (TypeError "Cannot destructure property 'ticker' of 'this.instrument'"), w)
        | Some ins =>
            match prepareLots (transport (self w)) (raw_lots (self w) cc ins)
                    (Instrument.id ins) (trace w) with
            | Throw e => (Throw e, w)
            | Ok lots =>
                let pendingOrder := new_pendingOrder (self w) cc ins operation random lots in
                (pending <- alloc pendingOrder ;;
                 try_catch (createOrder_try pending pendingOrder)
                           (createOrder_catch pending iso)) w
            end
        end
    end.

(** The closing [PendingOrder] that [closeOrder] builds for the order
    object [target]; [now] is the value of [Date.now()]. *)
Definition closing_pendingOrder (this : Debut) (cc : Candle.t) (ins : Instrument.t)
    (target : Order.t) (now : float) : Order.t :=
  Order.mk now (get (opts this) "broker") (inverseType (Order.type target))
    (Instrument.ticker ins) (Instrument.figi ins)
    (get (opts this) "currency") (get (opts this) "interval")
    (name this) (Candle.c cc) (Order.executedLots target)
    (Instrument.lot ins) (Instrument.pipSize ins)
    true (VNum (Order.price target))
    (from_option VStr VUndefined (Order.orderId target))
    (Order.sandbox target) (Order.learning target) (Candle.time cc)
    (get (opts this) "margin") (Order.futures target)
    (Order.instrumentType target) VUndefined VUndefined
    None VUndefined None.

(** [const idx = this.orders.indexOf(closing); if (idx !== -1) this.orders.splice(idx, 1)] *)
Definition take_out (closing : loc) (os : list loc) : list loc :=
  match indexOf closing os with
  | Some idx => delete idx os
  | None => os
  end.

(** [const idx = this.orders.indexOf(closing); if (idx === -1) this.orders.unshift(closing)] *)
Definition restore (closing : loc) (os : list loc) : list loc :=
  match indexOf closing os with
  | None => closing :: os
  | Some _ => os
  end.

(** The [try] block of [closeOrder] *)
Definition closeOrder_try (closing : loc) (pendingOrder : Order.t) : M (option Order.t) :=
  skip <- asyncSkipReduce PluginHook.onBeforeClose [AOrder pendingOrder; ARef closing] ;;
  if (skip : bool) then
    modify (set_processing closing false) ;; ret None
  else
    modify (with_orders (take_out closing)) ;;
    order <- transport_placeOrder pendingOrder ;;
    asyncReduce PluginHook.onClose [AOrder order; ARef closing] ;;
    onOrderClosed order closing ;;
    ret (Some order).

(** The [catch] block of [closeOrder]; [iso] is the value of
    [new Date().toISOString()].  The function then returns [undefined]. *)
Definition closeOrder_catch (closing : loc) (iso : string) (e : JsError)
    : M (option Order.t) :=
  modify (log [EvConsoleLog
                 (DebutError Core
                    (iso +:+ " Ошибка закрытия ордера, " +:+ to_string e))]) ;;
  modify (with_orders (restore closing)) ;;
  ret None.

(** Close selected order *)
Definition closeOrder (closing : loc) (now : float) (iso : string) : M (option Order.t) :=
  fun w =>
    match heap w !! closing with
    | None =>
        (Throw (TypeError "Cannot read properties of undefined (reading 'processing')"), w)
    | Some target =>
        if Order.is_processing target || negb (Order.has_orderId target) then (Ok None, w)
        else
          match currentCandle w with
          | None =>
              (Throw (TypeError "Cannot destructure property 'c' of 'this.currentCandle'"), w)
          | Some cc =>
              match instrument (self w) with
              | None =>
                  (Throw (TypeError "Cannot destructure property 'ticker' of 'this.instrument'"), w)
              | Some ins =>
                  let pendingOrder := closing_pendingOrder (self w) cc ins target now in
                  (modify (set_processing closing true) ;;
                   try_finally
                     (try_catch (closeOrder_try closing pendingOrder)
                                (closeOrder_catch closing iso))
                     (set_processing closing false)) w
              end
          end
    end.

(** The loop of [closeAll]: [n] iterations left, [i] done; every iteration
    closes [this.orders[0]] and pushes what [closeOrder] returned. *)
Fixpoint closeAll_loop (n i : nat) (clock : nat -> float * string)
    (closed : list (option Order.t)) : M (list (option Order.t)) :=
  match n with
  | 0 => ret closed
  | S n' =>
      fun w =>
        match orders (self w) !! 0 with
        | None =>
            (Throw (TypeError "Cannot read properties of undefined (reading 'processing')"), w)
        | Some first =>
            (executedOrder <- closeOrder first (clock i).1 (clock i).2 ;;
             closeAll_loop n' (S i) clock (closed ++ [executedOrder])) w
        end
  end.

(** Close all current positions.  [clock i] holds [Date.now()] and
    [new Date().toISOString()] of the i-th iteration.  The outer [None] is
    the [undefined] of the early return. *)
Definition closeAll (clock : nat -> float * string)
    : M (option (list (option Order.t))) :=
  fun w =>
    if bool_decide (length (orders (self w)) = 0) then (Ok None, w)
    else
      let orders_snapshot := orders (self w) in
      let len := length orders_snapshot in
      (closed <- closeAll_loop len 0 clock [] ;; ret (Some closed)) w.

(** The tick handler *)
Definition handler (tick : Candle.t) : M unit :=
  fun w =>
    let change := crosses_boundary w tick in
    (skip <- asyncSkipReduce PluginHook.onBeforeTick [ACandle tick] ;;
     if (skip : bool) then ret tt
     else
       (if negb change then modify (with_candles (assign0 tick)) else ret tt) ;;
       asyncReduce PluginHook.onTick [ACandle tick] ;;
       onTick tick ;;
       if change then
         prevTick <- (fun w1 => (Ok (from_option ACandle AUndefined (currentCandle w1)), w1)) ;;
         asyncReduce PluginHook.onCandle [prevTick] ;;
         onCandle prevTick ;;
         asyncReduce PluginHook.onAfterCandle [prevTick] ;;
         modify (updateCandles tick)
       else ret tt) w.

(** Ticks delivered one after the other by the subscription: a handler
    call that fails does not stop the stream. *)
Definition feed (ticks : list Candle.t) (w : World) : World :=
  foldl (fun w1 tick => snd (handler tick w1)) w ticks.

(** The replay loop of [learn]: every cycle is awaited, a failing one
    aborts the replay. *)
Fixpoint learn_loop (ticks : list Candle.t) : M unit :=
  match ticks with
  | [] => ret tt
  | tick :: rest => handler tick ;; learn_loop rest
  end.

(** [learn], given the instrument and the history the collaborators
    returned. *)
Definition learn (ins : Instrument.t) (ticks : list Candle.t) : M unit :=
  modify (with_instrument ins) ;;
  modify (with_learning (VBool true)) ;;
  learn_loop ticks ;;
  modify (with_learning (VBool false)).

End Engine.

Arguments asyncReduce : simpl never.
Arguments asyncSkipReduce : simpl never.
Arguments createOrder : simpl never.
Arguments closeOrder : simpl never.
Arguments handler : simpl never.

(** * Properties *)

(** ** The trace only grows *)

Lemma log_nil w : log [] w = w.
Proof. destruct w; unfold log; simpl. by rewrite app_nil_r. Qed.

Lemma log_log a b w : log b (log a w) = log (a ++ b) w.
Proof. unfold log; simpl. by rewrite app_assoc. Qed.

Lemma emitted_trace w w' evs : trace w' = trace w ++ evs -> emitted w w' = evs.
Proof. intros E. unfold emitted. rewrite E. apply drop_app_length. Qed.

Lemma emitted_refl w : emitted w w = [].
Proof. apply emitted_trace. by rewrite app_nil_r. Qed.

(** ** What a pipeline call can do *)

(** An invocation that returned a falsy value. *)
Definition passed (hook : PluginHook.t) (args : list HookArg) (book : list loc)
    (objs : list Order.t) (ev : Event) : Prop :=
  exists i, ev = EvInvoke i hook args book objs (HReturn false).

(** An invocation that returned. *)
Definition returned (hook : PluginHook.t) (args : list HookArg) (book : list loc)
    (objs : list Order.t) (ev : Event) : Prop :=
  exists i b, ev = EvInvoke i hook args book objs (HReturn b).

(** The three ways a skip-reduce ends, with the invocations it made. *)
Inductive skip_run (hook : PluginHook.t) (args : list HookArg) (book : list loc)
    (objs : list Order.t) : Result bool -> list Event -> Prop :=
| skip_run_none evs :
    Forall (passed hook args book objs) evs ->
    skip_run hook args book objs (Ok false) evs
| skip_run_veto pre i :
    Forall (passed hook args book objs) pre ->
    skip_run hook args book objs (Ok true)
      (pre ++ [EvInvoke i hook args book objs (HReturn true)])
| skip_run_throw pre i e :
    Forall (passed hook args book objs) pre ->
    skip_run hook args book objs (Throw e)
      (pre ++ [EvInvoke i hook args book objs (HThrow e)]).

(** The two ways a side-effecting reduce ends. *)
Inductive reduce_run (hook : PluginHook.t) (args : list HookArg) (book : list loc)
    (objs : list Order.t) : Result unit -> list Event -> Prop :=
| reduce_run_done evs :
    Forall (returned hook args book objs) evs ->
    reduce_run hook args book objs (Ok tt) evs
| reduce_run_throw pre i e :
    Forall (returned hook args book objs) pre ->
    reduce_run hook args book objs (Throw e)
      (pre ++ [EvInvoke i hook args book objs (HThrow e)]).

Section Pipeline.

Variable plugins : list PluginInterface.

Lemma skipReduce_from_spec ps : forall i hook args w,
  exists r evs,
    skipReduce_from i ps hook args w = (r, log evs w)
    /\ skip_run hook args (orders (self w)) (heap w) r evs.
Proof.
  induction ps as [|p rest IH]; intros i hook args w; simpl.
  - exists (Ok false), []. split; [by rewrite log_nil|]. by constructor.
  - destruct (hooks p hook) as [f|]; [|apply IH].
    destruct (f args w) as [[|]|e] eqn:Hf.
    + eexists (Ok true), [_]. split; [done|].
      by apply (skip_run_veto _ _ _ _ []).
    + destruct (IH (S i) hook args
                  (log [EvInvoke i hook args (orders (self w)) (heap w) (HReturn false)] w))
        as (r & evs & Heq & Hrun).
      exists r, (EvInvoke i hook args (orders (self w)) (heap w) (HReturn false) :: evs).
      rewrite Heq, log_log. split; [done|].
      assert (Hp : passed hook args (orders (self w)) (heap w)
                     (EvInvoke i hook args (orders (self w)) (heap w) (HReturn false)))
        by (by exists i).
      simpl in Hrun. inversion Hrun; subst.
      * constructor. by constructor.
      * apply (skip_run_veto _ _ _ _ (_ :: pre)). by constructor.
      * apply (skip_run_throw _ _ _ _ (_ :: pre)). by constructor.
    + eexists (Throw e), [_]. split; [done|].
      by apply (skip_run_throw _ _ _ _ []).
Qed.

Lemma reduce_from_spec ps : forall i hook args w,
  exists r evs,
    reduce_from i ps hook args w = (r, log evs w)
    /\ reduce_run hook args (orders (self w)) (heap w) r evs.
Proof.
  induction ps as [|p rest IH]; intros i hook args w; simpl.
  - exists (Ok tt), []. split; [by rewrite log_nil|]. by constructor.
  - destruct (hooks p hook) as [f|]; [|apply IH].
    destruct (f args w) as [b|e] eqn:Hf.
    + destruct (IH (S i) hook args
                  (log [EvInvoke i hook args (orders (self w)) (heap w) (HReturn b)] w))
        as (r & evs & Heq & Hrun).
      exists r, (EvInvoke i hook args (orders (self w)) (heap w) (HReturn b) :: evs).
      rewrite Heq, log_log. split; [done|].
      assert (Hp : returned hook args (orders (self w)) (heap w)
                     (EvInvoke i hook args (orders (self w)) (heap w) (HReturn b)))
        by (by exists i, b).
      simpl in Hrun. inversion Hrun; subst.
      * constructor. by constructor.
      * apply (reduce_run_throw _ _ _ _ (_ :: pre)). by constructor.
    + eexists (Throw e), [_]. split; [done|].
      by apply (reduce_run_throw _ _ _ _ []).
Qed.

Lemma asyncSkipReduce_spec hook args w :
  exists r evs,
    asyncSkipReduce plugins hook args w = (r, log (EvHook hook args :: evs) w)
    /\ skip_run hook args (orders (self w)) (heap w) r evs.
Proof.
  unfold asyncSkipReduce, bind, modify.
  destruct (skipReduce_from_spec plugins 0 hook args (log [EvHook hook args] w))
    as (r & evs & Heq & Hrun).
  exists r, evs. rewrite Heq, log_log. simpl in *. by destruct r.
Qed.

Lemma asyncReduce_spec hook args w :
  exists r evs,
    asyncReduce plugins hook args w = (r, log (EvHook hook args :: evs) w)
    /\ reduce_run hook args (orders (self w)) (heap w) r evs.
Proof.
  unfold asyncReduce, bind, modify.
  destruct (reduce_from_spec plugins 0 hook args (log [EvHook hook args] w))
    as (r & evs & Heq & Hrun).
  exists r, evs. rewrite Heq, log_log. simpl in *. by destruct r.
Qed.

End Pipeline.

(** Resolve the next pipeline call in the goal into its possible outcomes. *)
Ltac pipeline_step :=
  match goal with
  | |- context [asyncSkipReduce ?ps ?hk ?args ?wx] =>
      let r := fresh "r" in
      let evs := fresh "evs" in
      let Heq := fresh "Heq" in
      let Hrun := fresh "Hrun" in
      destruct (asyncSkipReduce_spec ps hk args wx) as (r & evs & Heq & Hrun);
      rewrite Heq; clear Heq; simpl in Hrun; destruct r as [[|]|?]; simpl
  | |- context [asyncReduce ?ps ?hk ?args ?wx] =>
      let r := fresh "r" in
      let evs := fresh "evs" in
      let Heq := fresh "Heq" in
      let Hrun := fresh "Hrun" in
      destruct (asyncReduce_spec ps hk args wx) as (r & evs & Heq & Hrun);
      rewrite Heq; clear Heq; simpl in Hrun; destruct r as [[]|?]; simpl
  end.

(** ** The runs of the order operations *)

(** The order book after [removePendingOrder] and after
    [replacePendingOrder], and the warning of the latter. *)
Definition without_cid (objs : list Order.t) (order : loc) (os : list loc) : list loc :=
  match findIndex (fun item => same_cid objs item order) os with
  | Some idx => delete idx os
  | None => os
  end.

Definition replaced_by_cid (objs : list Order.t) (order : loc) (os : list loc) : list loc :=
  match findIndex (fun item => same_cid objs item order) os with
  | Some idx => <[idx := order]> os
  | None => os
  end.

Definition unknown_order_warning (objs : list Order.t) (order : loc) (os : list loc)
    : list Event :=
  match findIndex (fun item => same_cid objs item order) os with
  | Some _ => []
  | None => [EvWarnUnknownOrder order]
  end.

(** The world [w] with another order book and heap and with more events. *)
Definition evolved (w : World) (os : list loc) (objs : list Order.t) (evs : list Event)
    : World :=
  log evs (with_heap (fun _ => objs) (with_orders (fun _ => os) w)).

Lemma evolved_self_orders w os objs evs : orders (self (evolved w os objs evs)) = os.
Proof. done. Qed.

Lemma evolved_heap w os objs evs : heap (evolved w os objs evs) = objs.
Proof. done. Qed.

Lemma evolved_emitted w os objs evs : emitted w (evolved w os objs evs) = evs.
Proof. by apply emitted_trace. Qed.

Lemma removePendingOrder_evolved order w :
  removePendingOrder order w
  = (Ok tt, evolved w (without_cid (heap w) order (orders (self w))) (heap w) []).
Proof.
  unfold removePendingOrder, without_cid, evolved.
  destruct w as [[] hp tr]; simpl.
  destruct (findIndex _ _); unfold with_orders, with_heap, log; simpl;
    by rewrite app_nil_r.
Qed.

Lemma replacePendingOrder_evolved order w :
  replacePendingOrder order w
  = (Ok tt, evolved w (replaced_by_cid (heap w) order (orders (self w))) (heap w)
              (unknown_order_warning (heap w) order (orders (self w)))).
Proof.
  unfold replacePendingOrder, replaced_by_cid, unknown_order_warning, evolved.
  destruct w as [[] hp tr]; simpl.
  destruct (findIndex _ _); unfold with_orders, with_heap, log; simpl;
    by rewrite ?app_nil_r.
Qed.

Definition order_place_warning (iso msg : string) : Event :=
  EvConsoleWarn (createCoreError (iso +:+ " Error Order Place " +:+ msg)).

(** What the catch block of [createOrder] makes of a failure [e]: the
    result of [createOrder], the order book, the console output.  When
    building the message fails, [createOrder] rejects with that failure and
    the book stays as it is. *)
Definition catch_result (e : JsError) : Result (option loc) :=
  match message e with
  | Ok _ => Ok None
  | Throw failure => Throw failure
  end.

Definition catch_book (e : JsError) (objs : list Order.t) (pending : loc) (os : list loc)
    : list loc :=
  match message e with
  | Ok _ => without_cid objs pending os
  | Throw _ => os
  end.

Definition catch_log (iso : string) (e : JsError) : list Event :=
  match message e with
  | Ok msg => [order_place_warning iso msg]
  | Throw _ => []
  end.

(** The five ways a [createOrder] that got past [prepareLots] runs:
    result, final order book, final heap, events.  [p] is the pending order
    it built; its reference is [length (heap w)]. *)
Inductive createOrder_run (w : World) (p : Order.t) (iso : string)
    : Result (option loc) -> list loc -> list Order.t -> list Event -> Prop :=
| create_vetoed evs :
    skip_run PluginHook.onBeforeOpen [ARef (length (heap w))]
      (orders (self w)) (heap w ++ [p]) (Ok true) evs ->
    createOrder_run w p iso (Ok None) (orders (self w)) (heap w ++ [p])
      (EvHook PluginHook.onBeforeOpen [ARef (length (heap w))] :: evs)
| create_gate_failed evs e :
    skip_run PluginHook.onBeforeOpen [ARef (length (heap w))]
      (orders (self w)) (heap w ++ [p]) (Throw e) evs ->
    createOrder_run w p iso (catch_result e)
      (catch_book e (heap w ++ [p]) (length (heap w)) (orders (self w)))
      (heap w ++ [p])
      (EvHook PluginHook.onBeforeOpen [ARef (length (heap w))] :: evs
       ++ catch_log iso e)
| create_rejected evs e :
    skip_run PluginHook.onBeforeOpen [ARef (length (heap w))]
      (orders (self w)) (heap w ++ [p]) (Ok false) evs ->
    placeOrder (transport (self w)) p (opts (self w))
      (trace w ++ EvHook PluginHook.onBeforeOpen [ARef (length (heap w))] :: evs) = Throw e ->
    createOrder_run w p iso (catch_result e)
      (catch_book e (heap w ++ [p]) (length (heap w)) (orders (self w) ++ [length (heap w)]))
      (heap w ++ [p])
      (EvHook PluginHook.onBeforeOpen [ARef (length (heap w))] :: evs
       ++ EvAwaitPlaceOrder p (orders (self w) ++ [length (heap w)]) (heap w ++ [p])
       :: EvPlaceOrder p (Throw e) :: catch_log iso e)
| create_onOpen_failed evs x evs2 e :
    skip_run PluginHook.onBeforeOpen [ARef (length (heap w))]
      (orders (self w)) (heap w ++ [p]) (Ok false) evs ->
    placeOrder (transport (self w)) p (opts (self w))
      (trace w ++ EvHook PluginHook.onBeforeOpen [ARef (length (heap w))] :: evs) = Ok x ->
    reduce_run PluginHook.onOpen [ARef (S (length (heap w)))]
      (orders (self w) ++ [length (heap w)]) (heap w ++ [p; x]) (Throw e) evs2 ->
    createOrder_run w p iso (catch_result e)
      (catch_book e (heap w ++ [p; x]) (length (heap w))
         (orders (self w) ++ [length (heap w)]))
      (heap w ++ [p; x])
      (EvHook PluginHook.onBeforeOpen [ARef (length (heap w))] :: evs
       ++ EvAwaitPlaceOrder p (orders (self w) ++ [length (heap w)]) (heap w ++ [p])
       :: EvPlaceOrder p (Ok x) :: EvHook PluginHook.onOpen [ARef (S (length (heap w)))] :: evs2
       ++ catch_log iso e)
| create_opened evs x evs2 :
    skip_run PluginHook.onBeforeOpen [ARef (length (heap w))]
      (orders (self w)) (heap w ++ [p]) (Ok false) evs ->
    placeOrder (transport (self w)) p (opts (self w))
      (trace w ++ EvHook PluginHook.onBeforeOpen [ARef (length (heap w))] :: evs) = Ok x ->
    reduce_run PluginHook.onOpen [ARef (S (length (heap w)))]
      (orders (self w) ++ [length (heap w)]) (heap w ++ [p; x]) (Ok tt) evs2 ->
    createOrder_run w p iso (Ok (Some (S (length (heap w)))))
      (replaced_by_cid (heap w ++ [p; x]) (S (length (heap w)))
         (orders (self w) ++ [length (heap w)]))
      (heap w ++ [p; x])
      (EvHook PluginHook.onBeforeOpen [ARef (length (heap w))] :: evs
       ++ EvAwaitPlaceOrder p (orders (self w) ++ [length (heap w)]) (heap w ++ [p])
       :: EvPlaceOrder p (Ok x) :: EvHook PluginHook.onOpen [ARef (S (length (heap w)))] :: evs2
       ++ unknown_order_warning (heap w ++ [p; x]) (S (length (heap w)))
            (orders (self w) ++ [length (heap w)])).

Definition close_error_log (iso : string) (e : JsError) : Event :=
  EvConsoleLog (DebutError Core (iso +:+ " Ошибка закрытия ордера, " +:+ to_string e)).

(** The order objects while the order [closing] is marked, and after the
    mark is cleared. *)
Definition marked (closing : loc) (objs : list Order.t) : list Order.t :=
  alter (Order.set_processing true) closing objs.

Definition unmarked (closing : loc) (objs : list Order.t) : list Order.t :=
  alter (Order.set_processing false) closing objs.

(** The five ways a [closeOrder] that got past its guard and its
    destructurings runs: result, final order book, events.  [q] is the
    closing request it built.  The heap ends as [unmarked closing (heap w)]
    in all of them. *)
Inductive closeOrder_run (w : World) (closing : loc) (q : Order.t) (iso : string)
    : Result (option Order.t) -> list loc -> list Event -> Prop :=
| close_vetoed evs :
    skip_run PluginHook.onBeforeClose [AOrder q; ARef closing]
      (orders (self w)) (marked closing (heap w)) (Ok true) evs ->
    closeOrder_run w closing q iso (Ok None) (orders (self w))
      (EvHook PluginHook.onBeforeClose [AOrder q; ARef closing] :: evs)
| close_gate_failed evs e :
    skip_run PluginHook.onBeforeClose [AOrder q; ARef closing]
      (orders (self w)) (marked closing (heap w)) (Throw e) evs ->
    closeOrder_run w closing q iso (Ok None) (restore closing (orders (self w)))
      (EvHook PluginHook.onBeforeClose [AOrder q; ARef closing] :: evs
       ++ [close_error_log iso e])
| close_rejected evs e :
    skip_run PluginHook.onBeforeClose [AOrder q; ARef closing]
      (orders (self w)) (marked closing (heap w)) (Ok false) evs ->
    placeOrder (transport (self w)) q (opts (self w))
      (trace w ++ EvHook PluginHook.onBeforeClose [AOrder q; ARef closing] :: evs) = Throw e ->
    closeOrder_run w closing q iso (Ok None)
      (restore closing (take_out closing (orders (self w))))
      (EvHook PluginHook.onBeforeClose [AOrder q; ARef closing] :: evs
       ++ [EvAwaitPlaceOrder q (take_out closing (orders (self w))) (marked closing (heap w));
           EvPlaceOrder q (Throw e); close_error_log iso e])
| close_onClose_failed evs x evs2 e :
    skip_run PluginHook.onBeforeClose [AOrder q; ARef closing]
      (orders (self w)) (marked closing (heap w)) (Ok false) evs ->
    placeOrder (transport (self w)) q (opts (self w))
      (trace w ++ EvHook PluginHook.onBeforeClose [AOrder q; ARef closing] :: evs) = Ok x ->
    reduce_run PluginHook.onClose [AOrder x; ARef closing]
      (take_out closing (orders (self w))) (marked closing (heap w)) (Throw e) evs2 ->
    closeOrder_run w closing q iso (Ok None)
      (restore closing (take_out closing (orders (self w))))
      (EvHook PluginHook.onBeforeClose [AOrder q; ARef closing] :: evs
       ++ EvAwaitPlaceOrder q (take_out closing (orders (self w))) (marked closing (heap w))
       :: EvPlaceOrder q (Ok x) :: EvHook PluginHook.onClose [AOrder x; ARef closing] :: evs2
       ++ [close_error_log iso e])
| close_closed evs x evs2 :
    skip_run PluginHook.onBeforeClose [AOrder q; ARef closing]
      (orders (self w)) (marked closing (heap w)) (Ok false) evs ->
    placeOrder (transport (self w)) q (opts (self w))
      (trace w ++ EvHook PluginHook.onBeforeClose [AOrder q; ARef closing] :: evs) = Ok x ->
    reduce_run PluginHook.onClose [AOrder x; ARef closing]
      (take_out closing (orders (self w))) (marked closing (heap w)) (Ok tt) evs2 ->
    closeOrder_run w closing q iso (Ok (Some x)) (take_out closing (orders (self w)))
      (EvHook PluginHook.onBeforeClose [AOrder q; ARef closing] :: evs
       ++ EvAwaitPlaceOrder q (take_out closing (orders (self w))) (marked closing (heap w))
       :: EvPlaceOrder q (Ok x) :: EvHook PluginHook.onClose [AOrder x; ARef closing] :: evs2).

Lemma unmarked_marked closing objs :
  unmarked closing (marked closing objs) = unmarked closing objs.
Proof.
  unfold unmarked, marked. rewrite list_alter_alter_eq.
  apply list_alter_ext; [|done]. by intros [].
Qed.

Lemma unmarked_unmarked closing objs :
  unmarked closing (unmarked closing objs) = unmarked closing objs.
Proof.
  unfold unmarked. rewrite list_alter_alter_eq.
  apply list_alter_ext; [|done]. by intros [].
Qed.

(** Two worlds with the same components are equal. *)
Lemma world_eq w1 w2 :
  self w1 = self w2 -> heap w1 = heap w2 -> trace w1 = trace w2 -> w1 = w2.
Proof. destruct w1, w2; simpl; congruence. Qed.

Lemma debut_eq d1 d2 :
  opts d1 = opts d2 -> instrument d1 = instrument d2 -> orders d1 = orders d2 ->
  transport d1 = transport d2 -> learning d1 = learning d2 -> candles d1 = candles d2 ->
  name d1 = name d2 -> updateCandles_replaced d1 = updateCandles_replaced d2 -> d1 = d2.
Proof. destruct d1, d2; simpl; congruence. Qed.

Ltac same_world :=
  unfold evolved;
  apply world_eq; [apply debut_eq|..]; simpl;
  rewrite <- ?app_assoc; simpl; rewrite <- ?app_assoc; simpl;
  rewrite ?length_app; simpl; rewrite ?Nat.add_1_r; try reflexivity.

Section OrderRuns.

Variable plugins : list PluginInterface.

Lemma createOrder_catch_evolved pending iso e w :
  createOrder_catch pending iso e w
  = (catch_result e,
     evolved w (catch_book e (heap w) pending (orders (self w))) (heap w) (catch_log iso e)).
Proof.
  unfold createOrder_catch, catch_result, catch_book, catch_log.
  destruct (message e) as [msg|failure].
  - unfold bind, modify, ret. rewrite removePendingOrder_evolved. f_equal. same_world.
  - unfold throw. f_equal. same_world. by rewrite app_nil_r.
Qed.

Lemma createOrder_paths operation random iso w cc ins lots :
  currentCandle w = Some cc ->
  instrument (self w) = Some ins ->
  prepareLots (transport (self w)) (raw_lots (self w) cc ins) (Instrument.id ins) (trace w)
  = Ok lots ->
  exists r os objs evs,
    createOrder plugins operation random iso w = (r, evolved w os objs evs)
    /\ createOrder_run w (new_pendingOrder (self w) cc ins operation random lots) iso
         r os objs evs.
Proof.
  intros Hcc Hins Hlots. unfold createOrder. rewrite Hcc, Hins, Hlots.
  set (p := new_pendingOrder (self w) cc ins operation random lots).
  unfold bind at 1, alloc at 1, try_catch, createOrder_try, bind at 1.
  destruct (asyncSkipReduce_spec plugins PluginHook.onBeforeOpen [ARef (length (heap w))]
              (with_heap (fun hp => hp ++ [p]) w)) as (r & evs & Heq & Hrun).
  rewrite Heq. simpl in Hrun.
  destruct r as [[|]|e].
  - (* vetoed *)
    eexists _, _, _, _. split; [|by apply create_vetoed].
    unfold ret. f_equal. same_world.
  - (* submitted *)
    unfold bind, modify, transport_placeOrder. simpl.
    destruct (placeOrder _ _ _ _) as [x|e] eqn:Hplace.
    + unfold alloc. simpl.
      replace (length (heap w ++ [p])) with (S (length (heap w)))
        by (rewrite length_app; simpl; lia).
      match goal with
      | |- context [asyncReduce plugins ?hk ?args ?wx] =>
          destruct (asyncReduce_spec plugins hk args wx) as (r2 & evs2 & Heq2 & Hrun2)
      end.
      rewrite Heq2. simpl in Hrun2. rewrite <- app_assoc in Hrun2. simpl in Hrun2.
      destruct r2 as [[]|e].
      * unfold onOrderOpened, ret. rewrite replacePendingOrder_evolved. simpl.
        eexists _, _, _, _. split; [|by apply (create_opened w p iso evs x evs2)].
        f_equal. same_world.
      * rewrite createOrder_catch_evolved. simpl.
        eexists _, _, _, _. split; [|by apply (create_onOpen_failed w p iso evs x evs2 e)].
        f_equal. same_world.
    + rewrite createOrder_catch_evolved. simpl.
      eexists _, _, _, _. split; [|by apply (create_rejected w p iso evs e)].
      f_equal. same_world.
  - (* the veto hook failed *)
    rewrite createOrder_catch_evolved. simpl.
    eexists _, _, _, _. split; [|by apply (create_gate_failed w p iso evs e)].
    f_equal. same_world.
Qed.

Lemma closeOrder_catch_evolved closing iso e w :
  closeOrder_catch closing iso e w
  = (Ok None, evolved w (restore closing (orders (self w))) (heap w) [close_error_log iso e]).
Proof. unfold closeOrder_catch, bind, modify, ret. by destruct w as [[] ? ?]. Qed.

Lemma closeOrder_paths closing now iso w target cc ins :
  heap w !! closing = Some target ->
  Order.is_processing target = false ->
  Order.has_orderId target = true ->
  currentCandle w = Some cc ->
  instrument (self w) = Some ins ->
  exists r os evs,
    closeOrder plugins closing now iso w
    = (r, evolved w os (unmarked closing (heap w)) evs)
    /\ closeOrder_run w closing (closing_pendingOrder (self w) cc ins target now) iso r os evs.
Proof.
  intros Hobj Hproc Hid Hcc Hins. unfold closeOrder.
  rewrite Hobj, Hproc, Hid, Hcc, Hins. simpl.
  set (q := closing_pendingOrder (self w) cc ins target now).
  unfold bind at 1, modify at 1, try_finally, try_catch, closeOrder_try, bind at 1.
  destruct (asyncSkipReduce_spec plugins PluginHook.onBeforeClose [AOrder q; ARef closing]
              (set_processing closing true w)) as (r & evs & Heq & Hrun).
  rewrite Heq. simpl in Hrun. fold (marked closing (heap w)) in Hrun.
  destruct r as [[|]|e].
  - unfold bind, modify, ret.
    eexists _, _, _. split; [|by apply close_vetoed].
    f_equal. same_world.
    fold (marked closing (heap w)). fold (unmarked closing (marked closing (heap w))).
    fold (unmarked closing (unmarked closing (marked closing (heap w)))).
    by rewrite unmarked_unmarked, unmarked_marked.
  - unfold bind, modify, transport_placeOrder. simpl.
    destruct (placeOrder _ _ _ _) as [x|e] eqn:Hplace.
    + match goal with
      | |- context [asyncReduce plugins ?hk ?args ?wx] =>
          destruct (asyncReduce_spec plugins hk args wx) as (r2 & evs2 & Heq2 & Hrun2)
      end.
      rewrite Heq2. simpl in Hrun2. fold (marked closing (heap w)) in Hrun2.
      destruct r2 as [[]|e].
      * unfold onOrderClosed, ret.
        eexists _, _, _. split; [|by apply (close_closed w closing q iso evs x evs2)].
        f_equal. same_world.
        fold (marked closing (heap w)). fold (unmarked closing (marked closing (heap w))).
        by rewrite unmarked_marked.
      * rewrite closeOrder_catch_evolved. simpl.
        eexists _, _, _. split; [|by apply (close_onClose_failed w closing q iso evs x evs2 e)].
        f_equal. same_world.
        fold (marked closing (heap w)). fold (unmarked closing (marked closing (heap w))).
        by rewrite unmarked_marked.
    + rewrite closeOrder_catch_evolved. simpl.
      eexists _, _, _. split; [|by apply (close_rejected w closing q iso evs e)].
      f_equal. same_world.
      fold (marked closing (heap w)). fold (unmarked closing (marked closing (heap w))).
      by rewrite unmarked_marked.
  - rewrite closeOrder_catch_evolved. simpl.
    eexists _, _, _. split; [|by apply (close_gate_failed w closing q iso evs e)].
    f_equal. same_world.
    fold (marked closing (heap w)). fold (unmarked closing (marked closing (heap w))).
    by rewrite unmarked_marked.
Qed.

End OrderRuns.

(** ** Plugins that let the engine proceed *)

(** No implementation of the veto [hook] ever vetoes or throws. *)
Definition never_vetoes (plugins : list PluginInterface) (hook : PluginHook.t) : Prop :=
  forall p f args w, p ∈ plugins -> hooks p hook = Some f -> f args w = HReturn false.

(** No implementation of [hook] ever throws. *)
Definition always_returns (plugins : list PluginInterface) (hook : PluginHook.t) : Prop :=
  forall p f args w, p ∈ plugins -> hooks p hook = Some f -> exists b, f args w = HReturn b.

(** The pipeline calls the engine made, in order. *)
Definition hook_calls (evs : list Event) : list (PluginHook.t * list HookArg) :=
  omap (fun ev => match ev with EvHook hk args => Some (hk, args) | _ => None end) evs.

(** The submissions to the transport, in order. *)
Definition submissions (evs : list Event) : list Order.t :=
  omap (fun ev => match ev with EvPlaceOrder q _ => Some q | _ => None end) evs.

Definition is_invocation (ev : Event) : Prop :=
  match ev with EvInvoke _ _ _ _ _ _ => True | _ => False end.

Lemma passed_is_invocation hook args book objs ev :
  passed hook args book objs ev -> is_invocation ev.
Proof. by intros [i ->]. Qed.

Lemma returned_is_invocation hook args book objs ev :
  returned hook args book objs ev -> is_invocation ev.
Proof. by intros (i & b & ->). Qed.

Lemma hook_calls_app a b : hook_calls (a ++ b) = hook_calls a ++ hook_calls b.
Proof. apply omap_app. Qed.

Lemma submissions_app a b : submissions (a ++ b) = submissions a ++ submissions b.
Proof. apply omap_app. Qed.

Lemma hook_calls_invocations evs : Forall is_invocation evs -> hook_calls evs = [].
Proof. induction 1 as [|[] ? ? ?]; simpl in *; try done. Qed.

Lemma submissions_invocations evs : Forall is_invocation evs -> submissions evs = [].
Proof. induction 1 as [|[] ? ? ?]; simpl in *; try done. Qed.

Lemma hook_calls_passed hook args book objs evs :
  Forall (passed hook args book objs) evs -> hook_calls evs = [].
Proof.
  intros H. apply hook_calls_invocations. eapply Forall_impl; [exact H|].
  intros ?. apply passed_is_invocation.
Qed.

Lemma hook_calls_returned hook args book objs evs :
  Forall (returned hook args book objs) evs -> hook_calls evs = [].
Proof.
  intros H. apply hook_calls_invocations. eapply Forall_impl; [exact H|].
  intros ?. apply returned_is_invocation.
Qed.

Lemma submissions_passed hook args book objs evs :
  Forall (passed hook args book objs) evs -> submissions evs = [].
Proof.
  intros H. apply submissions_invocations. eapply Forall_impl; [exact H|].
  intros ?. apply passed_is_invocation.
Qed.


Section Quiet.

Variable plugins : list PluginInterface.

Lemma skipReduce_from_quiet ps hook : forall i args w,
  (forall p f args w, p ∈ ps -> hooks p hook = Some f -> f args w = HReturn false) ->
  exists evs,
    skipReduce_from i ps hook args w = (Ok false, log evs w)
    /\ Forall (passed hook args (orders (self w)) (heap w)) evs.
Proof.
  induction ps as [|p rest IH]; intros i args w Hq; simpl.
  - exists []. by rewrite log_nil.
  - assert (Hrest : forall p f args w, p ∈ rest -> hooks p hook = Some f ->
                                       f args w = HReturn false)
      by (intros; eapply Hq; [by right|done]).
    destruct (hooks p hook) as [f|] eqn:Hf; [|by apply IH].
    rewrite (Hq p f args w); [|by left|done].
    destruct (IH (S i) args
                (log [EvInvoke i hook args (orders (self w)) (heap w) (HReturn false)] w)
                Hrest) as (evs & Heq & Hall).
    eexists (_ :: evs). rewrite Heq, log_log. split; [done|].
    constructor; [by exists i|done].
Qed.

Lemma reduce_from_returns ps hook : forall i args w,
  (forall p f args w, p ∈ ps -> hooks p hook = Some f -> exists b, f args w = HReturn b) ->
  exists evs,
    reduce_from i ps hook args w = (Ok tt, log evs w)
    /\ Forall (returned hook args (orders (self w)) (heap w)) evs.
Proof.
  induction ps as [|p rest IH]; intros i args w Hq; simpl.
  - exists []. by rewrite log_nil.
  - assert (Hrest : forall p f args w, p ∈ rest -> hooks p hook = Some f ->
                                       exists b, f args w = HReturn b)
      by (intros; eapply Hq; [by right|done]).
    destruct (hooks p hook) as [f|] eqn:Hf; [|by apply IH].
    destruct (Hq p f args w) as [b Hb]; [by left|done|]. rewrite Hb.
    destruct (IH (S i) args
                (log [EvInvoke i hook args (orders (self w)) (heap w) (HReturn b)] w)
                Hrest) as (evs & Heq & Hall).
    eexists (_ :: evs). rewrite Heq, log_log. split; [done|].
    constructor; [by exists i, b|done].
Qed.

Lemma asyncSkipReduce_quiet hook args w :
  never_vetoes plugins hook ->
  exists evs,
    asyncSkipReduce plugins hook args w = (Ok false, log (EvHook hook args :: evs) w)
    /\ Forall (passed hook args (orders (self w)) (heap w)) evs.
Proof.
  intros Hq. unfold asyncSkipReduce, bind, modify.
  destruct (skipReduce_from_quiet plugins hook 0 args (log [EvHook hook args] w) Hq)
    as (evs & Heq & Hall).
  exists evs. by rewrite Heq, log_log.
Qed.

Lemma asyncReduce_returns hook args w :
  always_returns plugins hook ->
  exists evs,
    asyncReduce plugins hook args w = (Ok tt, log (EvHook hook args :: evs) w)
    /\ Forall (returned hook args (orders (self w)) (heap w)) evs.
Proof.
  intros Hq. unfold asyncReduce, bind, modify.
  destruct (reduce_from_returns plugins hook 0 args (log [EvHook hook args] w) Hq)
    as (evs & Heq & Hall).
  exists evs. by rewrite Heq, log_log.
Qed.

End Quiet.

(** ** The candle window *)

(** The window is within its bound, and the replaced [updateCandles] is only
    ever installed on a full window. *)
Definition window_ok (w : World) : Prop :=
  length (candles (self w)) <= 10
  /\ (updateCandles_replaced (self w) = true -> length (candles (self w)) = 10).

Lemma length_pop {A} (arr : list A) : length (pop arr) = length arr - 1.
Proof.
  unfold pop. induction arr as [|x [|y rest] IH]; simpl in *; try done.
  rewrite IH. lia.
Qed.

Lemma pop_take {A} (arr : list A) : pop arr = take (length arr - 1) arr.
Proof.
  unfold pop. induction arr as [|x [|y rest] IH]; simpl in *; try done.
  rewrite IH. by rewrite Nat.sub_0_r.
Qed.

Lemma length_assign0 {A} (x : A) arr : length (assign0 x arr) = Nat.max 1 (length arr).
Proof. by destruct arr. Qed.

(** Both versions of [updateCandles] put the candle in front and keep the
    ten most recent. *)
Lemma updateCandles_take candle w :
  window_ok w ->
  candles (self (updateCandles candle w)) = take 10 (candle :: candles (self w)).
Proof.
  intros [Hle Hrep]. unfold updateCandles.
  destruct (updateCandles_replaced (self w)) eqn:Hr; simpl.
  - rewrite pop_take, Hrep by done. done.
  - case_bool_decide as Hlen; simpl.
    + rewrite pop_take, Hlen. done.
    + rewrite take_ge by lia. done.
Qed.

Lemma updateCandles_ok candle w : window_ok w -> window_ok (updateCandles candle w).
Proof.
  intros [Hle Hrep]. unfold window_ok, updateCandles.
  destruct (updateCandles_replaced (self w)) eqn:Hr; simpl.
  - rewrite length_pop, Hrep by done. split; [lia|done].
  - case_bool_decide as Hlen; simpl.
    + rewrite length_pop, Hlen. split; [lia|done].
    + rewrite Hr. split; [lia|done].
Qed.

Lemma assign0_ok tick w : window_ok w -> window_ok (with_candles (assign0 tick) w).
Proof.
  intros [Hle Hrep]. unfold window_ok. simpl. rewrite length_assign0.
  split; [lia|]. intros Hr. specialize (Hrep Hr). lia.
Qed.

Lemma log_ok evs w : window_ok w -> window_ok (log evs w).
Proof. done. Qed.

Section Window.

Variable plugins : list PluginInterface.

(** What a tick does to the engine object, whatever the plugins do:
    nothing, the overwrite of the current candle, or the window update. *)
Lemma handler_self tick w r w' :
  handler plugins tick w = (r, w') ->
  self w' = self w
  \/ self w' = self (with_candles (assign0 tick) w)
  \/ self w' = self (updateCandles tick w).
Proof.
  unfold handler, bind, ret, modify, onTick, onCandle.
  destruct (crosses_boundary w tick); simpl.
  - pipeline_step; try (by intros [= <- <-]; left).
    pipeline_step; try (by intros [= <- <-]; left).
    pipeline_step; try (by intros [= <- <-]; left).
    pipeline_step; try (by intros [= <- <-]; left).
    intros [= <- <-]. right; right.
    unfold updateCandles. simpl. by repeat case_match.
  - pipeline_step; try (by intros [= <- <-]; left).
    pipeline_step; intros [= <- <-]; by right; left.
Qed.

Lemma handler_ok tick w : window_ok w -> window_ok (snd (handler plugins tick w)).
Proof.
  intros Hok. unfold window_ok.
  destruct (handler plugins tick w) as [r w'] eqn:Hrun. simpl.
  destruct (handler_self tick w r w' Hrun) as [-> | [-> | ->]].
  - done.
  - by apply assign0_ok.
  - by apply updateCandles_ok.
Qed.

Lemma feed_ok ticks : forall w, window_ok w -> window_ok (feed plugins ticks w).
Proof.
  induction ticks as [|tick rest IH]; intros w Hok; simpl; [done|].
  apply IH. by apply handler_ok.
Qed.

Lemma learn_loop_ok ticks : forall w,
  window_ok w -> window_ok (snd (learn_loop plugins ticks w)).
Proof.
  induction ticks as [|tick rest IH]; intros w Hok; simpl; [done|].
  unfold bind. pose proof (handler_ok tick w Hok) as Hstep.
  destruct (handler plugins tick w) as [[[]|e] w1]; simpl in *; [by apply IH|done].
Qed.

Lemma learn_ok ins ticks w : window_ok w -> window_ok (snd (learn plugins ins ticks w)).
Proof.
  intros Hok. unfold learn, bind, modify.
  pose proof (learn_loop_ok ticks
                (with_learning (VBool true) (with_instrument ins w)) Hok) as Hloop.
  destruct (learn_loop plugins ticks _) as [[[]|e] w1]; simpl in *; done.
Qed.

(** The next window and the pipeline calls of a tick that no plugin
    vetoes or fails on. *)
Definition next_window (tick : Candle.t) (w : World) : World :=
  if crosses_boundary w tick then updateCandles tick w
  else with_candles (assign0 tick) w.

Definition tick_hooks (tick : Candle.t) (w : World) : list (PluginHook.t * list HookArg) :=
  [(PluginHook.onBeforeTick, [ACandle tick]); (PluginHook.onTick, [ACandle tick])]
  ++ if crosses_boundary w tick then
       [(PluginHook.onCandle, [from_option ACandle AUndefined (currentCandle w)]);
        (PluginHook.onAfterCandle, [from_option ACandle AUndefined (currentCandle w)])]
     else [].

Lemma updateCandles_log tick evs w :
  updateCandles tick (log evs w) = log evs (updateCandles tick w).
Proof. unfold updateCandles. simpl. by repeat case_match. Qed.

Lemma handler_proceeds tick w :
  never_vetoes plugins PluginHook.onBeforeTick ->
  always_returns plugins PluginHook.onTick ->
  always_returns plugins PluginHook.onCandle ->
  always_returns plugins PluginHook.onAfterCandle ->
  exists evs,
    handler plugins tick w = (Ok tt, log evs (next_window tick w))
    /\ hook_calls evs = tick_hooks tick w.
Proof.
  intros Hgate Htick Hcandle Hafter.
  unfold handler, next_window, tick_hooks, bind, ret, modify, onTick, onCandle.
  destruct (asyncSkipReduce_quiet plugins PluginHook.onBeforeTick [ACandle tick] w Hgate)
    as (evs1 & -> & Hev1).
  apply hook_calls_passed in Hev1.
  destruct (crosses_boundary w tick); simpl.
  - destruct (asyncReduce_returns plugins PluginHook.onTick [ACandle tick]
                (log (EvHook PluginHook.onBeforeTick [ACandle tick] :: evs1) w) Htick)
      as (evs2 & -> & Hev2).
    apply hook_calls_returned in Hev2.
    match goal with
    | |- context [asyncReduce plugins ?hk ?args ?wx] =>
        destruct (asyncReduce_returns plugins hk args wx Hcandle) as (evs3 & -> & Hev3)
    end.
    apply hook_calls_returned in Hev3.
    match goal with
    | |- context [asyncReduce plugins ?hk ?args ?wx] =>
        destruct (asyncReduce_returns plugins hk args wx Hafter) as (evs4 & -> & Hev4)
    end.
    apply hook_calls_returned in Hev4.
    rewrite !updateCandles_log, !log_log.
    eexists. split; [done|].
    simpl. rewrite !hook_calls_app. simpl. rewrite !hook_calls_app. simpl.
    rewrite !hook_calls_app. simpl.
    by repeat match goal with H : hook_calls _ = [] |- _ => rewrite H; clear H end.
  - match goal with
    | |- context [asyncReduce plugins ?hk ?args ?wx] =>
        destruct (asyncReduce_returns plugins hk args wx Htick) as (evs2 & -> & Hev2)
    end.
    apply hook_calls_returned in Hev2.
    replace (with_candles (assign0 tick)
               (log (EvHook PluginHook.onBeforeTick [ACandle tick] :: evs1) w))
      with (log (EvHook PluginHook.onBeforeTick [ACandle tick] :: evs1)
              (with_candles (assign0 tick) w)) by done.
    rewrite !log_log.
    eexists. split; [done|].
    simpl. rewrite !hook_calls_app. simpl.
    by repeat match goal with H : hook_calls _ = [] |- _ => rewrite H; clear H end.
Qed.

End Window.

(** ** Concrete engines, transports and plugins used in the examples *)

(** What a venue that accepts a request sends back: the request with an
    order id and the executed lots. *)
Definition executed_as (oid : string) (x : Order.t) : Order.t :=
  Order.mk (Order.cid x) (Order.broker x) (Order.type x) (Order.ticker x) (Order.figi x)
    (Order.currency x) (Order.interval x) (Order.author x) (Order.price x) (Order.lots x)
    (Order.lotSize x) (Order.pipSize x) (Order.close x) (Order.openPrice x) (Order.openId x)
    (Order.sandbox x) (Order.learning x) (Order.time x) (Order.margin x) (Order.futures x)
    (Order.instrumentType x) (Order.lotsMultiplier x) (Order.equityLevel x)
    (Some oid) (Order.lots x) (Order.processing x).

Definition accepting_transport : BaseTransport :=
  {| placeOrder := fun request _ _ => Ok (executed_as "A1" request);
     prepareLots := fun lots _ _ => Ok lots |}.

Definition rejecting_transport : BaseTransport :=
  {| placeOrder := fun _ _ _ => Throw (Error "rejected by the venue");
     prepareLots := fun lots _ _ => Ok lots |}.

Definition sample_options : gmap string JsValue :=
  {[ "broker" := VStr "binance"; "ticker" := VStr "BTCUSDT"; "currency" := VStr "USDT";
     "interval" := VStr "1min"; "amount" := VNum 100 ]}.

Definition sample_instrument : Instrument.t :=
  Instrument.mk "BTCUSDT" VUndefined 1 0.01 "BTCUSDT".

(** A reading of [new Date().toISOString()]. *)
Definition stamp : string := "2021-03-15T09:30:00.000Z".

(** A tick that carries one price. *)
Definition price_tick (t price volume : float) : Candle.t :=
  Candle.mk price price price price volume t.

(** The engine right after construction. *)
Definition fresh_engine (tr : BaseTransport) : Debut :=
  mkDebut (sample_options ∪ defaultOptions) None [] tr VUndefined [] "Strategy" false.

(** The engine after start-up and a first tick. *)
Definition running_engine (tr : BaseTransport) : Debut :=
  mkDebut (sample_options ∪ defaultOptions) (Some sample_instrument) [] tr VUndefined
    [price_tick 0 10 1] "Strategy" false.

Definition fresh_world (tr : BaseTransport) : World := mkWorld (fresh_engine tr) [] [].

Definition running_world (tr : BaseTransport) : World := mkWorld (running_engine tr) [] [].

(** A plugin that implements every hook and only watches. *)
Definition watcher : PluginInterface :=
  {| pname := "watcher"; hooks := fun _ => Some (fun _ _ => HReturn false) |}.

(** A plugin whose only hook is [hook], which does [out]. *)
Definition only (hook : PluginHook.t) (out : HookOutcome) : PluginInterface :=
  {| pname := "only";
     hooks := fun hk => if decide (hk = hook) then Some (fun _ _ => out) else None |}.

Lemma watcher_never_vetoes hook : never_vetoes [watcher] hook.
Proof.
  intros p f args w Hin Hf. apply list_elem_of_singleton in Hin. subst p.
  simpl in Hf. by injection Hf as <-.
Qed.

Lemma watcher_always_returns hook : always_returns [watcher] hook.
Proof.
  intros p f args w Hin Hf. apply list_elem_of_singleton in Hin. subst p.
  simpl in Hf. injection Hf as <-. by exists false.
Qed.

Lemma fresh_world_ok tr : window_ok (fresh_world tr).
Proof. split; simpl; [lia|done]. Qed.

(** ** The candle window is bounded *)

(** C8. For every sequence of ticks fed to the engine (by the subscription
    or by the replay of [learn]) the candle window never holds more than 10
    candles.  Whatever the plugins do, a tick leaves the window alone,
    overwrites index 0, or inserts at the front and keeps the ten most
    recent candles; both the first and the replaced [updateCandles] do the
    latter, so that an insertion into a full window evicts exactly the
    candle at the highest index, and the window stays within its bound
    across the replacement. *)
Theorem candle_window_bounded plugins ticks w :
  window_ok w ->
  let w' := feed plugins ticks w in
  length (candles (self w')) <= 10
  /\ window_ok w'
  /\ (forall ins, length (candles (self (snd (learn plugins ins ticks w)))) <= 10)
  /\ forall tick,
       let after := candles (self (snd (handler plugins tick w'))) in
       (after = candles (self w')
        \/ after = assign0 tick (candles (self w'))
        \/ after = take 10 (tick :: candles (self w')))
       /\ candles (self (updateCandles tick w')) = take 10 (tick :: candles (self w'))
       /\ window_ok (updateCandles tick w')
       /\ (length (candles (self w')) = 10 ->
           candles (self (updateCandles tick w')) = tick :: take 9 (candles (self w'))
           /\ updateCandles_replaced (self (updateCandles tick w')) = true).
Proof.
  intros Hok w'.
  assert (Hok' : window_ok w') by (by apply feed_ok).
  split; [apply Hok'|]. split; [done|].
  split; [intros ins; apply (learn_ok plugins ins ticks w Hok)|].
  intros tick after. split; [|split; [|split]].
  - subst after.
    destruct (handler plugins tick w') as [r w2] eqn:Hrun. simpl.
    destruct (handler_self plugins tick w' r w2 Hrun) as [-> | [-> | ->]];
      [by left|by right; left|right; right].
    by apply updateCandles_take.
  - by apply updateCandles_take.
  - by apply updateCandles_ok.
  - intros Hfull. split.
    + by rewrite updateCandles_take.
    + unfold updateCandles.
      destruct (updateCandles_replaced (self w')) eqn:Hr; simpl; [done|].
      by rewrite bool_decide_eq_true_2.
Qed.

Lemma candle_window_bounded_witness :
  window_ok (fresh_world accepting_transport)
  /\ length (candles (self (feed [watcher]
                             [price_tick 0 10 1; price_tick 0 11 1; price_tick 60 12 1]
                             (fresh_world accepting_transport)))) <= 10.
Proof.
  split; [apply fresh_world_ok|].
  exact (proj1 (candle_window_bounded [watcher]
                  [price_tick 0 10 1; price_tick 0 11 1; price_tick 60 12 1]
                  (fresh_world accepting_transport)
                  (fresh_world_ok accepting_transport))).
Defined.

(** ** The three-tick scenario *)








(** ** Construction *)

Lemma strict_equals_string a s : strict_equals a (VStr s) = true <-> a = VStr s.
Proof.
  destruct a; simpl; try (split; [discriminate|discriminate]).
  rewrite bool_decide_eq_true. split; [by intros ->|by intros [= ->]].
Qed.

Lemma merged_lookup (options : gmap string JsValue) key :
  (options ∪ defaultOptions) !! key
  = match options !! key with
    | Some value => Some value
    | None => defaultOptions !! key
    end.
Proof.
  rewrite lookup_union. destruct (options !! key), (defaultOptions !! key); done.
Qed.

Lemma defaultOptions_lookup key :
  defaultOptions !! key
  = if decide (key = "instrumentType") then Some (VStr "SPOT")
    else if decide (key = "fee") then Some (VNum 0.0003)
    else if decide (key = "lotsMultiplier") then Some (VNum 1)
    else if decide (key = "equityLevel") then Some (VNum 1)
    else None.
Proof.
  unfold defaultOptions.
  repeat (rewrite lookup_insert; case_decide; [subst; by repeat case_decide|]).
  rewrite lookup_singleton. repeat case_decide; congruence.
Qed.

Lemma validateConfig_throws this :
  (exists e, validateConfig this = Throw e)
  <-> get (opts this) "instrumentType" = VStr "FUTURES"
      /\ get (opts this) "broker" <> VStr "binance".
Proof.
  unfold validateConfig.
  destruct (strict_equals (get (opts this) "broker") (VStr "binance")) eqn:Hb;
    destruct (strict_equals (get (opts this) "instrumentType") (VStr "FUTURES")) eqn:Hi;
    simpl.
  - apply strict_equals_string in Hb. split; [by intros [e [=]]|]. by intros [_ []].
  - apply strict_equals_string in Hb. split; [by intros [e [=]]|]. by intros [_ []].
  - apply strict_equals_string in Hi. split; [|by eexists].
    intros _. split; [done|]. intros Hb'. apply strict_equals_string in Hb'. congruence.
  - split; [by intros [e [=]]|]. intros [Hi' _]. apply strict_equals_string in Hi'. congruence.
Qed.

(** C10. For every options object, [this.opts] is the input merged over the
    defaults instrumentType 'SPOT', fee 0.0003, lotsMultiplier 1 and
    equityLevel 1: a key of the input keeps the caller's value, any other key
    has the default (if there is one).  Construction throws, and then a Core
    error, exactly when instrumentType is 'FUTURES' while broker is not
    'binance'; otherwise it returns the engine with the merged options, an
    empty order book and an empty candle window. *)
Theorem constructor_merges_and_validates class_name tr (options : gmap string JsValue) :
  let merged := options ∪ defaultOptions in
  (forall key,
     merged !! key = match options !! key with
                     | Some value => Some value
                     | None => defaultOptions !! key
                     end)
  /\ (forall key,
        defaultOptions !! key
        = if decide (key = "instrumentType") then Some (VStr "SPOT")
          else if decide (key = "fee") then Some (VNum 0.0003)
          else if decide (key = "lotsMultiplier") then Some (VNum 1)
          else if decide (key = "equityLevel") then Some (VNum 1)
          else None)
  /\ ((exists e, constructor class_name tr options = Throw e)
      <-> get options "instrumentType" = VStr "FUTURES"
          /\ get options "broker" <> VStr "binance")
  /\ match constructor class_name tr options with
     | Throw e => exists msg, e = DebutError Core msg
     | Ok this =>
         opts this = merged /\ transport this = tr /\ name this = class_name
         /\ orders this = [] /\ candles this = [] /\ instrument this = None
     end.
Proof.
  intros merged. split; [apply merged_lookup|]. split; [apply defaultOptions_lookup|].
  set (this := mkDebut merged None [] tr VUndefined [] class_name false).
  assert (Hi : get merged "instrumentType" = VStr "FUTURES"
               <-> get options "instrumentType" = VStr "FUTURES").
  { unfold get, merged. rewrite merged_lookup.
    destruct (options !! "instrumentType"); [done|]. by rewrite defaultOptions_lookup. }
  assert (Hb : get merged "broker" = get options "broker").
  { unfold get, merged. rewrite merged_lookup.
    destruct (options !! "broker"); [done|]. by rewrite defaultOptions_lookup. }
  pose proof (validateConfig_throws this) as Hv. simpl in Hv. rewrite Hi, Hb in Hv.
  unfold constructor. fold merged. fold this.
  split.
  - rewrite <- Hv. destruct (validateConfig this) as [[]|e]; split.
    + by intros [e [=]].
    + by intros [e [=]].
    + by eexists.
    + by eexists.
  - unfold validateConfig. destruct (_ && _); [by eexists|done].
Qed.

(** ** Arrays *)

Lemma findIndex_none {A} (f : A -> bool) arr :
  (forall x, x ∈ arr -> f x = false) -> findIndex f arr = None.
Proof.
  induction arr as [|y rest IH]; intros Hall; simpl; [done|].
  rewrite (Hall y) by (by left). rewrite IH; [done|].
  intros x Hx. apply Hall. by right.
Qed.

Lemma findIndex_last {A} (f : A -> bool) arr x :
  (forall y, y ∈ arr -> f y = false) -> f x = true ->
  findIndex f (arr ++ [x]) = Some (length arr).
Proof.
  induction arr as [|y rest IH]; intros Hall Hx; simpl; [by rewrite Hx|].
  rewrite (Hall y) by (by left). rewrite IH; [done| |done].
  intros z Hz. apply Hall. by right.
Qed.

Lemma findIndex_ext {A} (f g : A -> bool) arr :
  (forall x, x ∈ arr -> f x = g x) -> findIndex f arr = findIndex g arr.
Proof.
  induction arr as [|y rest IH]; intros Hall; simpl; [done|].
  rewrite (Hall y) by (by left). rewrite IH; [done|].
  intros x Hx. apply Hall. by right.
Qed.

Lemma indexOf_absent x arr : x ∉ arr -> indexOf x arr = None.
Proof.
  intros Hx. apply findIndex_none. intros y Hy.
  apply bool_decide_eq_false. by intros ->.
Qed.

Lemma indexOf_first x pre post :
  x ∉ pre -> indexOf x (pre ++ x :: post) = Some (length pre).
Proof.
  induction pre as [|y rest IH]; intros Hx; simpl.
  - unfold indexOf. simpl. by rewrite bool_decide_eq_true_2.
  - apply not_elem_of_cons in Hx as [Hne Hx]. unfold indexOf in *. simpl.
    rewrite bool_decide_eq_false_2 by done. by rewrite IH.
Qed.

Lemma indexOf_present x arr : x ∈ arr -> is_Some (indexOf x arr).
Proof.
  intros Hx. apply list_elem_of_split_l in Hx as (pre & post & -> & Hpre).
  rewrite indexOf_first by done. by eexists.
Qed.

Lemma take_out_first x pre post :
  x ∉ pre -> take_out x (pre ++ x :: post) = pre ++ post.
Proof.
  intros Hx. unfold take_out. rewrite indexOf_first by done. apply delete_middle.
Qed.

Lemma take_out_absent x arr : x ∉ arr -> take_out x arr = arr.
Proof. intros Hx. unfold take_out. by rewrite indexOf_absent. Qed.

Lemma length_take_out x arr :
  length (take_out x arr) = if bool_decide (x ∈ arr) then length arr - 1 else length arr.
Proof.
  case_bool_decide as Hx.
  - apply list_elem_of_split_l in Hx as (pre & post & -> & Hpre).
    rewrite take_out_first by done. rewrite !length_app. simpl. lia.
  - by rewrite take_out_absent.
Qed.

Lemma take_out_subset x y arr : y ∈ take_out x arr -> y ∈ arr.
Proof.
  destruct (decide (x ∈ arr)) as [Hx|Hx].
  - apply list_elem_of_split_l in Hx as (pre & post & -> & Hpre).
    rewrite take_out_first by done. rewrite !elem_of_app, elem_of_cons. tauto.
  - by rewrite take_out_absent.
Qed.

Lemma restore_absent x arr : x ∉ arr -> restore x arr = x :: arr.
Proof. intros Hx. unfold restore. by rewrite indexOf_absent. Qed.

Lemma restore_present x arr : x ∈ arr -> restore x arr = arr.
Proof. intros Hx. unfold restore. by destruct (indexOf_present x arr Hx) as [i ->]. Qed.

(** ** Reading invocations out of a pipeline run *)

Lemma passed_veto hook args book objs i hook' args' book' objs' :
  ~ passed hook args book objs (EvInvoke i hook' args' book' objs' (HReturn true)).
Proof. by intros [j [=]]. Qed.

Lemma passed_throw hook args book objs i hook' args' book' objs' e :
  ~ passed hook args book objs (EvInvoke i hook' args' book' objs' (HThrow e)).
Proof. by intros [j [=]]. Qed.

Lemma returned_throw hook args book objs i hook' args' book' objs' e :
  ~ returned hook args book objs (EvInvoke i hook' args' book' objs' (HThrow e)).
Proof. by intros (j & b & [=]). Qed.

Lemma passed_hook hook args book objs i hook' args' book' objs' out :
  passed hook args book objs (EvInvoke i hook' args' book' objs' out) ->
  hook' = hook /\ args' = args /\ book' = book /\ objs' = objs.
Proof. by intros [j [= -> -> -> -> ->]]. Qed.

Lemma returned_hook hook args book objs i hook' args' book' objs' out :
  returned hook args book objs (EvInvoke i hook' args' book' objs' out) ->
  hook' = hook /\ args' = args /\ book' = book /\ objs' = objs.
Proof. by intros (j & b & [= -> -> -> -> ->]). Qed.

Lemma skip_run_invocations hook args book objs r evs :
  skip_run hook args book objs r evs -> Forall is_invocation evs.
Proof.
  intros Hrun. inversion Hrun; subst; rewrite ?Forall_app; repeat split;
    try (eapply Forall_impl; [eassumption|intros ?; apply passed_is_invocation]);
    by repeat constructor.
Qed.

Lemma reduce_run_invocations hook args book objs r evs :
  reduce_run hook args book objs r evs -> Forall is_invocation evs.
Proof.
  intros Hrun. inversion Hrun; subst; rewrite ?Forall_app; repeat split;
    try (eapply Forall_impl; [eassumption|intros ?; apply returned_is_invocation]);
    by repeat constructor.
Qed.

Lemma skip_run_hook hook args book objs r evs i hook' args' book' objs' out :
  skip_run hook args book objs r evs ->
  EvInvoke i hook' args' book' objs' out ∈ evs ->
  hook' = hook /\ args' = args /\ book' = book /\ objs' = objs.
Proof.
  intros Hrun Hin. inversion Hrun; subst;
    rewrite ?elem_of_app, ?list_elem_of_singleton in Hin;
    repeat match goal with
      | H : _ \/ _ |- _ => destruct H
      | H : EvInvoke _ _ _ _ _ _ = EvInvoke _ _ _ _ _ _ |- _ => by injection H as -> -> -> -> -> ->
      | H : Forall _ ?l, H' : _ ∈ ?l |- _ =>
          rewrite Forall_forall in H; apply H in H'; by apply passed_hook in H'
      end.
Qed.

Lemma reduce_run_hook hook args book objs r evs i hook' args' book' objs' out :
  reduce_run hook args book objs r evs ->
  EvInvoke i hook' args' book' objs' out ∈ evs ->
  hook' = hook /\ args' = args /\ book' = book /\ objs' = objs.
Proof.
  intros Hrun Hin. inversion Hrun; subst;
    rewrite ?elem_of_app, ?list_elem_of_singleton in Hin;
    repeat match goal with
      | H : _ \/ _ |- _ => destruct H
      | H : EvInvoke _ _ _ _ _ _ = EvInvoke _ _ _ _ _ _ |- _ => by injection H as -> -> -> -> -> ->
      | H : Forall _ ?l, H' : _ ∈ ?l |- _ =>
          rewrite Forall_forall in H; apply H in H'; by apply returned_hook in H'
      end.
Qed.

(** A veto seen among the invocations of a skip-reduce is its last
    invocation, and the skip-reduce reported skip. *)
Lemma skip_run_veto_last hook args book objs r evs i hook' args' book' objs' :
  skip_run hook args book objs r evs ->
  EvInvoke i hook' args' book' objs' (HReturn true) ∈ evs ->
  r = Ok true
  /\ exists pre, evs = pre ++ [EvInvoke i hook' args' book' objs' (HReturn true)]
                 /\ Forall (passed hook args book objs) pre.
Proof.
  intros Hrun Hin. inversion Hrun as [evs' Hall|pre j Hall|pre j e Hall]; subst.
  - rewrite Forall_forall in Hall. apply Hall in Hin. by apply passed_veto in Hin.
  - apply elem_of_app in Hin as [Hin|Hin].
    + rewrite Forall_forall in Hall. apply Hall in Hin. by apply passed_veto in Hin.
    + apply list_elem_of_singleton in Hin. injection Hin as -> -> -> -> ->. eauto.
  - apply elem_of_app in Hin as [Hin|Hin].
    + rewrite Forall_forall in Hall. apply Hall in Hin. by apply passed_veto in Hin.
    + by apply list_elem_of_singleton in Hin.
Qed.

(** A throw seen among the invocations of a pipeline call is its last
    invocation, and the call failed with what was thrown. *)
Lemma skip_run_throw_last hook args book objs r evs i hook' args' book' objs' e :
  skip_run hook args book objs r evs ->
  EvInvoke i hook' args' book' objs' (HThrow e) ∈ evs ->
  r = Throw e
  /\ exists pre, evs = pre ++ [EvInvoke i hook' args' book' objs' (HThrow e)]
                 /\ Forall (passed hook args book objs) pre.
Proof.
  intros Hrun Hin. inversion Hrun as [evs' Hall|pre j Hall|pre j e' Hall]; subst.
  - rewrite Forall_forall in Hall. apply Hall in Hin. by apply passed_throw in Hin.
  - apply elem_of_app in Hin as [Hin|Hin].
    + rewrite Forall_forall in Hall. apply Hall in Hin. by apply passed_throw in Hin.
    + by apply list_elem_of_singleton in Hin.
  - apply elem_of_app in Hin as [Hin|Hin].
    + rewrite Forall_forall in Hall. apply Hall in Hin. by apply passed_throw in Hin.
    + apply list_elem_of_singleton in Hin. injection Hin as -> -> -> -> -> ->. eauto.
Qed.

Lemma reduce_run_throw_last hook args book objs r evs i hook' args' book' objs' e :
  reduce_run hook args book objs r evs ->
  EvInvoke i hook' args' book' objs' (HThrow e) ∈ evs ->
  r = Throw e
  /\ exists pre, evs = pre ++ [EvInvoke i hook' args' book' objs' (HThrow e)]
                 /\ Forall (returned hook args book objs) pre.
Proof.
  intros Hrun Hin. inversion Hrun as [evs' Hall|pre j e' Hall]; subst.
  - rewrite Forall_forall in Hall. apply Hall in Hin. by apply returned_throw in Hin.
  - apply elem_of_app in Hin as [Hin|Hin].
    + rewrite Forall_forall in Hall. apply Hall in Hin. by apply returned_throw in Hin.
    + apply list_elem_of_singleton in Hin. injection Hin as -> -> -> -> -> ->. eauto.
Qed.

Lemma invocation_in_run ev evs : Forall is_invocation evs -> ev ∈ evs -> is_invocation ev.
Proof. rewrite Forall_forall. auto. Qed.

(** Equal concatenations, up to bracketing. *)
Ltac same_events :=
  simpl; rewrite <- ?app_assoc; simpl; rewrite <- ?app_assoc; simpl;
  rewrite <- ?app_assoc; reflexivity.

(** Find an event in a trace that computes. *)
Ltac in_trace :=
  vm_compute; repeat first [apply list_elem_of_here | apply list_elem_of_further].

(** Find an event behind the abstract prefixes of a run. *)
Ltac in_events :=
  first [ apply list_elem_of_here
        | apply list_elem_of_further; in_events
        | apply elem_of_app; right; in_events
        | apply elem_of_app; left; in_events ].

(** Split a membership in a concatenation of events into its cases. *)
Ltac split_elem :=
  repeat match goal with
    | H : _ ∈ _ :: _ |- _ => apply elem_of_cons in H; destruct H
    | H : _ ∈ _ ++ _ |- _ => apply elem_of_app in H; destruct H
    | H : _ ∈ [] |- _ => by apply elem_of_nil in H
    end.

(** ** Every run of the order operations *)

(** [createOrder] fails before its [try] block: a destructuring of
    [undefined], or [prepareLots] throws.  Nothing has happened then. *)
Definition fails_before_try (w : World) (e : JsError) : Prop :=
  ((currentCandle w = None \/ instrument (self w) = None) /\ exists msg, e = TypeError msg)
  \/ exists cc ins,
       currentCandle w = Some cc
       /\ instrument (self w) = Some ins
       /\ prepareLots (transport (self w)) (raw_lots (self w) cc ins) (Instrument.id ins)
            (trace w) = Throw e.

Lemma createOrder_cases plugins operation random iso w r w' :
  createOrder plugins operation random iso w = (r, w') ->
  (w' = w /\ exists e, r = Throw e /\ fails_before_try w e)
  \/ exists cc ins lots os objs evs,
       currentCandle w = Some cc
       /\ instrument (self w) = Some ins
       /\ prepareLots (transport (self w)) (raw_lots (self w) cc ins) (Instrument.id ins)
            (trace w) = Ok lots
       /\ w' = evolved w os objs evs
       /\ createOrder_run w (new_pendingOrder (self w) cc ins operation random lots) iso
            r os objs evs.
Proof.
  intros Hrun. unfold fails_before_try.
  destruct (currentCandle w) as [cc|] eqn:Hcc.
  - destruct (instrument (self w)) as [ins|] eqn:Hins.
    + destruct (prepareLots (transport (self w)) (raw_lots (self w) cc ins)
                  (Instrument.id ins) (trace w)) as [lots|e] eqn:Hlots.
      * right.
        destruct (createOrder_paths plugins operation random iso w cc ins lots Hcc Hins Hlots)
          as (r1 & os & objs & evs & Heq & Hpath).
        rewrite Heq in Hrun. injection Hrun as <- <-.
        by exists cc, ins, lots, os, objs, evs.
      * left. unfold createOrder in Hrun. rewrite Hcc, Hins, Hlots in Hrun.
        injection Hrun as <- <-. split; [done|]. exists e. split; [done|].
        right. by exists cc, ins.
    + left. unfold createOrder in Hrun. rewrite Hcc, Hins in Hrun.
      injection Hrun as <- <-. split; [done|]. eexists. split; [done|].
      left. split; [by right|by eexists].
  - left. unfold createOrder in Hrun. rewrite Hcc in Hrun.
    injection Hrun as <- <-. split; [done|]. eexists. split; [done|].
    left. split; [by left|by eexists].
Qed.

Lemma closeOrder_cases plugins closing now iso w r w' :
  closeOrder plugins closing now iso w = (r, w') ->
  (w' = w /\ exists msg, r = Throw (TypeError msg))
  \/ (w' = w /\ r = Ok None
      /\ exists target, heap w !! closing = Some target
         /\ (Order.is_processing target = true \/ Order.has_orderId target = false))
  \/ exists target cc ins os evs,
       heap w !! closing = Some target
       /\ Order.is_processing target = false
       /\ Order.has_orderId target = true
       /\ currentCandle w = Some cc
       /\ instrument (self w) = Some ins
       /\ w' = evolved w os (unmarked closing (heap w)) evs
       /\ closeOrder_run w closing (closing_pendingOrder (self w) cc ins target now) iso
            r os evs.
Proof.
  intros Hrun.
  destruct (heap w !! closing) as [target|] eqn:Hobj.
  - destruct (Order.is_processing target) eqn:Hproc.
    { right; left. unfold closeOrder in Hrun. rewrite Hobj, Hproc in Hrun.
      injection Hrun as <- <-. eauto 10. }
    destruct (Order.has_orderId target) eqn:Hid.
    2: { right; left. unfold closeOrder in Hrun. rewrite Hobj, Hproc, Hid in Hrun.
         injection Hrun as <- <-. eauto 10. }
    destruct (currentCandle w) as [cc|] eqn:Hcc.
    + destruct (instrument (self w)) as [ins|] eqn:Hins.
      * right; right.
        destruct (closeOrder_paths plugins closing now iso w target cc ins Hobj Hproc Hid Hcc Hins)
          as (r1 & os & evs & Heq & Hpath).
        rewrite Heq in Hrun. injection Hrun as <- <-.
        by exists target, cc, ins, os, evs.
      * left. unfold closeOrder in Hrun. rewrite Hobj, Hproc, Hid, Hcc, Hins in Hrun.
        injection Hrun as <- <-. eauto.
    + left. unfold closeOrder in Hrun. rewrite Hobj, Hproc, Hid, Hcc in Hrun.
      injection Hrun as <- <-. eauto.
  - left. unfold closeOrder in Hrun. rewrite Hobj in Hrun.
    injection Hrun as <- <-. eauto.
Qed.

Lemma in_unknown_order_warning ev objs order os :
  ev ∈ unknown_order_warning objs order os -> ev = EvWarnUnknownOrder order.
Proof.
  unfold unknown_order_warning. case_match; intros Hin; [by apply elem_of_nil in Hin|].
  by apply list_elem_of_singleton in Hin.
Qed.

Lemma in_catch_log ev iso e :
  ev ∈ catch_log iso e -> exists msg, message e = Ok msg /\ ev = order_place_warning iso msg.
Proof.
  unfold catch_log. destruct (message e) as [msg|failure]; intros Hin.
  - apply list_elem_of_singleton in Hin. by exists msg.
  - by apply elem_of_nil in Hin.
Qed.

Lemma submissions_catch_log iso e : submissions (catch_log iso e) = [].
Proof. unfold catch_log. by destruct (message e). Qed.

(** The catch block of [createOrder] never makes it return an order. *)
Ltac not_caught :=
  match goal with
  | H : catch_result ?e = Ok (Some _) |- _ =>
      unfold catch_result in H; destruct (message e); discriminate
  end.

(** A membership in the console output of the catch block is no other
    kind of event. *)
Ltac not_in_catch_log :=
  match goal with
  | Hin : _ ∈ catch_log _ _ |- _ =>
      apply in_catch_log in Hin as (? & _ & ?); discriminate
  end.

Lemma heap_grows (objs more : list Order.t) l x :
  objs !! l = Some x -> (objs ++ more) !! l = Some x.
Proof. intros H. rewrite lookup_app_l; [done|]. by eapply lookup_lt_Some. Qed.

(** ** A vetoed open *)

(** C7. If a plugin's onBeforeOpen hook returns a truthy value during
    [createOrder], then [createOrder] returns undefined without raising, the
    order book is what it was, nothing was submitted to the transport, and
    the vetoing invocation is the last thing that happened: the pipeline call,
    the invocations that let the order pass, the veto. *)
Theorem vetoed_open_is_a_noop plugins operation random iso w r w' i args book objs :
  createOrder plugins operation random iso w = (r, w') ->
  EvInvoke i PluginHook.onBeforeOpen args book objs (HReturn true) ∈ emitted w w' ->
  r = Ok None
  /\ orders (self w') = orders (self w)
  /\ (forall l x, heap w !! l = Some x -> heap w' !! l = Some x)
  /\ submissions (emitted w w') = []
  /\ exists pre,
       emitted w w'
       = EvHook PluginHook.onBeforeOpen args :: pre
         ++ [EvInvoke i PluginHook.onBeforeOpen args book objs (HReturn true)]
       /\ Forall (passed PluginHook.onBeforeOpen args book objs) pre.
Proof.
  intros Hrun Hveto.
  destruct (createOrder_cases plugins operation random iso w r w' Hrun)
    as [[-> _]|(cc & ins & lots & os & objs' & evs & Hcc & Hins & Hlots & -> & Hpath)].
  { rewrite emitted_refl in Hveto. by apply elem_of_nil in Hveto. }
  rewrite evolved_emitted in *. rewrite evolved_self_orders, evolved_heap.
  inversion Hpath as [evs1 Hgate| evs1 e Hgate| evs1 e Hgate Hplace
                      | evs1 x evs2 e Hgate Hplace Hopen
                      | evs1 x evs2 Hgate Hplace Hopen]; subst; split_elem;
    try discriminate; try not_in_catch_log;
    try match goal with
      | Hin : _ ∈ evs1 |- _ =>
          destruct (skip_run_veto_last _ _ _ _ _ _ _ _ _ _ _ Hgate Hin) as [[=] _]
      | Hin : _ ∈ evs2 |- _ =>
          destruct (reduce_run_hook _ _ _ _ _ _ _ _ _ _ _ _ Hopen Hin) as [[=] _]
      | Hin : _ ∈ unknown_order_warning _ _ _ |- _ =>
          apply in_unknown_order_warning in Hin; discriminate
      end.
  rename select (_ ∈ evs1) into Hveto.
  destruct (skip_run_veto_last _ _ _ _ _ _ _ _ _ _ _ Hgate Hveto) as [_ (pre & -> & Hpre)].
  destruct (skip_run_hook _ _ _ _ _ _ _ _ _ _ _ _ Hgate Hveto) as (_ & -> & -> & ->).
  split; [done|]. split; [done|]. split; [intros l x; apply heap_grows|].
  split; [|by exists pre].
  simpl. rewrite submissions_app. simpl.
  by rewrite (submissions_passed _ _ _ _ _ Hpre).
Qed.

Lemma vetoed_open_is_a_noop_witness :
  let plugins := [only PluginHook.onBeforeOpen (HReturn true); watcher] in
  let w := running_world accepting_transport in
  let run := createOrder plugins BUY 0.5 stamp w in
  (run = (run.1, run.2)
   /\ EvInvoke 0 PluginHook.onBeforeOpen [ARef 0] [] (heap run.2) (HReturn true)
      ∈ emitted w run.2)
  /\ run.1 = Ok None
  /\ orders (self run.2) = []
  /\ submissions (emitted w run.2) = [].
Proof.
  intros plugins w run.
  assert (Heq : run = (run.1, run.2)) by (by destruct run).
  assert (Hin : EvInvoke 0 PluginHook.onBeforeOpen [ARef 0] [] (heap run.2) (HReturn true)
                ∈ emitted w run.2) by in_trace.
  split; [exact (conj Heq Hin)|].
  destruct (vetoed_open_is_a_noop plugins BUY 0.5%float stamp w run.1 run.2 0 [ARef 0] []
              (heap run.2) Heq Hin) as (H1 & H2 & _ & H4 & _).
  exact (conj H1 (conj H2 H4)).
Defined.

(** ** A rejected open *)

(** What "freshly generated" asks of the correlation id: it is a number
    (not NaN, which [Math.random() * 1e17] never is) and no entry of the
    order book carries it. *)
Definition fresh_cid (w : World) (cid : float) : Prop :=
  PrimFloat.eqb cid cid = true
  /\ forall l, l ∈ orders (self w) ->
       exists x, heap w !! l = Some x /\ PrimFloat.eqb (Order.cid x) cid = false.

Lemma same_cid_pending objs p more l x :
  objs !! l = Some x ->
  same_cid (objs ++ p :: more) l (length objs) = PrimFloat.eqb (Order.cid x) (Order.cid p).
Proof.
  intros Hl. unfold same_cid.
  by rewrite (heap_grows _ _ _ _ Hl), list_lookup_middle.
Qed.

Lemma same_cid_self objs p more :
  same_cid (objs ++ p :: more) (length objs) (length objs)
  = PrimFloat.eqb (Order.cid p) (Order.cid p).
Proof. unfold same_cid. by rewrite list_lookup_middle. Qed.

Lemma without_cid_pending objs os p more :
  PrimFloat.eqb (Order.cid p) (Order.cid p) = true ->
  (forall l, l ∈ os ->
     exists x, objs !! l = Some x /\ PrimFloat.eqb (Order.cid x) (Order.cid p) = false) ->
  without_cid (objs ++ p :: more) (length objs) (os ++ [length objs]) = os.
Proof.
  intros Hself Hfresh. unfold without_cid. rewrite findIndex_last.
  - rewrite delete_middle. apply app_nil_r.
  - intros l Hl. destruct (Hfresh l Hl) as (x & Hx & Hne).
    by rewrite (same_cid_pending _ _ _ _ _ Hx).
  - by rewrite same_cid_self.
Qed.


(** A venue that accepts the first submission and rejects every later one. *)
Definition once_transport : BaseTransport :=
  {| placeOrder := fun request _ history =>
       match submissions history with
       | [] => Ok (executed_as "A1" request)
       | _ => Throw (Error "rejected by the venue")
       end;
     prepareLots := fun lots _ _ => Ok lots |}.

(** The running engine after one successful open: the book holds the
    executed order, object 1. *)
Definition opened_world_with (plugins : list PluginInterface) (tr : BaseTransport) : World :=
  (createOrder plugins BUY 0.25 stamp (running_world tr)).2.

Definition opened_world (tr : BaseTransport) : World := opened_world_with [watcher] tr.

(** A rejected open whose correlation id is the one of an order in the
    book: [removePendingOrder] removes the first entry with that id, the
    executed order (object 1), and the pending order of the rejected request
    (object 2, without an order id) stays in the book. *)
Lemma rejected_open_removes_another_order :
  let w := opened_world once_transport in
  let run := createOrder [watcher] SELL 0.25 stamp w in
  let request :=
    new_pendingOrder (self w) (price_tick 0 10 1) sample_instrument SELL 0.25 10 in
  orders (self w) = [1]
  /\ EvPlaceOrder request (Throw (Error "rejected by the venue")) ∈ emitted w run.2
  /\ run.1 = Ok None
  /\ orders (self run.2) = [2]
  /\ heap run.2 !! 2 = Some request
  /\ Order.orderId request = None
  /\ orders (self run.2) <> orders (self w).
Proof.
  intros w run request.
  split; [vm_compute; reflexivity|]. split; [in_trace|].
  split; [vm_compute; reflexivity|]. split; [vm_compute; reflexivity|].
  split; [vm_compute; reflexivity|]. split; [vm_compute; reflexivity|].
  assert (E1 : orders (self run.2) = [2]) by (vm_compute; reflexivity).
  assert (E2 : orders (self w) = [1]) by (vm_compute; reflexivity).
  rewrite E1, E2. discriminate.
Qed.

(** C4, as the code has it.  The transport rejects the submission of
    [createOrder], whose correlation id is fresh.  If the rejection carries
    an error value, [createOrder] returns undefined and the order book is
    exactly what it was before the call: same entries, same order, the same
    objects behind them; the failure was logged as a Core error.  If it
    carries [undefined] or [null], the catch block fails on [e.message]:
    [createOrder] rejects with that TypeError, nothing is logged and the
    pending order stays at the end of the book.  In both cases the request
    was submitted once. *)
Theorem rejected_open_leaves_book plugins operation random iso w r w' request e :
  fresh_cid w (PrimFloat.mul random 1e17) ->
  createOrder plugins operation random iso w = (r, w') ->
  EvPlaceOrder request (Throw e) ∈ emitted w w' ->
  (forall l x, heap w !! l = Some x -> heap w' !! l = Some x)
  /\ submissions (emitted w w') = [request]
  /\ match message e with
     | Ok msg =>
         r = Ok None
         /\ orders (self w') = orders (self w)
         /\ EvConsoleWarn (createCoreError (iso +:+ " Error Order Place " +:+ msg))
            ∈ emitted w w'
     | Throw failure =>
         r = Throw failure
         /\ orders (self w') = orders (self w) ++ [length (heap w)]
         /\ heap w' !! length (heap w) = Some request
         /\ forall err, EvConsoleWarn err ∉ emitted w w'
     end.
Proof.
  intros [Hnum Hfresh] Hrun Hrej.
  destruct (createOrder_cases plugins operation random iso w r w' Hrun)
    as [[-> _]|(cc & ins & lots & os & objs' & evs & Hcc & Hins & Hlots & -> & Hpath)].
  { rewrite emitted_refl in Hrej. by apply elem_of_nil in Hrej. }
  rewrite evolved_emitted in *. rewrite evolved_self_orders, evolved_heap.
  inversion Hpath as [evs1 Hgate| evs1 e1 Hgate| evs1 e1 Hgate Hplace
                      | evs1 x evs2 e1 Hgate Hplace Hopen
                      | evs1 x evs2 Hgate Hplace Hopen]; subst; split_elem;
    try discriminate; try not_in_catch_log;
    try match goal with
      | Hin : _ ∈ evs1 |- _ =>
          by apply (invocation_in_run _ _ (skip_run_invocations _ _ _ _ _ _ Hgate)) in Hin
      | Hin : _ ∈ evs2 |- _ =>
          by apply (invocation_in_run _ _ (reduce_run_invocations _ _ _ _ _ _ Hopen)) in Hin
      | Hin : _ ∈ unknown_order_warning _ _ _ |- _ =>
          apply in_unknown_order_warning in Hin; discriminate
      end.
  rename select (EvPlaceOrder _ _ = _) into Hev. injection Hev as -> ->.
  assert (Hquiet : submissions evs1 = []).
  { inversion Hgate as [evs' Hall| |]; subst. by apply (submissions_passed _ _ _ _ _ Hall). }
  split; [intros l x; apply heap_grows|]. split.
  { simpl. rewrite submissions_app. simpl. by rewrite submissions_catch_log, Hquiet. }
  unfold catch_result, catch_book, catch_log.
  destruct (message e1) as [msg|failure].
  - split; [done|]. split; [by apply without_cid_pending|].
    apply elem_of_cons. right. apply elem_of_app. right.
    do 2 (apply elem_of_cons; right). by apply list_elem_of_singleton.
  - split; [done|]. split; [done|]. split; [by apply list_lookup_middle|].
    intros err Hin. split_elem; try discriminate.
    rename select (_ ∈ evs1) into Hin.
    by apply (invocation_in_run _ _ (skip_run_invocations _ _ _ _ _ _ Hgate)) in Hin.
Qed.

Lemma rejected_open_leaves_book_witness :
  let w := opened_world once_transport in
  let run := createOrder [watcher] SELL 0.5 stamp w in
  let request :=
    new_pendingOrder (self w) (price_tick 0 10 1) sample_instrument SELL 0.5 10 in
  (fresh_cid w (PrimFloat.mul 0.5 1e17)
   /\ run = (run.1, run.2)
   /\ EvPlaceOrder request (Throw (Error "rejected by the venue")) ∈ emitted w run.2)
  /\ orders (self w) = [1]
  /\ run.1 = Ok None
  /\ orders (self run.2) = orders (self w).
Proof.
  intros w run request.
  assert (Hos : orders (self w) = [1]) by (vm_compute; reflexivity).
  assert (Hfresh : fresh_cid w (PrimFloat.mul 0.5 1e17)).
  { split; [vm_compute; reflexivity|]. intros l Hl. rewrite Hos in Hl.
    apply list_elem_of_singleton in Hl. subst l.
    exists (executed_as "A1"
              (new_pendingOrder (running_engine once_transport) (price_tick 0 10 1)
                 sample_instrument BUY 0.25 10)).
    split; vm_compute; reflexivity. }
  assert (Heq : run = (run.1, run.2)) by (by destruct run).
  assert (Hin : EvPlaceOrder request (Throw (Error "rejected by the venue"))
                ∈ emitted w run.2) by in_trace.
  split; [exact (conj Hfresh (conj Heq Hin))|].
  destruct (rejected_open_leaves_book [watcher] SELL 0.5%float stamp w run.1 run.2 request
              (Error "rejected by the venue") Hfresh Heq Hin) as (_ & _ & H1 & H2 & _).
  exact (conj Hos (conj H1 H2)).
Defined.

(** ** A plugin hook that fails during an order operation *)

Lemma elem_of_restore x arr : x ∈ restore x arr.
Proof.
  destruct (decide (x ∈ arr)) as [Hx|Hx].
  - by rewrite restore_present.
  - rewrite restore_absent by done. by left.
Qed.


Lemma marked_lookup closing objs target :
  objs !! closing = Some target ->
  marked closing objs !! closing = Some (Order.set_processing true target).
Proof. intros H. unfold marked. by rewrite list_lookup_alter_eq, H. Qed.




(** ** A successful open *)

Lemma lookup_executed (objs : list Order.t) p x :
  (objs ++ [p; x]) !! S (length objs) = Some x.
Proof.
  rewrite lookup_app_r by lia. by replace (S (length objs) - length objs) with 1 by lia.
Qed.



Lemma submissions_unknown_order_warning objs order os :
  submissions (unknown_order_warning objs order os) = [].
Proof. unfold unknown_order_warning. by case_match. Qed.




(** ** A failed close *)





(** ** The guard of [closeOrder] *)

(** The guard of [closeOrder] as a condition on the order object. *)
Definition guarded (target : Order.t) : bool :=
  Order.is_processing target || negb (Order.has_orderId target).

Lemma closeOrder_guarded plugins closing now iso w target :
  heap w !! closing = Some target ->
  Order.is_processing target = true \/ Order.has_orderId target = false ->
  closeOrder plugins closing now iso w = (Ok None, w).
Proof.
  intros Hobj Hguard. unfold closeOrder. rewrite Hobj.
  destruct Hguard as [-> | ->]; [done|]. by rewrite orb_true_r.
Qed.

Lemma closeOrder_submits_once plugins closing now iso w r w' :
  closeOrder plugins closing now iso w = (r, w') ->
  length (submissions (emitted w w')) <= 1.
Proof.
  intros Hrun.
  destruct (closeOrder_cases plugins closing now iso w r w' Hrun)
    as [[-> _]|[(-> & _)|(target & cc & ins & os & evs & Hobj & Hproc & Hid & Hcc & Hins
                           & -> & Hpath)]];
    rewrite ?emitted_refl; simpl; try lia.
  rewrite evolved_emitted.
  inversion Hpath as [evs1 Hgate| evs1 e1 Hgate| evs1 e1 Hgate Hplace
                      | evs1 x evs2 e1 Hgate Hplace Hclose
                      | evs1 x evs2 Hgate Hplace Hclose]; subst; simpl;
    rewrite ?submissions_app; simpl; rewrite ?submissions_app; simpl;
    rewrite ?(submissions_invocations _ (skip_run_invocations _ _ _ _ _ _ Hgate));
    try rewrite (submissions_invocations _ (reduce_run_invocations _ _ _ _ _ _ Hclose));
    simpl; lia.
Qed.

(** The order objects as an event shows them at a point where the engine is
    suspended: a plugin invocation or a call of the transport. *)
Definition suspended_with (objs : list Order.t) (ev : Event) : Prop :=
  match ev with
  | EvInvoke _ _ _ _ objects _ => objects = objs
  | EvAwaitPlaceOrder _ _ objects => objects = objs
  | _ => False
  end.

Lemma closeOrder_marks plugins closing now iso w r w' ev objs :
  closeOrder plugins closing now iso w = (r, w') ->
  ev ∈ emitted w w' ->
  suspended_with objs ev ->
  exists target,
    heap w !! closing = Some target
    /\ objs = marked closing (heap w)
    /\ objs !! closing = Some (Order.set_processing true target).
Proof.
  intros Hrun Hin Hsusp.
  destruct (closeOrder_cases plugins closing now iso w r w' Hrun)
    as [[-> _]|[(-> & _)|(target & cc & ins & os & evs & Hobj & Hproc & Hid & Hcc & Hins
                           & -> & Hpath)]].
  { rewrite emitted_refl in Hin. by apply elem_of_nil in Hin. }
  { rewrite emitted_refl in Hin. by apply elem_of_nil in Hin. }
  rewrite evolved_emitted in Hin. exists target. split; [done|].
  cut (objs = marked closing (heap w)).
  { intros ->. split; [done|]. by apply marked_lookup. }
  inversion Hpath as [evs1 Hgate| evs1 e1 Hgate| evs1 e1 Hgate Hplace
                      | evs1 x evs2 e1 Hgate Hplace Hclose
                      | evs1 x evs2 Hgate Hplace Hclose]; subst; split_elem;
    subst; simpl in Hsusp; try done;
    match goal with
    | Hev : ?ev ∈ evs1 |- _ =>
        pose proof (invocation_in_run _ _ (skip_run_invocations _ _ _ _ _ _ Hgate) Hev);
        destruct ev; try done; simpl in Hsusp; subst;
        by destruct (skip_run_hook _ _ _ _ _ _ _ _ _ _ _ _ Hgate Hev) as (_ & _ & _ & ->)
    | Hev : ?ev ∈ evs2 |- _ =>
        pose proof (invocation_in_run _ _ (reduce_run_invocations _ _ _ _ _ _ Hclose) Hev);
        destruct ev; try done; simpl in Hsusp; subst;
        by destruct (reduce_run_hook _ _ _ _ _ _ _ _ _ _ _ _ Hclose Hev) as (_ & _ & _ & ->)
    end.
Qed.

(** Every submission of a close attempt is made while the engine is
    suspended with the order taken out of the book and marked. *)
Lemma closeOrder_awaits plugins closing now iso w r w' request res :
  closeOrder plugins closing now iso w = (r, w') ->
  EvPlaceOrder request res ∈ emitted w w' ->
  exists pre post,
    emitted w w'
    = pre ++ EvAwaitPlaceOrder request (take_out closing (orders (self w)))
               (marked closing (heap w))
        :: EvPlaceOrder request res :: post.
Proof.
  intros Hrun Hin.
  destruct (closeOrder_cases plugins closing now iso w r w' Hrun)
    as [[-> _]|[(-> & _)|(target & cc & ins & os & evs & Hobj & Hproc & Hid & Hcc & Hins
                           & -> & Hpath)]].
  { rewrite emitted_refl in Hin. by apply elem_of_nil in Hin. }
  { rewrite emitted_refl in Hin. by apply elem_of_nil in Hin. }
  rewrite evolved_emitted in *.
  inversion Hpath as [evs1 Hgate| evs1 e1 Hgate| evs1 e1 Hgate Hplace
                      | evs1 x evs2 e1 Hgate Hplace Hclose
                      | evs1 x evs2 Hgate Hplace Hclose]; subst; split_elem;
    try discriminate;
    try match goal with
      | Hev : _ ∈ evs1 |- _ =>
          by apply (invocation_in_run _ _ (skip_run_invocations _ _ _ _ _ _ Hgate)) in Hev
      | Hev : _ ∈ evs2 |- _ =>
          by apply (invocation_in_run _ _ (reduce_run_invocations _ _ _ _ _ _ Hclose)) in Hev
      end;
    rename select (EvPlaceOrder _ _ = _) into Hev; injection Hev as -> ->;
    eexists (EvHook _ _ :: evs1), _; same_events.
Qed.

Lemma closeOrder_unmarks plugins closing now iso w r w' :
  closeOrder plugins closing now iso w = (r, w') ->
  emitted w w' <> [] ->
  heap w' = unmarked closing (heap w).
Proof.
  intros Hrun Hne.
  destruct (closeOrder_cases plugins closing now iso w r w' Hrun)
    as [[-> _]|[(-> & _)|(target & cc & ins & os & evs & Hobj & Hproc & Hid & Hcc & Hins
                           & -> & Hpath)]].
  - by rewrite emitted_refl in Hne.
  - by rewrite emitted_refl in Hne.
  - done.
Qed.

(** Two close attempts on one order, the second issued after the first has
    completed: the processing mark was cleared, the order object still has
    its order id, and both attempts are submitted to the transport. *)
Lemma sequential_closes_submit_twice :
  let w := opened_world accepting_transport in
  let first := closeOrder [watcher] 1 7 stamp w in
  let second := closeOrder [watcher] 1 8 stamp first.2 in
  length (submissions (emitted w first.2)) = 1
  /\ length (submissions (emitted first.2 second.2)) = 1
  /\ length (submissions (emitted w second.2)) = 2
  /\ orders (self first.2) = []
  /\ Order.processing <$> heap first.2 !! 1 = Some (Some false).
Proof.
  intros w first second. repeat split; vm_compute; reflexivity.
Qed.

(** C6, as the code has it.  [closeOrder] on an order that is marked
    processing, or that has no order id, returns undefined and changes
    nothing: no submission, no event, the same order book and order objects.
    One close attempt submits at most once.  The order is marked from the
    start of an attempt until it ends: at every point at which the attempt
    is suspended (each plugin invocation, and the call of the transport,
    which every submission goes through) the order object is marked, so that
    a second close attempt issued there on the same order is such a no-op
    and makes no submission; when the attempt ends the mark is cleared.
    Overlapping attempts on one order therefore make at most one
    submission. *)
Theorem close_guard plugins closing :
  (forall now iso w target,
     heap w !! closing = Some target ->
     Order.is_processing target = true \/ Order.orderId target = None ->
     closeOrder plugins closing now iso w = (Ok None, w))
  /\ (forall now iso w r w',
        closeOrder plugins closing now iso w = (r, w') ->
        length (submissions (emitted w w')) <= 1)
  /\ (forall now iso w r w' ev objs,
        closeOrder plugins closing now iso w = (r, w') ->
        ev ∈ emitted w w' ->
        suspended_with objs ev ->
        (exists target,
           heap w !! closing = Some target
           /\ objs !! closing = Some (Order.set_processing true target))
        /\ forall now2 iso2 w2,
             heap w2 = objs ->
             closeOrder plugins closing now2 iso2 w2 = (Ok None, w2)
             /\ submissions (emitted w2 (closeOrder plugins closing now2 iso2 w2).2) = [])
  /\ (forall now iso w r w' request res,
        closeOrder plugins closing now iso w = (r, w') ->
        EvPlaceOrder request res ∈ emitted w w' ->
        exists pre post,
          emitted w w'
          = pre ++ EvAwaitPlaceOrder request (take_out closing (orders (self w)))
                     (marked closing (heap w))
              :: EvPlaceOrder request res :: post)
  /\ (forall now iso w r w',
        closeOrder plugins closing now iso w = (r, w') ->
        emitted w w' <> [] ->
        heap w' = unmarked closing (heap w)).
Proof.
  split; [|split; [|split; [|split]]].
  - intros now iso w target Hobj [Hproc|Hid].
    + apply (closeOrder_guarded plugins closing now iso w target Hobj). by left.
    + apply (closeOrder_guarded plugins closing now iso w target Hobj). right.
      unfold Order.has_orderId. rewrite Hid. by apply bool_decide_eq_false_2, is_Some_None.
  - apply closeOrder_submits_once.
  - intros now iso w r w' ev objs Hrun Hin Hsusp.
    destruct (closeOrder_marks plugins closing now iso w r w' ev objs Hrun Hin Hsusp)
      as (target & Hobj & _ & Hmarked).
    split; [by exists target|].
    intros now2 iso2 w2 Hobjs. rewrite <- Hobjs in Hmarked.
    rewrite (closeOrder_guarded plugins closing now2 iso2 w2 _ Hmarked) by (by left).
    split; [done|]. simpl. by rewrite emitted_refl.
  - apply closeOrder_awaits.
  - apply closeOrder_unmarks.
Qed.

Lemma close_guard_witness :
  let w := opened_world_with [] accepting_transport in
  let attempt := closeOrder [] 1 7 stamp w in
  let w2 := with_heap (marked 1) w in
  let request :=
    closing_pendingOrder (self w) (price_tick 0 10 1) sample_instrument
      (executed_as "A1"
         (new_pendingOrder (self (running_world accepting_transport))
            (price_tick 0 10 1) sample_instrument BUY 0.25 10)) 7 in
  (attempt = (attempt.1, attempt.2)
   /\ EvAwaitPlaceOrder request [] (marked 1 (heap w)) ∈ emitted w attempt.2
   /\ suspended_with (marked 1 (heap w)) (EvAwaitPlaceOrder request [] (marked 1 (heap w)))
   /\ heap w2 = marked 1 (heap w))
  /\ closeOrder [] 1 8 stamp w2 = (Ok None, w2)
  /\ length (submissions (emitted w attempt.2)) <= 1.
Proof.
  intros w attempt w2 request.
  assert (Heq : attempt = (attempt.1, attempt.2)) by (by destruct attempt).
  assert (Hin : EvAwaitPlaceOrder request [] (marked 1 (heap w)) ∈ emitted w attempt.2)
    by in_trace.
  assert (Hsusp : suspended_with (marked 1 (heap w))
                    (EvAwaitPlaceOrder request [] (marked 1 (heap w)))) by reflexivity.
  assert (Hobjs : heap w2 = marked 1 (heap w)) by reflexivity.
  split; [exact (conj Heq (conj Hin (conj Hsusp Hobjs)))|].
  split.
  - exact (proj1 (proj2 (proj1 (proj2 (proj2 (close_guard [] 1))) 7%float stamp w
                           attempt.1 attempt.2 _ _ Heq Hin Hsusp)
                    8%float stamp w2 Hobjs)).
  - exact (proj1 (proj2 (close_guard [] 1)) 7%float stamp w attempt.1 attempt.2 Heq).
Defined.

(** ** Close-all *)



(** The orders among the entries of the list [closeAll] returns. *)
Definition closed_orders (closed : list (option Order.t)) : list Order.t := omap id closed.

Lemma closed_orders_app a b : closed_orders (a ++ b) = closed_orders a ++ closed_orders b.
Proof. apply omap_app. Qed.




(** An event of a pipeline run that the run cannot hold. *)
Ltac impossible_event :=
  match goal with
  | Hin : _ ∈ ?evs, Hrun : skip_run _ _ _ _ _ ?evs |- _ =>
      first [ by apply (invocation_in_run _ _ (skip_run_invocations _ _ _ _ _ _ Hrun)) in Hin
            | by destruct (skip_run_veto_last _ _ _ _ _ _ _ _ _ _ _ Hrun Hin) as [[=] _]
            | by destruct (skip_run_throw_last _ _ _ _ _ _ _ _ _ _ _ _ Hrun Hin) as [[=] _]
            | by destruct (skip_run_hook _ _ _ _ _ _ _ _ _ _ _ _ Hrun Hin) as [[=] _] ]
  | Hin : _ ∈ ?evs, Hrun : reduce_run _ _ _ _ _ ?evs |- _ =>
      first [ by apply (invocation_in_run _ _ (reduce_run_invocations _ _ _ _ _ _ Hrun)) in Hin
            | by destruct (reduce_run_throw_last _ _ _ _ _ _ _ _ _ _ _ _ Hrun Hin) as [[=] _]
            | by destruct (reduce_run_hook _ _ _ _ _ _ _ _ _ _ _ _ Hrun Hin) as [[=] _] ]
  end.

Section CloseAll.

Variable plugins : list PluginInterface.





End CloseAll.




(** * Further properties of the engine *)

(** ** What [createOrder] can do at all *)

(** The values on which [e.message] fails. *)
Definition nullish (e : JsError) : bool :=
  match e with
  | ThrownUndefined | ThrownNull => true
  | _ => false
  end.

(** A plugin hook threw [failure], or the transport rejected with it. *)
Definition thrown (failure : JsError) (evs : list Event) : Prop :=
  (exists i hook args book objs, EvInvoke i hook args book objs (HThrow failure) ∈ evs)
  \/ exists request, EvPlaceOrder request (Throw failure) ∈ evs.

Lemma nullish_message e : nullish e = true <-> exists failure, message e = Throw failure.
Proof. destruct e; simpl; split; try done; try (by intros [? [=]]); by eexists. Qed.

Lemma catch_result_throw failure e :
  catch_result failure = Throw e <-> message failure = Throw e.
Proof. unfold catch_result. destruct (message failure); split; congruence. Qed.

(** A run of [createOrder] holds at most one failure, and the catch block
    decides the result from it. *)
Lemma createOrder_run_thrown w p iso r os objs evs :
  createOrder_run w p iso r os objs evs ->
  (forall failure, thrown failure evs -> r = catch_result failure)
  /\ (forall e, r = Throw e -> exists failure, thrown failure evs)
  /\ (forall e, r = Throw e -> forall err, EvConsoleWarn err ∉ evs).
Proof.
  intros Hpath.
  inversion Hpath as [evs1 Hgate| evs1 e1 Hgate| evs1 e1 Hgate Hplace
                      | evs1 x evs2 e1 Hgate Hplace Hopen
                      | evs1 x evs2 Hgate Hplace Hopen]; subst.
  - split; [|split; [done|done]].
    intros failure [(i & hook & args & book & objs' & Hin)|[request Hin]];
      split_elem; try discriminate; impossible_event.
  - split; [|split].
    + intros failure [(i & hook & args & book & objs' & Hin)|[request Hin]];
        split_elem; try discriminate; try not_in_catch_log; try impossible_event.
      rename select (_ ∈ evs1) into Hev.
      by destruct (skip_run_throw_last _ _ _ _ _ _ _ _ _ _ _ _ Hgate Hev) as [[= ->] _].
    + intros _ _. exists e1. left.
      inversion Hgate as [| |pre i e0 Hall]; subst.
      exists i, PluginHook.onBeforeOpen, [ARef (length (heap w))], (orders (self w)),
        (heap w ++ [p]).
      in_events.
    + intros e He err Hin. apply catch_result_throw in He.
      unfold catch_log in Hin. rewrite He in Hin.
      split_elem; try discriminate; impossible_event.
  - split; [|split].
    + intros failure [(i & hook & args & book & objs' & Hin)|[request Hin]];
        split_elem; try discriminate; try not_in_catch_log; try impossible_event.
      rename select (EvPlaceOrder _ _ = _) into Hev. by injection Hev as -> ->.
    + intros _ _. exists e1. right. exists p. in_events.
    + intros e He err Hin. apply catch_result_throw in He.
      unfold catch_log in Hin. rewrite He in Hin.
      split_elem; try discriminate; impossible_event.
  - split; [|split].
    + intros failure [(i & hook & args & book & objs' & Hin)|[request Hin]];
        split_elem; try discriminate; try not_in_catch_log; try impossible_event.
      rename select (_ ∈ evs2) into Hev.
      by destruct (reduce_run_throw_last _ _ _ _ _ _ _ _ _ _ _ _ Hopen Hev) as [[= ->] _].
    + intros _ _. exists e1. left.
      inversion Hopen as [|pre i e0 Hall]; subst.
      exists i, PluginHook.onOpen, [ARef (S (length (heap w)))],
        (orders (self w) ++ [length (heap w)]), (heap w ++ [p; x]).
      in_events.
    + intros e He err Hin. apply catch_result_throw in He.
      unfold catch_log in Hin. rewrite He in Hin. rewrite app_nil_r in Hin.
      split_elem; try discriminate; impossible_event.
  - split; [|split; [done|done]].
    intros failure [(i & hook & args & book & objs' & Hin)|[request Hin]];
      split_elem; try discriminate; try impossible_event.
    all: rename select (_ ∈ unknown_order_warning _ _ _) into Hev;
      apply in_unknown_order_warning in Hev; discriminate.
Qed.

(** X1. [createOrder] rejects in these cases only.  Before anything
    happened: when the engine has no current candle or no instrument (a
    TypeError), and when [prepareLots] throws (with what it threw).  From
    its catch block: when a plugin hook or the transport failed with
    [undefined] or [null], on which [e.message] fails (a TypeError; nothing
    is logged).  Every other failure of a hook or of the transport is
    caught, and [createOrder] returns undefined.  It submits at most one
    request, and an order it returns is the venue's answer to that
    request. *)
Theorem createOrder_rejections plugins operation random iso w :
  let run := createOrder plugins operation random iso w in
  ((exists e, run.1 = Throw e)
   <-> (exists e, fails_before_try w e)
       \/ exists failure, nullish failure = true /\ thrown failure (emitted w run.2))
  /\ (forall e, fails_before_try w e -> run.2 = w /\ exists e', run.1 = Throw e')
  /\ (forall e,
        run.1 = Throw e ->
        (run.2 = w /\ fails_before_try w e)
        \/ ((exists failure, thrown failure (emitted w run.2) /\ message failure = Throw e)
            /\ forall err, EvConsoleWarn err ∉ emitted w run.2))
  /\ (forall failure,
        thrown failure (emitted w run.2) -> nullish failure = false -> run.1 = Ok None)
  /\ length (submissions (emitted w run.2)) <= 1
  /\ (forall order,
        run.1 = Ok (Some order) ->
        exists request x,
          heap run.2 !! order = Some x
          /\ submissions (emitted w run.2) = [request]
          /\ EvPlaceOrder request (Ok x) ∈ emitted w run.2).
Proof.
  intros run. subst run.
  destruct (createOrder plugins operation random iso w) as [r w'] eqn:Hrun. simpl.
  destruct (createOrder_cases plugins operation random iso w r w' Hrun)
    as [(-> & e0 & -> & Hearly)
       |(cc & ins & lots & os & objs & evs & Hcc & Hins & Hlots & -> & Hpath)].
  - rewrite emitted_refl. simpl.
    split; [split; [intros _; left; by exists e0|by eauto]|].
    split; [by eauto|]. split; [intros e [= <-]; by left|].
    split; [|split; [lia|done]].
    intros failure [(i & hook & args & book & objs' & Hin)|[request Hin]];
      by apply elem_of_nil in Hin.
  - rewrite evolved_emitted, evolved_heap.
    destruct (createOrder_run_thrown _ _ _ _ _ _ _ Hpath) as (Hcatch & Hthrown & Hquiet).
    assert (Hlate : forall e, ~ fails_before_try w e).
    { intros e [[[Hn|Hn] _]|(cc' & ins' & Hcc' & Hins' & Hlots')]; congruence. }
    split; [split|].
    + intros [e ->]. right. destruct (Hthrown e eq_refl) as [failure Hf].
      exists failure. split; [|done]. apply nullish_message. exists e.
      apply catch_result_throw. by rewrite <- (Hcatch failure Hf).
    + intros [[e He]|(failure & Hnull & Hf)]; [by apply Hlate in He|].
      apply nullish_message in Hnull as [e He]. exists e.
      rewrite (Hcatch failure Hf). by apply catch_result_throw.
    + split; [intros e He; by apply Hlate in He|].
      split; [|split; [|split]].
      * intros e ->. right. split; [|by apply (Hquiet e)].
        destruct (Hthrown e eq_refl) as [failure Hf].
        exists failure. split; [done|]. apply catch_result_throw.
        by rewrite <- (Hcatch failure Hf).
      * intros failure Hf Hnull. rewrite (Hcatch failure Hf). unfold catch_result.
        destruct (message failure) as [msg|e] eqn:Hm; [done|].
        assert (nullish failure = true) by (apply nullish_message; by exists e).
        congruence.
      * inversion Hpath as [evs1 Hgate| evs1 e1 Hgate| evs1 e1 Hgate Hplace
                            | evs1 x evs2 e1 Hgate Hplace Hopen
                            | evs1 x evs2 Hgate Hplace Hopen]; subst; simpl;
          rewrite ?submissions_app; simpl; rewrite ?submissions_app; simpl;
          rewrite ?submissions_unknown_order_warning, ?submissions_catch_log;
          rewrite ?(submissions_invocations _ (skip_run_invocations _ _ _ _ _ _ Hgate));
          try rewrite (submissions_invocations _ (reduce_run_invocations _ _ _ _ _ _ Hopen));
          simpl; lia.
      * intros order ->.
        inversion Hpath as [| | | |evs1 x evs2 Hgate Hplace Hopen]; subst;
          try not_caught.
        exists (new_pendingOrder (self w) cc ins operation random lots), x.
        split; [apply lookup_executed|]. split.
        -- simpl. rewrite submissions_app. simpl. rewrite submissions_app.
           rewrite submissions_unknown_order_warning.
           rewrite (submissions_invocations _ (skip_run_invocations _ _ _ _ _ _ Hgate)).
           by rewrite (submissions_invocations _ (reduce_run_invocations _ _ _ _ _ _ Hopen)).
        -- in_events.
Qed.

Lemma createOrder_rejections_witness :
  let w := running_world accepting_transport in
  let plugins := [only PluginHook.onOpen (HThrow ThrownUndefined)] in
  let run := createOrder plugins BUY 0.5 stamp w in
  (exists e, run.1 = Throw e)
  /\ nullish ThrownUndefined = true
  /\ thrown ThrownUndefined (emitted w run.2)
  /\ orders (self run.2) = [0].
Proof.
  intros w plugins run.
  assert (Hf : thrown ThrownUndefined (emitted w run.2)).
  { left. exists 0, PluginHook.onOpen, [ARef 1], [0], (heap run.2). in_trace. }
  split; [|split; [reflexivity|split; [exact Hf|vm_compute; reflexivity]]].
  apply (proj1 (createOrder_rejections plugins BUY 0.5%float stamp w)).
  right. exists ThrownUndefined. split; [reflexivity|exact Hf].
Defined.

(** ** What [closeOrder] does to the order objects and the book *)




(** X3. If a plugin's onBeforeClose hook returns a truthy value, then
    [closeOrder] returns undefined, the order book is what it was, nothing
    is submitted, the processing mark is cleared, and the veto is the last
    thing that happened. *)
Theorem vetoed_close_is_a_noop plugins closing now iso w r w' i args book objs :
  closeOrder plugins closing now iso w = (r, w') ->
  EvInvoke i PluginHook.onBeforeClose args book objs (HReturn true) ∈ emitted w w' ->
  r = Ok None
  /\ orders (self w') = orders (self w)
  /\ heap w' = unmarked closing (heap w)
  /\ submissions (emitted w w') = []
  /\ exists pre,
       emitted w w'
       = EvHook PluginHook.onBeforeClose args :: pre
         ++ [EvInvoke i PluginHook.onBeforeClose args book objs (HReturn true)]
       /\ Forall (passed PluginHook.onBeforeClose args book objs) pre.
Proof.
  intros Hrun Hveto.
  destruct (closeOrder_cases plugins closing now iso w r w' Hrun)
    as [[-> _]|[(-> & _)|(target & cc & ins & os & evs & Hobj & Hproc & Hid & Hcc & Hins
                           & -> & Hpath)]].
  { rewrite emitted_refl in Hveto. by apply elem_of_nil in Hveto. }
  { rewrite emitted_refl in Hveto. by apply elem_of_nil in Hveto. }
  rewrite evolved_emitted in *. rewrite evolved_self_orders, evolved_heap.
  inversion Hpath as [evs1 Hgate| evs1 e1 Hgate| evs1 e1 Hgate Hplace
                      | evs1 x evs2 e1 Hgate Hplace Hclose
                      | evs1 x evs2 Hgate Hplace Hclose]; subst; split_elem;
    try discriminate;
    try match goal with
      | Hin : _ ∈ evs1 |- _ =>
          destruct (skip_run_veto_last _ _ _ _ _ _ _ _ _ _ _ Hgate Hin) as [[=] _]
      | Hin : _ ∈ evs2 |- _ =>
          destruct (reduce_run_hook _ _ _ _ _ _ _ _ _ _ _ _ Hclose Hin) as [[=] _]
      end.
  rename select (_ ∈ evs1) into Hin.
  destruct (skip_run_veto_last _ _ _ _ _ _ _ _ _ _ _ Hgate Hin) as [_ (pre & -> & Hpre)].
  destruct (skip_run_hook _ _ _ _ _ _ _ _ _ _ _ _ Hgate Hin) as (_ & -> & -> & ->).
  split; [done|]. split; [done|]. split; [done|]. split; [|by exists pre].
  simpl. rewrite submissions_app. simpl.
  by rewrite (submissions_passed _ _ _ _ _ Hpre).
Qed.

Lemma vetoed_close_is_a_noop_witness :
  let plugins := [only PluginHook.onBeforeClose (HReturn true); watcher] in
  let w := opened_world_with plugins accepting_transport in
  let run := closeOrder plugins 1 7 stamp w in
  (run = (run.1, run.2)
   /\ EvInvoke 0 PluginHook.onBeforeClose
        [AOrder (closing_pendingOrder (self w) (price_tick 0 10 1) sample_instrument
                   (executed_as "A1"
                      (new_pendingOrder (self (running_world accepting_transport))
                         (price_tick 0 10 1) sample_instrument BUY 0.25 10)) 7);
         ARef 1]
        [1] (marked 1 (heap w)) (HReturn true)
      ∈ emitted w run.2)
  /\ run.1 = Ok None
  /\ orders (self run.2) = [1]
  /\ submissions (emitted w run.2) = [].
Proof.
  intros plugins w run.
  assert (Heq : run = (run.1, run.2)) by (by destruct run).
  assert (Hos : orders (self w) = [1]) by (vm_compute; reflexivity).
  assert (Hin : EvInvoke 0 PluginHook.onBeforeClose
        [AOrder (closing_pendingOrder (self w) (price_tick 0 10 1) sample_instrument
                   (executed_as "A1"
                      (new_pendingOrder (self (running_world accepting_transport))
                         (price_tick 0 10 1) sample_instrument BUY 0.25 10)) 7);
         ARef 1]
        [1] (marked 1 (heap w)) (HReturn true)
      ∈ emitted w run.2) by in_trace.
  split; [exact (conj Heq Hin)|].
  destruct (vetoed_close_is_a_noop plugins 1 7%float stamp w run.1 run.2 0 _ _ _ Heq Hin)
    as (H1 & H2 & _ & H4 & _).
  split; [exact H1|]. split; [by rewrite H2|exact H4].
Defined.

(** X4. When [closeOrder] returns an order, it is the venue's answer to the
    one request that was submitted: a closing request of the inverse side
    that refers to the closed order's id and carries its executed lots.  The
    first reference to the closed order is gone from the order book and the
    other entries keep their order; an order that was not in the book is
    submitted all the same, and the book is then unchanged. *)
Theorem closed_order_leaves_book plugins closing now iso w x w' :
  closeOrder plugins closing now iso w = (Ok (Some x), w') ->
  exists target request,
    heap w !! closing = Some target
    /\ guarded target = false
    /\ submissions (emitted w w') = [request]
    /\ EvPlaceOrder request (Ok x) ∈ emitted w w'
    /\ Order.close request = true
    /\ Order.type request = inverseType (Order.type target)
    /\ Some (Order.openId request) = VStr <$> Order.orderId target
    /\ Order.lots request = Order.executedLots target
    /\ Order.cid request = now
    /\ orders (self w') = take_out closing (orders (self w))
    /\ (forall pre post,
          orders (self w) = pre ++ closing :: post -> closing ∉ pre ->
          orders (self w') = pre ++ post)
    /\ (closing ∉ orders (self w) -> orders (self w') = orders (self w)).
Proof.
  intros Hrun.
  destruct (closeOrder_cases plugins closing now iso w _ w' Hrun)
    as [[_ [msg [=]]]|[(_ & [=] & _)|(target & cc & ins & os & evs & Hobj & Hproc & Hid
                                       & Hcc & Hins & -> & Hpath)]].
  rewrite evolved_emitted, evolved_self_orders.
  inversion Hpath as [| | | |evs1 x' evs2 Hgate Hplace Hclose]; subst.
  exists target, (closing_pendingOrder (self w) cc ins target now).
  split; [done|]. split; [by unfold guarded; rewrite Hproc, Hid|].
  split; [|split; [|repeat split]].
  - simpl. rewrite submissions_app. simpl.
    rewrite (submissions_invocations _ (skip_run_invocations _ _ _ _ _ _ Hgate)).
    by rewrite (submissions_invocations _ (reduce_run_invocations _ _ _ _ _ _ Hclose)).
  - in_events.
  - simpl. unfold Order.has_orderId in Hid. apply bool_decide_eq_true in Hid.
    by destruct Hid as [oid ->].
  - intros pre post -> Hpre. by apply take_out_first.
  - apply take_out_absent.
Qed.

Lemma closed_order_leaves_book_witness :
  let w := opened_world accepting_transport in
  let run := closeOrder [watcher] 1 7 stamp w in
  let x :=
    executed_as "A1"
      (closing_pendingOrder (self w) (price_tick 0 10 1) sample_instrument
         (executed_as "A1"
            (new_pendingOrder (self (running_world accepting_transport))
               (price_tick 0 10 1) sample_instrument BUY 0.25 10)) 7) in
  run = (Ok (Some x), run.2)
  /\ orders (self w) = [1]
  /\ orders (self run.2) = [].
Proof.
  intros w run x.
  assert (Heq : run = (Ok (Some x), run.2)) by (vm_compute; reflexivity).
  assert (Hos : orders (self w) = [] ++ 1 :: []) by (vm_compute; reflexivity).
  split; [exact Heq|]. split; [exact Hos|].
  destruct (closed_order_leaves_book [watcher] 1 7%float stamp w x run.2 Heq)
    as (target & request & _ & _ & _ & _ & _ & _ & _ & _ & _ & _ & H & _).
  exact (H [] [] Hos (not_elem_of_nil 1)).
Defined.



(** ** Opens that do not end as intended *)

(** X6. If an onOpen hook throws, the venue has already accepted the
    order.  When the hook threw an error value, [createOrder] returns
    undefined and (with a fresh correlation id) removes the pending entry:
    the order book is what it was before the call and does not hold the
    executed order.  When it threw [undefined] or [null], [createOrder]
    rejects with the TypeError of the catch block and the pending entry
    stays at the end of the book. *)
Theorem failed_onOpen_drops_accepted_order plugins operation random iso w r w'
    i args book objs e :
  fresh_cid w (PrimFloat.mul random 1e17) ->
  createOrder plugins operation random iso w = (r, w') ->
  EvInvoke i PluginHook.onOpen args book objs (HThrow e) ∈ emitted w w' ->
  (exists request x,
     submissions (emitted w w') = [request]
     /\ EvPlaceOrder request (Ok x) ∈ emitted w w'
     /\ heap w' = heap w ++ [request; x]
     /\ args = [ARef (S (length (heap w)))])
  /\ match message e with
     | Ok _ => r = Ok None /\ orders (self w') = orders (self w)
     | Throw failure =>
         r = Throw failure /\ orders (self w') = orders (self w) ++ [length (heap w)]
     end.
Proof.
  intros [Hnum Hfresh] Hrun Hthrow.
  destruct (createOrder_cases plugins operation random iso w r w' Hrun)
    as [[-> _]|(cc & ins & lots & os & objs' & evs & Hcc & Hins & Hlots & -> & Hpath)].
  { rewrite emitted_refl in Hthrow. by apply elem_of_nil in Hthrow. }
  rewrite evolved_emitted in *. rewrite evolved_self_orders, evolved_heap.
  inversion Hpath as [evs1 Hgate| evs1 e1 Hgate| evs1 e1 Hgate Hplace
                      | evs1 x evs2 e1 Hgate Hplace Hopen
                      | evs1 x evs2 Hgate Hplace Hopen]; subst; split_elem;
    try discriminate; try not_in_catch_log;
    try match goal with
      | Hin : _ ∈ unknown_order_warning _ _ _ |- _ =>
          apply in_unknown_order_warning in Hin; discriminate
      | Hin : _ ∈ evs1 |- _ =>
          destruct (skip_run_hook _ _ _ _ _ _ _ _ _ _ _ _ Hgate Hin) as [[=] _]
      | Hin : _ ∈ evs2 |- _ =>
          destruct (reduce_run_throw_last _ _ _ _ _ _ _ _ _ _ _ _ Hopen Hin) as [[=] _]
      end.
  rename select (_ ∈ evs2) into Hin.
  destruct (reduce_run_throw_last _ _ _ _ _ _ _ _ _ _ _ _ Hopen Hin) as [[= ->] _].
  destruct (reduce_run_hook _ _ _ _ _ _ _ _ _ _ _ _ Hopen Hin) as (_ & -> & _).
  split.
  - exists (new_pendingOrder (self w) cc ins operation random lots), x.
    split; [|split; [|done]].
    + simpl. rewrite submissions_app. simpl. rewrite submissions_app. simpl.
      rewrite submissions_catch_log.
      rewrite (submissions_invocations _ (skip_run_invocations _ _ _ _ _ _ Hgate)).
      by rewrite (submissions_invocations _ (reduce_run_invocations _ _ _ _ _ _ Hopen)).
    + in_events.
  - unfold catch_result, catch_book. destruct (message e); [|done].
    split; [done|]. by apply (without_cid_pending _ _ _ [x]).
Qed.

Lemma failed_onOpen_drops_accepted_order_witness :
  let failure := Error "plugin failure" in
  let plugins := [only PluginHook.onOpen (HThrow failure)] in
  let w := running_world accepting_transport in
  let run := createOrder plugins BUY 0.5 stamp w in
  (fresh_cid w (PrimFloat.mul 0.5 1e17)
   /\ run = (run.1, run.2)
   /\ EvInvoke 0 PluginHook.onOpen [ARef 1] [0] (heap run.2) (HThrow failure)
      ∈ emitted w run.2)
  /\ run.1 = Ok None
  /\ orders (self run.2) = [].
Proof.
  intros failure plugins w run.
  assert (Hfresh : fresh_cid w (PrimFloat.mul 0.5 1e17)).
  { split; [vm_compute; reflexivity|]. intros l Hl. by apply elem_of_nil in Hl. }
  assert (Heq : run = (run.1, run.2)) by (by destruct run).
  assert (Hin : EvInvoke 0 PluginHook.onOpen [ARef 1] [0] (heap run.2) (HThrow failure)
                ∈ emitted w run.2) by in_trace.
  split; [exact (conj Hfresh (conj Heq Hin))|].
  exact (proj2 (failed_onOpen_drops_accepted_order plugins BUY 0.5%float stamp w run.1 run.2
                  0 _ _ _ failure Hfresh Heq Hin)).
Defined.

Lemma replaced_by_cid_unknown objs order os :
  unknown_order_warning objs order os <> [] -> replaced_by_cid objs order os = os.
Proof. unfold unknown_order_warning, replaced_by_cid. by case_match. Qed.

(** X7. If [createOrder] warns about an unknown order (the venue's answer
    carries a correlation id that no entry of the order book has), it still
    returns the executed order, but the order book keeps the PendingOrder,
    appended at its end, and does not hold the executed order. *)
Theorem unmatched_answer_leaves_pending plugins operation random iso w r w' order :
  createOrder plugins operation random iso w = (r, w') ->
  EvWarnUnknownOrder order ∈ emitted w w' ->
  r = Ok (Some order)
  /\ order = S (length (heap w))
  /\ orders (self w') = orders (self w) ++ [length (heap w)]
  /\ exists request x,
       heap w' = heap w ++ [request; x]
       /\ Order.orderId request = None
       /\ EvPlaceOrder request (Ok x) ∈ emitted w w'.
Proof.
  intros Hrun Hwarn.
  destruct (createOrder_cases plugins operation random iso w r w' Hrun)
    as [[-> _]|(cc & ins & lots & os & objs' & evs & Hcc & Hins & Hlots & -> & Hpath)].
  { rewrite emitted_refl in Hwarn. by apply elem_of_nil in Hwarn. }
  rewrite evolved_emitted in *. rewrite evolved_self_orders, evolved_heap.
  inversion Hpath as [evs1 Hgate| evs1 e1 Hgate| evs1 e1 Hgate Hplace
                      | evs1 x evs2 e1 Hgate Hplace Hopen
                      | evs1 x evs2 Hgate Hplace Hopen]; subst; split_elem;
    try discriminate; try not_in_catch_log;
    try match goal with
      | Hin : _ ∈ evs1 |- _ =>
          by apply (invocation_in_run _ _ (skip_run_invocations _ _ _ _ _ _ Hgate)) in Hin
      | Hin : _ ∈ evs2 |- _ =>
          by apply (invocation_in_run _ _ (reduce_run_invocations _ _ _ _ _ _ Hopen)) in Hin
      end.
  rename select (_ ∈ unknown_order_warning _ _ _) into Hin.
  assert (Hne : unknown_order_warning (heap w ++ [new_pendingOrder (self w) cc ins operation
                                                    random lots; x])
                  (S (length (heap w))) (orders (self w) ++ [length (heap w)]) <> [])
    by (intros Hnil; rewrite Hnil in Hin; by apply elem_of_nil in Hin).
  apply in_unknown_order_warning in Hin. injection Hin as ->.
  split; [done|]. split; [done|]. split; [by apply replaced_by_cid_unknown|].
  exists (new_pendingOrder (self w) cc ins operation random lots), x.
  split; [done|]. split; [done|]. in_events.
Qed.

(** A venue that answers with a correlation id of its own. *)
Definition renumbering_transport : BaseTransport :=
  {| placeOrder := fun request _ _ =>
       Ok (Order.mk 42 (Order.broker request) (Order.type request) (Order.ticker request)
             (Order.figi request) (Order.currency request) (Order.interval request)
             (Order.author request) (Order.price request) (Order.lots request)
             (Order.lotSize request) (Order.pipSize request) (Order.close request)
             (Order.openPrice request) (Order.openId request) (Order.sandbox request)
             (Order.learning request) (Order.time request) (Order.margin request)
             (Order.futures request) (Order.instrumentType request)
             (Order.lotsMultiplier request) (Order.equityLevel request)
             (Some "A1") (Order.lots request) None);
     prepareLots := fun lots _ _ => Ok lots |}.

Lemma unmatched_answer_leaves_pending_witness :
  let w := running_world renumbering_transport in
  let run := createOrder [watcher] BUY 0.5 stamp w in
  (run = (run.1, run.2) /\ EvWarnUnknownOrder 1 ∈ emitted w run.2)
  /\ run.1 = Ok (Some 1)
  /\ orders (self run.2) = [0].
Proof.
  intros w run.
  assert (Hwarn : EvWarnUnknownOrder 1 ∈ emitted w run.2) by in_trace.
  assert (Heq : run = (run.1, run.2)) by (by destruct run).
  split; [exact (conj Heq Hwarn)|].
  destruct (unmatched_answer_leaves_pending [watcher] BUY 0.5%float stamp w run.1 run.2 1
              Heq Hwarn) as (H1 & _ & H3 & _).
  exact (conj H1 H3).
Defined.

(** ** The order book holds every order object at most once *)

(** The order book has no two references to one object, and every reference
    is to an object that exists. *)
Definition book_ok (w : World) : Prop :=
  NoDup (orders (self w)) /\ forall l, l ∈ orders (self w) -> l < length (heap w).

Lemma NoDup_take_out x arr : NoDup arr -> NoDup (take_out x arr).
Proof.
  intros Hnd. unfold take_out. destruct (indexOf x arr); [|done].
  eapply sublist_NoDup; [done|apply sublist_delete].
Qed.

Lemma NoDup_restore x arr : NoDup arr -> NoDup (restore x arr).
Proof.
  intros Hnd. destruct (decide (x ∈ arr)) as [Hx|Hx].
  - by rewrite restore_present.
  - rewrite restore_absent by done. by apply NoDup_cons.
Qed.

Lemma elem_of_restore_inv x y arr : y ∈ restore x arr -> y = x \/ y ∈ arr.
Proof.
  destruct (decide (x ∈ arr)) as [Hx|Hx].
  - rewrite restore_present by done. by right.
  - rewrite restore_absent by done. by intros ?%elem_of_cons.
Qed.

Lemma NoDup_without_cid objs order os : NoDup os -> NoDup (without_cid objs order os).
Proof.
  intros Hnd. unfold without_cid. destruct (findIndex _ _); [|done].
  eapply sublist_NoDup; [done|apply sublist_delete].
Qed.

Lemma elem_of_without_cid objs order os y : y ∈ without_cid objs order os -> y ∈ os.
Proof.
  unfold without_cid. destruct (findIndex _ _); [|done]. apply list_elem_of_delete_inv.
Qed.

Lemma elem_of_insert_inv {A} (arr : list A) i x y : y ∈ <[i:=x]> arr -> y = x \/ y ∈ arr.
Proof.
  revert i. induction arr as [|z rest IH]; intros [|i]; simpl; intros Hy;
    try by right.
  - apply elem_of_cons in Hy as [->|Hy]; [by left|]. right. by right.
  - apply elem_of_cons in Hy as [->|Hy]; [right; by left|].
    destruct (IH i Hy) as [->|Hin]; [by left|]. right. by right.
Qed.

Lemma NoDup_insert_fresh {A} (arr : list A) i x :
  NoDup arr -> x ∉ arr -> NoDup (<[i:=x]> arr).
Proof.
  revert i. induction arr as [|z rest IH]; intros [|i] Hnd Hx; simpl; try done.
  - apply NoDup_cons in Hnd as [Hz Hnd]. apply not_elem_of_cons in Hx as [_ Hx].
    by apply NoDup_cons.
  - apply NoDup_cons in Hnd as [Hz Hnd]. apply not_elem_of_cons in Hx as [Hne Hx].
    apply NoDup_cons. split; [|by apply IH].
    intros Hin. destruct (elem_of_insert_inv _ _ _ _ Hin) as [->|Hin']; done.
Qed.

Lemma NoDup_replaced_by_cid objs order os :
  NoDup os -> order ∉ os -> NoDup (replaced_by_cid objs order os).
Proof.
  intros Hnd Hx. unfold replaced_by_cid. destruct (findIndex _ _); [|done].
  by apply NoDup_insert_fresh.
Qed.

Lemma elem_of_replaced_by_cid objs order os y :
  y ∈ replaced_by_cid objs order os -> y = order \/ y ∈ os.
Proof.
  unfold replaced_by_cid. destruct (findIndex _ _); [|by right]. apply elem_of_insert_inv.
Qed.

Lemma NoDup_pushed (os : list nat) n : (forall l, l ∈ os -> l < n) -> NoDup os -> NoDup (os ++ [n]).
Proof.
  intros Hb Hnd. apply NoDup_app. split; [done|]. split; [|apply NoDup_singleton].
  intros l Hl ->%list_elem_of_singleton. specialize (Hb _ Hl). lia.
Qed.

Lemma createOrder_book_ok plugins operation random iso w :
  book_ok w -> book_ok (createOrder plugins operation random iso w).2.
Proof.
  intros [Hnd Hb].
  destruct (createOrder plugins operation random iso w) as [r w'] eqn:Hrun. simpl.
  destruct (createOrder_cases plugins operation random iso w r w' Hrun)
    as [[-> _]|(cc & ins & lots & os & objs & evs & Hcc & Hins & Hlots & -> & Hpath)];
    [done|].
  unfold book_ok. rewrite evolved_self_orders, evolved_heap.
  assert (Hpush : NoDup (orders (self w) ++ [length (heap w)])) by (by apply NoDup_pushed).
  assert (Hbpush : forall l, l ∈ orders (self w) ++ [length (heap w)] ->
                             l < S (length (heap w))).
  { intros l [Hl| ->%list_elem_of_singleton]%elem_of_app; [|lia].
    specialize (Hb l Hl). lia. }
  assert (Hcatch : forall e objs' os',
            NoDup os' -> (forall l, l ∈ os' -> l < S (length (heap w))) ->
            NoDup (catch_book e objs' (length (heap w)) os')
            /\ forall l, l ∈ catch_book e objs' (length (heap w)) os' ->
                         l < S (length (heap w))).
  { intros e objs' os' Hnd' Hb'. unfold catch_book. destruct (message e); [|done].
    split; [by apply NoDup_without_cid|]. intros l Hl%elem_of_without_cid. by apply Hb'. }
  inversion Hpath; subst; rewrite length_app; simpl.
  - split; [done|]. intros l Hl. specialize (Hb l Hl). lia.
  - destruct (Hcatch e (heap w ++ [new_pendingOrder (self w) cc ins operation random lots])
                (orders (self w)) Hnd) as [Hnd1 Hlt1].
    + intros l Hl. specialize (Hb l Hl). lia.
    + split; [done|]. intros l Hl. specialize (Hlt1 l Hl). lia.
  - destruct (Hcatch e (heap w ++ [new_pendingOrder (self w) cc ins operation random lots])
                _ Hpush Hbpush) as [Hnd1 Hlt1].
    split; [done|]. intros l Hl. specialize (Hlt1 l Hl). lia.
  - destruct (Hcatch e (heap w ++ [new_pendingOrder (self w) cc ins operation random lots; x])
                _ Hpush Hbpush) as [Hnd1 Hlt1].
    split; [done|]. intros l Hl. specialize (Hlt1 l Hl). lia.
  - split.
    + apply NoDup_replaced_by_cid; [done|]. intros Hin. specialize (Hbpush _ Hin). lia.
    + intros l [->|Hl]%elem_of_replaced_by_cid; [lia|]. specialize (Hbpush l Hl). lia.
Qed.

Lemma closeOrder_book_ok plugins closing now iso w :
  book_ok w -> book_ok (closeOrder plugins closing now iso w).2.
Proof.
  intros [Hnd Hb].
  destruct (closeOrder plugins closing now iso w) as [r w'] eqn:Hrun. simpl.
  destruct (closeOrder_cases plugins closing now iso w r w' Hrun)
    as [[-> _]|[(-> & _)|(target & cc & ins & os & evs & Hobj & Hproc & Hid & Hcc & Hins
                           & -> & Hpath)]]; [done|done|].
  unfold book_ok. rewrite evolved_self_orders, evolved_heap.
  unfold unmarked. rewrite length_alter.
  pose proof (lookup_lt_Some _ _ _ Hobj) as Hlive.
  inversion Hpath; subst.
  - done.
  - split; [by apply NoDup_restore|].
    intros l [->|Hl]%elem_of_restore_inv; [done|by apply Hb].
  - split; [by apply NoDup_restore, NoDup_take_out|].
    intros l [->|Hl%take_out_subset]%elem_of_restore_inv; [done|by apply Hb].
  - split; [by apply NoDup_restore, NoDup_take_out|].
    intros l [->|Hl%take_out_subset]%elem_of_restore_inv; [done|by apply Hb].
  - split; [by apply NoDup_take_out|]. intros l Hl%take_out_subset. by apply Hb.
Qed.

Lemma closeAll_loop_book_ok plugins clock n : forall i acc w,
  book_ok w -> book_ok (closeAll_loop plugins n i clock acc w).2.
Proof.
  induction n as [|n IH]; intros i acc w Hok; simpl; [done|].
  destruct (orders (self w) !! 0) as [first|]; [|done].
  unfold bind.
  pose proof (closeOrder_book_ok plugins first (clock i).1 (clock i).2 w Hok) as Hstep.
  destruct (closeOrder plugins first (clock i).1 (clock i).2 w) as [[res|e] w1];
    simpl in *; [|done].
  by apply IH.
Qed.

(** X8. The order operations keep the order book free of duplicates: if no
    order object is in the book twice, and every entry is an existing
    object, then the same holds after [createOrder], after [closeOrder] and
    after [closeAll], however they end. *)
Theorem order_book_stays_duplicate_free plugins w :
  book_ok w ->
  (forall operation random iso, book_ok (createOrder plugins operation random iso w).2)
  /\ (forall closing now iso, book_ok (closeOrder plugins closing now iso w).2)
  /\ (forall clock, book_ok (closeAll plugins clock w).2).
Proof.
  intros Hok. split; [|split].
  - intros operation random iso. by apply createOrder_book_ok.
  - intros closing now iso. by apply closeOrder_book_ok.
  - intros clock. unfold closeAll. case_bool_decide; [done|]. unfold bind.
    pose proof (closeAll_loop_book_ok plugins clock (length (orders (self w))) 0 [] w Hok)
      as Hloop.
    by destruct (closeAll_loop plugins _ 0 clock [] w) as [[res|e] w1].
Qed.

Lemma order_book_stays_duplicate_free_witness :
  let w := opened_world accepting_transport in
  book_ok w /\ book_ok (createOrder [watcher] SELL 0.5 stamp w).2.
Proof.
  intros w.
  assert (Hos : orders (self w) = [1]) by (vm_compute; reflexivity).
  assert (Hlen : length (heap w) = 2) by (vm_compute; reflexivity).
  assert (Hok : book_ok w).
  { unfold book_ok. rewrite Hos, Hlen. split; [apply NoDup_singleton|].
    intros l ->%list_elem_of_singleton. lia. }
  split; [exact Hok|].
  exact (proj1 (order_book_stays_duplicate_free [watcher] w Hok) SELL 0.5%float stamp).
Defined.

(** ** Close-all behind an order that cannot be closed *)

Lemma closeAll_loop_blocked plugins clock w first rest target n : forall i acc,
  orders (self w) = first :: rest ->
  heap w !! first = Some target ->
  guarded target = true ->
  closeAll_loop plugins n i clock acc w = (Ok (acc ++ replicate n None), w).
Proof.
  induction n as [|n IH]; intros i acc Hos Hobj Hguard; simpl.
  - by rewrite app_nil_r.
  - rewrite Hos. simpl. unfold bind.
    rewrite (closeOrder_guarded plugins first (clock i).1 (clock i).2 w target Hobj).
    + rewrite (IH (S i) (acc ++ [None]) Hos Hobj Hguard). by rewrite <- app_assoc.
    + unfold guarded in Hguard. apply orb_true_iff in Hguard as [Hp|Hi]; [by left|].
      right. by apply negb_true_iff.
Qed.

(** X9. [closeAll] closes [this.orders[0]] in every iteration.  When the
    first entry of the order book cannot be closed (it is already marked
    processing, or it is a PendingOrder without an order id), every
    iteration is a no-op on that entry: [closeAll] returns one undefined per
    entry, submits nothing, and leaves every order of the book open. *)
Theorem closeAll_stops_at_blocked_head plugins clock w first rest target :
  orders (self w) = first :: rest ->
  heap w !! first = Some target ->
  guarded target = true ->
  closeAll plugins clock w = (Ok (Some (replicate (S (length rest)) None)), w).
Proof.
  intros Hos Hobj Hguard. unfold closeAll.
  rewrite bool_decide_eq_false_2 by (rewrite Hos; simpl; lia). unfold bind.
  rewrite (closeAll_loop_blocked plugins clock w first rest target
             (length (orders (self w))) 0 [] Hos Hobj Hguard).
  by rewrite Hos.
Qed.

(** A venue that answers the first submission with a correlation id of its
    own and echoes the later ones. *)
Definition renumbering_once_transport : BaseTransport :=
  {| placeOrder := fun request options history =>
       match submissions history with
       | [] => placeOrder renumbering_transport request options history
       | _ => Ok (executed_as "A2" request)
       end;
     prepareLots := fun lots _ _ => Ok lots |}.

Lemma closeAll_stops_at_blocked_head_witness :
  let w0 := running_world renumbering_once_transport in
  let w := (createOrder [watcher] BUY 0.5 stamp (createOrder [watcher] BUY 0.25 stamp w0).2).2 in
  let pending :=
    new_pendingOrder (running_engine renumbering_once_transport) (price_tick 0 10 1)
      sample_instrument BUY 0.25 10 in
  (orders (self w) = [0; 3] /\ heap w !! 0 = Some pending /\ guarded pending = true)
  /\ Order.orderId <$> heap w !! 3 = Some (Some "A2")
  /\ closeAll [watcher] (fun _ => (7%float, stamp)) w = (Ok (Some [None; None]), w).
Proof.
  intros w0 w pending.
  assert (Hos : orders (self w) = [0; 3]) by (vm_compute; reflexivity).
  assert (Hobj : heap w !! 0 = Some pending) by (vm_compute; reflexivity).
  assert (Hguard : guarded pending = true) by (vm_compute; reflexivity).
  split; [exact (conj Hos (conj Hobj Hguard))|].
  split; [vm_compute; reflexivity|].
  exact (closeAll_stops_at_blocked_head [watcher] (fun _ => (7%float, stamp)) w 0 [3]
           pending Hos Hobj Hguard).
Defined.

(** ** Every run of the tick handler *)

(** What a tick did to the candle window. *)
Inductive TickStep := Untouched | Overwritten | Advanced.

Definition after_step (step : TickStep) (tick : Candle.t) (w : World) : World :=
  match step with
  | Untouched => w
  | Overwritten => with_candles (assign0 tick) w
  | Advanced => updateCandles tick w
  end.

(** The candle handed to onCandle and onAfterCandle. *)
Definition closing_candle (w : World) : HookArg :=
  from_option ACandle AUndefined (currentCandle w).

(** The seven ways the handler runs: result, what happened to the window,
    events. *)
Inductive handler_run (w : World) (tick : Candle.t)
    : Result unit -> TickStep -> list Event -> Prop :=
| tick_vetoed evs :
    skip_run PluginHook.onBeforeTick [ACandle tick] (orders (self w)) (heap w) (Ok true) evs ->
    handler_run w tick (Ok tt) Untouched
      (EvHook PluginHook.onBeforeTick [ACandle tick] :: evs)
| tick_gate_failed evs e :
    skip_run PluginHook.onBeforeTick [ACandle tick] (orders (self w)) (heap w) (Throw e) evs ->
    handler_run w tick (Throw e) Untouched
      (EvHook PluginHook.onBeforeTick [ACandle tick] :: evs)
| tick_same evs r evs2 :
    crosses_boundary w tick = false ->
    skip_run PluginHook.onBeforeTick [ACandle tick] (orders (self w)) (heap w) (Ok false) evs ->
    reduce_run PluginHook.onTick [ACandle tick] (orders (self w)) (heap w) r evs2 ->
    handler_run w tick r Overwritten
      (EvHook PluginHook.onBeforeTick [ACandle tick] :: evs
       ++ EvHook PluginHook.onTick [ACandle tick] :: evs2)
| tick_onTick_failed evs e evs2 :
    crosses_boundary w tick = true ->
    skip_run PluginHook.onBeforeTick [ACandle tick] (orders (self w)) (heap w) (Ok false) evs ->
    reduce_run PluginHook.onTick [ACandle tick] (orders (self w)) (heap w) (Throw e) evs2 ->
    handler_run w tick (Throw e) Untouched
      (EvHook PluginHook.onBeforeTick [ACandle tick] :: evs
       ++ EvHook PluginHook.onTick [ACandle tick] :: evs2)
| tick_onCandle_failed evs evs2 e evs3 :
    crosses_boundary w tick = true ->
    skip_run PluginHook.onBeforeTick [ACandle tick] (orders (self w)) (heap w) (Ok false) evs ->
    reduce_run PluginHook.onTick [ACandle tick] (orders (self w)) (heap w) (Ok tt) evs2 ->
    reduce_run PluginHook.onCandle [closing_candle w] (orders (self w)) (heap w)
      (Throw e) evs3 ->
    handler_run w tick (Throw e) Untouched
      (EvHook PluginHook.onBeforeTick [ACandle tick] :: evs
       ++ EvHook PluginHook.onTick [ACandle tick] :: evs2
       ++ EvHook PluginHook.onCandle [closing_candle w] :: evs3)
| tick_onAfterCandle_failed evs evs2 evs3 e evs4 :
    crosses_boundary w tick = true ->
    skip_run PluginHook.onBeforeTick [ACandle tick] (orders (self w)) (heap w) (Ok false) evs ->
    reduce_run PluginHook.onTick [ACandle tick] (orders (self w)) (heap w) (Ok tt) evs2 ->
    reduce_run PluginHook.onCandle [closing_candle w] (orders (self w)) (heap w)
      (Ok tt) evs3 ->
    reduce_run PluginHook.onAfterCandle [closing_candle w] (orders (self w)) (heap w)
      (Throw e) evs4 ->
    handler_run w tick (Throw e) Untouched
      (EvHook PluginHook.onBeforeTick [ACandle tick] :: evs
       ++ EvHook PluginHook.onTick [ACandle tick] :: evs2
       ++ EvHook PluginHook.onCandle [closing_candle w] :: evs3
       ++ EvHook PluginHook.onAfterCandle [closing_candle w] :: evs4)
| tick_crossed evs evs2 evs3 evs4 :
    crosses_boundary w tick = true ->
    skip_run PluginHook.onBeforeTick [ACandle tick] (orders (self w)) (heap w) (Ok false) evs ->
    reduce_run PluginHook.onTick [ACandle tick] (orders (self w)) (heap w) (Ok tt) evs2 ->
    reduce_run PluginHook.onCandle [closing_candle w] (orders (self w)) (heap w)
      (Ok tt) evs3 ->
    reduce_run PluginHook.onAfterCandle [closing_candle w] (orders (self w)) (heap w)
      (Ok tt) evs4 ->
    handler_run w tick (Ok tt) Advanced
      (EvHook PluginHook.onBeforeTick [ACandle tick] :: evs
       ++ EvHook PluginHook.onTick [ACandle tick] :: evs2
       ++ EvHook PluginHook.onCandle [closing_candle w] :: evs3
       ++ EvHook PluginHook.onAfterCandle [closing_candle w] :: evs4).

Lemma handler_paths plugins tick w :
  exists r step evs,
    handler plugins tick w = (r, log evs (after_step step tick w))
    /\ handler_run w tick r step evs.
Proof.
  unfold handler, bind, ret, modify, onTick, onCandle.
  destruct (asyncSkipReduce_spec plugins PluginHook.onBeforeTick [ACandle tick] w)
    as (r1 & evs1 & -> & Hgate).
  destruct r1 as [[|]|e]; simpl.
  - exists (Ok tt), Untouched. eexists. split; [done|]. by apply tick_vetoed.
  - destruct (crosses_boundary w tick) eqn:Hcross; simpl.
    + match goal with
      | |- context [asyncReduce plugins ?hk ?args ?wx] =>
          destruct (asyncReduce_spec plugins hk args wx) as (r2 & evs2 & -> & Htick)
      end.
      simpl in Htick. destruct r2 as [[]|e]; simpl.
      2: { exists (Throw e), Untouched. eexists. rewrite log_log. split; [done|].
           by apply (tick_onTick_failed w tick evs1 e evs2). }
      match goal with
      | |- context [asyncReduce plugins ?hk ?args ?wx] =>
          destruct (asyncReduce_spec plugins hk args wx) as (r3 & evs3 & -> & Hcandle)
      end.
      simpl in Hcandle. fold (closing_candle w) in Hcandle.
      destruct r3 as [[]|e]; simpl.
      2: { exists (Throw e), Untouched. eexists. rewrite !log_log. split; [done|].
           replace ((EvHook PluginHook.onBeforeTick [ACandle tick] :: evs1)
                    ++ (EvHook PluginHook.onTick [ACandle tick] :: evs2)
                    ++ EvHook PluginHook.onCandle [closing_candle w] :: evs3)
             with (EvHook PluginHook.onBeforeTick [ACandle tick] :: evs1
                   ++ EvHook PluginHook.onTick [ACandle tick] :: evs2
                   ++ EvHook PluginHook.onCandle [closing_candle w] :: evs3)
             by same_events.
           by apply (tick_onCandle_failed w tick evs1 evs2 e evs3). }
      match goal with
      | |- context [asyncReduce plugins ?hk ?args ?wx] =>
          destruct (asyncReduce_spec plugins hk args wx) as (r4 & evs4 & -> & Hafter)
      end.
      simpl in Hafter. fold (closing_candle w) in Hafter.
      destruct r4 as [[]|e]; simpl.
      * exists (Ok tt), Advanced. eexists. simpl.
        rewrite !updateCandles_log, !log_log. split; [done|].
        replace ((((EvHook PluginHook.onBeforeTick [ACandle tick] :: evs1)
                   ++ EvHook PluginHook.onTick [ACandle tick] :: evs2)
                  ++ EvHook PluginHook.onCandle [closing_candle w] :: evs3)
                 ++ EvHook PluginHook.onAfterCandle [closing_candle w] :: evs4)
          with (EvHook PluginHook.onBeforeTick [ACandle tick] :: evs1
                ++ EvHook PluginHook.onTick [ACandle tick] :: evs2
                ++ EvHook PluginHook.onCandle [closing_candle w] :: evs3
                ++ EvHook PluginHook.onAfterCandle [closing_candle w] :: evs4)
          by same_events.
        by apply (tick_crossed w tick evs1 evs2 evs3 evs4).
      * exists (Throw e), Untouched. eexists. rewrite !log_log. split; [done|].
        replace ((((EvHook PluginHook.onBeforeTick [ACandle tick] :: evs1)
                   ++ EvHook PluginHook.onTick [ACandle tick] :: evs2)
                  ++ EvHook PluginHook.onCandle [closing_candle w] :: evs3)
                 ++ EvHook PluginHook.onAfterCandle [closing_candle w] :: evs4)
          with (EvHook PluginHook.onBeforeTick [ACandle tick] :: evs1
                ++ EvHook PluginHook.onTick [ACandle tick] :: evs2
                ++ EvHook PluginHook.onCandle [closing_candle w] :: evs3
                ++ EvHook PluginHook.onAfterCandle [closing_candle w] :: evs4)
          by same_events.
        by apply (tick_onAfterCandle_failed w tick evs1 evs2 evs3 e evs4).
    + match goal with
      | |- context [asyncReduce plugins ?hk ?args ?wx] =>
          destruct (asyncReduce_spec plugins hk args wx) as (r2 & evs2 & -> & Htick)
      end.
      simpl in Htick.
      exists r2, Overwritten. eexists. simpl.
      replace (with_candles (assign0 tick)
                 (log (EvHook PluginHook.onBeforeTick [ACandle tick] :: evs1) w))
        with (log (EvHook PluginHook.onBeforeTick [ACandle tick] :: evs1)
                (with_candles (assign0 tick) w)) by done.
      rewrite log_log.
      split; [by destruct r2 as [[]|?]|].
      by apply (tick_same w tick evs1 r2 evs2).
  - exists (Throw e), Untouched. eexists. split; [done|]. by apply tick_gate_failed.
Qed.

Lemma after_step_trace step tick w : trace (after_step step tick w) = trace w.
Proof. destruct step; simpl; try done. unfold updateCandles. by repeat case_match. Qed.

Lemma after_step_heap step tick w : heap (after_step step tick w) = heap w.
Proof. destruct step; simpl; try done. unfold updateCandles. by repeat case_match. Qed.

Lemma after_step_fields step tick w :
  orders (self (after_step step tick w)) = orders (self w)
  /\ learning (self (after_step step tick w)) = learning (self w)
  /\ instrument (self (after_step step tick w)) = instrument (self w)
  /\ opts (self (after_step step tick w)) = opts (self w).
Proof. destruct step; simpl; try done. unfold updateCandles. by repeat case_match. Qed.

Lemma handler_emitted step tick w evs :
  emitted w (log evs (after_step step tick w)) = evs.
Proof. apply emitted_trace. simpl. by rewrite after_step_trace. Qed.

(** X10. A tick that a plugin's onBeforeTick hook vetoes is dropped: the
    handler resolves, the engine object and the order objects are what they
    were (no candle is touched), and no hook other than onBeforeTick ran,
    the veto being its last invocation. *)
Theorem vetoed_tick_is_dropped plugins tick w r w' i args book objs :
  handler plugins tick w = (r, w') ->
  EvInvoke i PluginHook.onBeforeTick args book objs (HReturn true) ∈ emitted w w' ->
  r = Ok tt
  /\ self w' = self w
  /\ heap w' = heap w
  /\ hook_calls (emitted w w') = [(PluginHook.onBeforeTick, [ACandle tick])]
  /\ exists pre,
       emitted w w'
       = EvHook PluginHook.onBeforeTick [ACandle tick] :: pre
         ++ [EvInvoke i PluginHook.onBeforeTick args book objs (HReturn true)].
Proof.
  intros Hrun Hveto.
  destruct (handler_paths plugins tick w) as (r1 & step & evs & Heq & Hpath).
  rewrite Heq in Hrun. injection Hrun as <- <-.
  rewrite handler_emitted in *.
  inversion Hpath as [evs1 Hgate| evs1 e Hgate| evs1 r2 evs2 Hcross Hgate Htick
                      | evs1 e evs2 Hcross Hgate Htick
                      | evs1 evs2 e evs3 Hcross Hgate Htick Hcandle
                      | evs1 evs2 evs3 e evs4 Hcross Hgate Htick Hcandle Hafter
                      | evs1 evs2 evs3 evs4 Hcross Hgate Htick Hcandle Hafter];
    subst; split_elem; try discriminate;
    try match goal with
      | Hin : _ ∈ evs1 |- _ =>
          destruct (skip_run_veto_last _ _ _ _ _ _ _ _ _ _ _ Hgate Hin) as [[=] _]
      | Hin : _ ∈ evs2 |- _ =>
          destruct (reduce_run_hook _ _ _ _ _ _ _ _ _ _ _ _ Htick Hin) as [[=] _]
      | Hin : _ ∈ evs3 |- _ =>
          destruct (reduce_run_hook _ _ _ _ _ _ _ _ _ _ _ _ Hcandle Hin) as [[=] _]
      | Hin : _ ∈ evs4 |- _ =>
          destruct (reduce_run_hook _ _ _ _ _ _ _ _ _ _ _ _ Hafter Hin) as [[=] _]
      end.
  rename select (_ ∈ evs1) into Hin.
  destruct (skip_run_veto_last _ _ _ _ _ _ _ _ _ _ _ Hgate Hin) as [_ (pre & -> & Hpre)].
  simpl. split; [done|]. split; [done|]. split; [done|]. split; [|by exists pre].
  rewrite hook_calls_app. simpl. by rewrite (hook_calls_passed _ _ _ _ _ Hpre).
Qed.

Lemma vetoed_tick_is_dropped_witness :
  let plugins := [only PluginHook.onBeforeTick (HReturn true); watcher] in
  let w := running_world accepting_transport in
  let tick := price_tick 60 12 1 in
  let run := handler plugins tick w in
  (run = (run.1, run.2)
   /\ EvInvoke 0 PluginHook.onBeforeTick [ACandle tick] [] [] (HReturn true)
      ∈ emitted w run.2)
  /\ run.1 = Ok tt
  /\ candles (self run.2) = [price_tick 0 10 1].
Proof.
  intros plugins w tick run.
  assert (Heq : run = (run.1, run.2)) by (by destruct run).
  assert (Hin : EvInvoke 0 PluginHook.onBeforeTick [ACandle tick] [] [] (HReturn true)
                ∈ emitted w run.2) by in_trace.
  split; [exact (conj Heq Hin)|].
  destruct (vetoed_tick_is_dropped plugins tick w run.1 run.2 0 _ _ _ Heq Hin)
    as (H1 & H2 & _).
  split; [exact H1|]. rewrite H2. reflexivity.
Defined.

(** X11. A tick that no plugin vetoes or fails on becomes the current
    candle.  Within the interval of the current candle it replaces that
    candle and the closed candles stay; when it starts a new interval the
    window is the tick followed by the (at most nine) most recent candles,
    so the candle that was current is now the previous candle. *)
Theorem proceeding_tick_becomes_current plugins tick w :
  never_vetoes plugins PluginHook.onBeforeTick ->
  always_returns plugins PluginHook.onTick ->
  always_returns plugins PluginHook.onCandle ->
  always_returns plugins PluginHook.onAfterCandle ->
  window_ok w ->
  let run := handler plugins tick w in
  run.1 = Ok tt
  /\ currentCandle run.2 = Some tick
  /\ candles (self run.2)
     = (if crosses_boundary w tick then take 10 (tick :: candles (self w))
        else tick :: tail (candles (self w)))
  /\ prevCandle run.2
     = (if crosses_boundary w tick then currentCandle w else prevCandle w).
Proof.
  intros Hgate Htick Hcandle Hafter Hok run. subst run.
  destruct (handler_proceeds plugins tick w Hgate Htick Hcandle Hafter) as (evs & -> & _).
  simpl. unfold currentCandle, prevCandle, next_window. simpl.
  destruct (crosses_boundary w tick) eqn:Hcross.
  - rewrite (updateCandles_take tick w Hok). split; [done|]. split; [done|].
    split; [done|]. simpl. destruct (candles (self w)); done.
  - simpl. destruct (candles (self w)); done.
Qed.

Lemma proceeding_tick_becomes_current_witness :
  let w := running_world accepting_transport in
  let tick := price_tick 60 12 1 in
  (never_vetoes [watcher] PluginHook.onBeforeTick
   /\ always_returns [watcher] PluginHook.onTick
   /\ always_returns [watcher] PluginHook.onCandle
   /\ always_returns [watcher] PluginHook.onAfterCandle
   /\ window_ok w)
  /\ currentCandle (handler [watcher] tick w).2 = Some tick.
Proof.
  intros w tick.
  assert (Hok : window_ok w) by (split; simpl; [lia|done]).
  split.
  - exact (conj (watcher_never_vetoes _)
             (conj (watcher_always_returns _)
                (conj (watcher_always_returns _)
                   (conj (watcher_always_returns _) Hok)))).
  - exact (proj1 (proj2 (proceeding_tick_becomes_current [watcher] tick w
                           (watcher_never_vetoes _) (watcher_always_returns _)
                           (watcher_always_returns _) (watcher_always_returns _) Hok))).
Defined.

Lemma ends_with_last {A} (x : A) l : last l = Some x -> exists pre, l = pre ++ [x].
Proof. intros Hlast. by apply last_Some. Qed.

(** X12. When a hook throws during a tick, the handler rejects with what
    was thrown and the throwing invocation is the last thing that happened;
    no order object and no entry of the order book changes.  A tick that
    starts a new interval is then lost to the window: no candle is inserted
    or changed.  A tick within the current interval has already overwritten
    the current candle when the failure came from onTick, and has changed
    nothing when it came from onBeforeTick. *)
Theorem failed_tick_keeps_window plugins tick w r w' i hook args book objs e :
  handler plugins tick w = (r, w') ->
  EvInvoke i hook args book objs (HThrow e) ∈ emitted w w' ->
  r = Throw e
  /\ (exists pre, emitted w w' = pre ++ [EvInvoke i hook args book objs (HThrow e)])
  /\ heap w' = heap w
  /\ orders (self w') = orders (self w)
  /\ (crosses_boundary w tick = true -> self w' = self w)
  /\ (crosses_boundary w tick = false ->
      (hook = PluginHook.onBeforeTick
       /\ self w' = self w
       /\ hook_calls (emitted w w') = [(PluginHook.onBeforeTick, [ACandle tick])])
      \/ (hook = PluginHook.onTick
          /\ candles (self w') = assign0 tick (candles (self w))
          /\ hook_calls (emitted w w')
             = [(PluginHook.onBeforeTick, [ACandle tick]);
                (PluginHook.onTick, [ACandle tick])])).
Proof.
  intros Hrun Hthrow.
  destruct (handler_paths plugins tick w) as (r1 & step & evs & Heq & Hpath).
  rewrite Heq in Hrun. injection Hrun as <- <-.
  rewrite handler_emitted in *. simpl. rewrite after_step_heap.
  destruct (after_step_fields step tick w) as (-> & _).
  inversion Hpath as [evs1 Hgate| evs1 e1 Hgate| evs1 r2 evs2 Hcross Hgate Htick
                      | evs1 e1 evs2 Hcross Hgate Htick
                      | evs1 evs2 e1 evs3 Hcross Hgate Htick Hcandle
                      | evs1 evs2 evs3 e1 evs4 Hcross Hgate Htick Hcandle Hafter
                      | evs1 evs2 evs3 evs4 Hcross Hgate Htick Hcandle Hafter];
    subst; split_elem; try discriminate;
    match goal with
    | Hin : _ ∈ evs1 |- _ =>
        destruct (skip_run_hook _ _ _ _ _ _ _ _ _ _ _ _ Hgate Hin) as (Hhook & _);
        destruct (skip_run_throw_last _ _ _ _ _ _ _ _ _ _ _ _ Hgate Hin)
          as [Hr (pre & Hevs & _)]
    | Hin : _ ∈ evs2 |- _ =>
        destruct (reduce_run_hook _ _ _ _ _ _ _ _ _ _ _ _ Htick Hin) as (Hhook & _);
        destruct (reduce_run_throw_last _ _ _ _ _ _ _ _ _ _ _ _ Htick Hin)
          as [Hr (pre & Hevs & _)]
    | Hin : _ ∈ evs3 |- _ =>
        destruct (reduce_run_hook _ _ _ _ _ _ _ _ _ _ _ _ Hcandle Hin) as (Hhook & _);
        destruct (reduce_run_throw_last _ _ _ _ _ _ _ _ _ _ _ _ Hcandle Hin)
          as [Hr (pre & Hevs & _)]
    | Hin : _ ∈ evs4 |- _ =>
        destruct (reduce_run_hook _ _ _ _ _ _ _ _ _ _ _ _ Hafter Hin) as (Hhook & _);
        destruct (reduce_run_throw_last _ _ _ _ _ _ _ _ _ _ _ _ Hafter Hin)
          as [Hr (pre & Hevs & _)]
    end; try discriminate;
    (split; [congruence|]);
    (split; [apply ends_with_last; rewrite Hevs;
             by repeat first [rewrite last_snoc | rewrite last_cons | rewrite last_app]|]);
    (split; [done|]); (split; [done|]);
    (split; [simpl; congruence|]); intros Hsame; try congruence.
  - left. split; [done|]. split; [done|]. simpl.
    by rewrite (hook_calls_invocations _ (skip_run_invocations _ _ _ _ _ _ Hgate)).
  - right. split; [done|]. split; [done|]. simpl.
    rewrite hook_calls_app. simpl.
    rewrite (hook_calls_invocations _ (skip_run_invocations _ _ _ _ _ _ Hgate)).
    by rewrite (hook_calls_invocations _ (reduce_run_invocations _ _ _ _ _ _ Htick)).
Qed.

Lemma failed_tick_keeps_window_witness :
  let failure := Error "plugin failure" in
  let plugins := [only PluginHook.onCandle (HThrow failure)] in
  let w := running_world accepting_transport in
  let tick := price_tick 60 12 1 in
  let run := handler plugins tick w in
  (run = (run.1, run.2)
   /\ EvInvoke 0 PluginHook.onCandle [ACandle (price_tick 0 10 1)] [] [] (HThrow failure)
      ∈ emitted w run.2)
  /\ run.1 = Throw failure
  /\ crosses_boundary w tick = true
  /\ self run.2 = self w.
Proof.
  intros failure plugins w tick run.
  assert (Heq : run = (run.1, run.2)) by (by destruct run).
  assert (Hin : EvInvoke 0 PluginHook.onCandle [ACandle (price_tick 0 10 1)] [] []
                  (HThrow failure) ∈ emitted w run.2) by in_trace.
  assert (Hcross : crosses_boundary w tick = true) by (vm_compute; reflexivity).
  split; [exact (conj Heq Hin)|].
  destruct (failed_tick_keeps_window plugins tick w run.1 run.2 0 _ _ _ _ failure Heq Hin)
    as (Hr & _ & _ & _ & Hlost & _).
  split; [exact Hr|]. split; [exact Hcross|]. exact (Hlost Hcross).
Defined.

(** ** Replay *)




Lemma learn_loop_feeds plugins ticks : forall w,
  never_vetoes plugins PluginHook.onBeforeTick ->
  always_returns plugins PluginHook.onTick ->
  always_returns plugins PluginHook.onCandle ->
  always_returns plugins PluginHook.onAfterCandle ->
  learn_loop plugins ticks w = (Ok tt, feed plugins ticks w).
Proof.
  induction ticks as [|tick rest IH]; intros w Hgate Htick Hcandle Hafter; simpl; [done|].
  unfold bind.
  destruct (handler_proceeds plugins tick w Hgate Htick Hcandle Hafter) as (evs & Heq & _).
  rewrite Heq. simpl. by apply IH.
Qed.

(** X14. With plugins that neither veto a tick nor fail, [learn] handles the
    history exactly as the live subscription would handle the same ticks:
    it resolves, the engine ends in the state that feeding the ticks in
    learning mode gives, with the learning flag cleared, and the candle
    window is within its bound. *)
Theorem learn_replays_like_the_feed plugins ins ticks w :
  never_vetoes plugins PluginHook.onBeforeTick ->
  always_returns plugins PluginHook.onTick ->
  always_returns plugins PluginHook.onCandle ->
  always_returns plugins PluginHook.onAfterCandle ->
  window_ok w ->
  let replayed := feed plugins ticks (with_learning (VBool true) (with_instrument ins w)) in
  learn plugins ins ticks w = (Ok tt, with_learning (VBool false) replayed)
  /\ candles (self (learn plugins ins ticks w).2) = candles (self replayed)
  /\ (ticks <> [] -> currentCandle (learn plugins ins ticks w).2 = last ticks)
  /\ length (candles (self (learn plugins ins ticks w).2)) <= 10.
Proof.
  intros Hgate Htick Hcandle Hafter Hok replayed. subst replayed.
  unfold learn, bind, modify.
  rewrite (learn_loop_feeds plugins ticks _ Hgate Htick Hcandle Hafter). simpl.
  split; [done|]. split; [done|]. split.
  - intros Hne.
    assert (Hgen : forall w0, window_ok w0 -> currentCandle (feed plugins ticks w0) = last ticks).
    { clear Hok. induction ticks as [|tick rest IH]; [done|]. intros w0 Hok0. simpl.
      pose proof (proceeding_tick_becomes_current plugins tick w0
                    Hgate Htick Hcandle Hafter Hok0) as (_ & Hcur & _).
      pose proof (handler_ok plugins tick w0 Hok0) as Hok1.
      destruct rest as [|tick2 rest]; [exact Hcur|].
      by apply IH. }
    apply (Hgen (with_learning (VBool true) (with_instrument ins w))). exact Hok.
  - apply (feed_ok plugins ticks (with_learning (VBool true) (with_instrument ins w))).
    exact Hok.
Qed.

Lemma learn_replays_like_the_feed_witness :
  let w := fresh_world accepting_transport in
  let ticks := [price_tick 0 10 1; price_tick 0 11 1; price_tick 60 12 1] in
  (never_vetoes [watcher] PluginHook.onBeforeTick
   /\ always_returns [watcher] PluginHook.onTick
   /\ always_returns [watcher] PluginHook.onCandle
   /\ always_returns [watcher] PluginHook.onAfterCandle
   /\ window_ok w)
  /\ length (candles (self (learn [watcher] sample_instrument ticks w).2)) <= 10.
Proof.
  intros w ticks.
  split.
  - exact (conj (watcher_never_vetoes _)
             (conj (watcher_always_returns _)
                (conj (watcher_always_returns _)
                   (conj (watcher_always_returns _) (fresh_world_ok _))))).
  - exact (proj2 (proj2 (proj2 (learn_replays_like_the_feed [watcher] sample_instrument
                                  ticks w
                                  (watcher_never_vetoes _) (watcher_always_returns _)
                                  (watcher_always_returns _) (watcher_always_returns _)
                                  (fresh_world_ok _))))).
Defined.

(** * The Interactive Brokers history provider *)

Module IB.

(** ** [createIBDate] *)

(** What the getters of [new Date(timestamp)] return.  The decomposition of
    a timestamp into local calendar fields is the platform's. *)
Record LocalDate := {
  getFullYear : Z;
  getMonth : nat;
  getDate : nat;
  getHours : nat;
  getMinutes : nat;
  getSeconds : nat
}.

Fixpoint zeros (n : nat) : string :=
  match n with
  | 0 => ""
  | S k => "0" +:+ zeros k
  end.

(** [s.padStart(len, '0')] *)
Definition padStart (len : nat) (s : string) : string :=
  zeros (len - String.length s) +:+ s.

(** [n.toString()] of an integer is its decimal notation, stdpp's [pretty]. *)
Definition createIBDate (date : LocalDate) : string :=
  let datePart :=
    padStart 4 (pretty (getFullYear date))
    +:+ padStart 2 (pretty (getMonth date + 1))
    +:+ padStart 2 (pretty (getDate date)) in
  let timePart :=
    padStart 2 (pretty (getHours date))
    +:+ ":" +:+ padStart 2 (pretty (getMinutes date))
    +:+ ":" +:+ padStart 2 (pretty (getSeconds date)) in
  datePart +:+ " " +:+ timePart +:+ " UTC".

(** A date of the years 0 to 9999. *)
Definition four_digit_year (date : LocalDate) : Prop :=
  (0 <= getFullYear date <= 9999)%Z
  /\ getMonth date <= 11 /\ getDate date <= 31
  /\ getHours date <= 23 /\ getMinutes date <= 59 /\ getSeconds date <= 59.

(** Reading a decimal notation back. *)
Definition digit_value (ch : Ascii.ascii) : nat := Ascii.nat_of_ascii ch - 48.

Fixpoint read_decimal (acc : nat) (s : string) : nat :=
  match s with
  | EmptyString => acc
  | String ch rest => read_decimal (acc * 10 + digit_value ch) rest
  end.

(** ** The cached gateway client *)

(** The calls the provider makes on the gateway API, in order. *)
Inductive ApiCall :=
| ApiNew (port clientId : Z)
| ApiConnect
| ApiDisconnect
| ApiOnHistoricalData (reqId : Z)
| ApiOnceError (reqId : Z)
| ApiReqHistoricalData (reqId : Z) (symbol primaryExch endDateTime durationStr
                         barSizeSetting whatToShow : string)
                       (useRTH formatDate : Z) (keepUpToDate : bool).

(** The module state: [client] ([None] is [null]; a client is known by the
    id it was created with) and the calls made so far. *)
Record Provider := mkProvider {
  client : option Z;
  calls : list ApiCall
}.

Definition called (call : ApiCall) (p : Provider) : Provider :=
  mkProvider (client p) (calls p ++ [call]).

(** A candle of the history.  Its time is a number, that is a double, as
    everything it holds. *)
Record Bar := mkBar {
  o : float; h : float; l : float; c : float; v : float;
  time : float
}.

Inductive Settled :=
| Pending
| Resolved (bars : list Bar)
| Rejected (error : JsError).

(** One request: the variables the handlers close over, what became of the
    promise, and which listeners are registered. *)
Record Request := mkRequest {
  sendReqId : Z;
  from : float;
  to : float;
  timeDelta : option float;          (* [None] is [undefined] *)
  candles : list Bar;
  result : Settled;
  listening : bool;                  (* the historicalData listener is registered *)
  armed : bool                       (* the one-time error listener is registered *)
}.

(** What the gateway emits.  The time text [t] is given by the number
    [parseInt(t)] returns, NaN when the text does not start with a number;
    an error event by the value it carries. *)
Inductive GatewayEvent :=
| HistoricalData (reqId : Z) (t : float) (o h l c v : float)
| GatewayError (error : JsError).

(** The value of a double as a fraction [n / k], [k] a power of two; [None]
    for NaN and the infinities. *)
Definition as_fraction (x : float) : option (Z * Z) :=
  match FloatOps.Prim2SF x with
  | SpecFloat.S754_zero _ => Some (0, 1)%Z
  | SpecFloat.S754_finite s m e =>
      let n := (Z.pos m * 2 ^ Z.max e 0)%Z in
      Some (if s then (- n)%Z else n, (2 ^ Z.max (- e) 0)%Z)
  | _ => None
  end.

(** The double of an integer; exact below 2^53 in absolute value. *)
Definition of_int (z : Z) : float :=
  match z with
  | Z0 => 0%float
  | Zpos p => FloatOps.SF2Prim (SpecFloat.S754_finite false p 0)
  | Zneg p => FloatOps.SF2Prim (SpecFloat.S754_finite true p 0)
  end.

(** [~~x]: ToInt32 *)
Definition to_int32 (x : Z) : Z := (x + 2 ^ 31) mod 2 ^ 32 - 2 ^ 31.

(** Settling a promise that is settled already does nothing. *)
Definition settle (outcome : Settled) (r : Request) : Request :=
  match result r with
  | Pending =>
      mkRequest (sendReqId r) (from r) (to r) (timeDelta r) (candles r) outcome
        (listening r) (armed r)
  | _ => r
  end.

(** Unsubscribe from history events *)
Definition unsubscribe (r : Request) : Request :=
  mkRequest (sendReqId r) (from r) (to r) (timeDelta r) (candles r) (result r)
    false (armed r).

Definition disarm (r : Request) : Request :=
  mkRequest (sendReqId r) (from r) (to r) (timeDelta r) (candles r) (result r)
    (listening r) false.

Definition push (bar : Bar) (delta : float) (r : Request) : Request :=
  mkRequest (sendReqId r) (from r) (to r) (Some delta) (candles r ++ [bar]) (result r)
    (listening r) (armed r).

(** [time < from || time > to]: a comparison with NaN is false *)
Definition out_of_range (r : Request) (time : float) : bool :=
  PrimFloat.ltb time (from r) || PrimFloat.ltb (to r) time.

(** The integer [~~((time % 86_400_000) % 3_600_000)] is.  [%] on doubles
    is the exact remainder of the division truncated towards zero, with the
    sign of the dividend, and NaN for a dividend that is NaN or infinite;
    [~~] drops the fraction, wraps to 32 bits and turns NaN into 0. *)
Definition remainder_of_hour (time : float) : Z :=
  match as_fraction time with
  | Some (n, k) =>
      to_int32 (Z.quot (Z.rem (Z.rem n (86400000 * k)) (3600000 * k)) k)
  | None => 0
  end.

Definition half_hour_part (time : float) : float := of_int (remainder_of_hour time).

(** [o === -1 && c === -1 && h === -1 && l === -1] *)
Definition sequence_ended (o h l c : float) : bool :=
  PrimFloat.eqb o (-1) && PrimFloat.eqb c (-1)
  && PrimFloat.eqb h (-1) && PrimFloat.eqb l (-1).

(** Create history data handler & transformer *)
Definition historyDataHandler (reqId : Z) (t : float) (o h l c v : float)
    (r : Request) : Request :=
  let time := PrimFloat.mul t 1000 in
  if bool_decide (reqId <> sendReqId r) then r
  else if sequence_ended o h l c then unsubscribe (settle (Resolved (candles r)) r)
  else if out_of_range r time then r
  else
    match timeDelta r with
    | None => push (mkBar o h l c v time) (half_hour_part time) r
    | Some delta => push (mkBar o h l c v (PrimFloat.add time delta)) delta r
    end.

(** [new DebutError(ErrorEnvironment.History, error.message)]; reading
    [message] of [undefined] or [null] throws instead. *)
Definition history_error (error : JsError) : JsError :=
  match message error with
  | Ok msg => DebutError History msg
  | Throw failure => failure
  end.

(** The one-time error listener: it rejects with the error, unsubscribes
    and throws. *)
Definition errorHandler (error : JsError) (r : Request) : Request * JsError :=
  (unsubscribe (settle (Rejected error) r), history_error error).

(** What the listeners of one request do when the emitter calls them with
    an event: the data listener if it is registered, the error listener if
    it is, removed before it runs.  Which listeners the emitter calls is
    [emit] below. *)
Definition deliver (ev : GatewayEvent) (r : Request) : Request * option JsError :=
  match ev with
  | HistoricalData reqId t o h l c v =>
      if listening r then (historyDataHandler reqId t o h l c v r, None) else (r, None)
  | GatewayError error =>
      if armed r then
        let '(r1, e) := errorHandler error (disarm r) in (r1, Some e)
      else (r, None)
  end.

(** The events the listeners of one request are called with, in order: the
    request at the end and what its listeners threw. *)
Fixpoint run (evs : list GatewayEvent) (r : Request) : Request * list JsError :=
  match evs with
  | [] => (r, [])
  | ev :: rest =>
      let '(r1, thrown) := deliver ev r in
      let '(r2, more) := run rest r1 in
      (r2, from_option (fun e => [e]) [] thrown ++ more)
  end.

(** The client is one for all requests ([getClient] caches it), and so are
    its listeners.  The client is the event emitter of the gateway library:
    it calls the listeners of an event in the order of their registration,
    removes a one-time listener before calling it, and an exception of a
    listener ends the emission, so that the listeners behind it are neither
    called nor removed.  The error listener always throws: an error of the
    gateway reaches the oldest error listener still registered, whatever
    has become of its request, and no other. *)
Fixpoint fire_first (error : JsError) (rs : list Request)
    : list Request * option JsError :=
  match rs with
  | [] => ([], None)
  | r :: rest =>
      if armed r then
        let '(r1, e) := errorHandler error (disarm r) in (r1 :: rest, Some e)
      else
        let '(rest1, thrown) := fire_first error rest in (r :: rest1, thrown)
  end.

(** One event on the client; [rs] are the requests made on it, oldest
    first.  The data listeners touch their own request only and do not
    throw. *)
Definition emit (ev : GatewayEvent) (rs : list Request)
    : list Request * option JsError :=
  match ev with
  | HistoricalData _ _ _ _ _ _ _ => (map (fun r => (deliver ev r).1) rs, None)
  | GatewayError error => fire_first error rs
  end.

(** A stream of events on the client: the requests at the end and what
    left the emitter as an exception, in order. *)
Fixpoint stream (evs : list GatewayEvent) (rs : list Request)
    : list Request * list JsError :=
  match evs with
  | [] => (rs, [])
  | ev :: rest =>
      let '(rs1, thrown) := emit ev rs in
      let '(rs2, more) := stream rest rs1 in
      (rs2, from_option (fun e => [e]) [] thrown ++ more)
  end.

(** The errors in a stream. *)
Definition errors (evs : list GatewayEvent) : list JsError :=
  omap (fun ev => match ev with GatewayError error => Some error | _ => None end) evs.

(** The stream without its first [k] errors. *)
Fixpoint skip_errors (k : nat) (evs : list GatewayEvent) : list GatewayEvent :=
  match evs with
  | [] => []
  | GatewayError error :: rest =>
      match k with
      | 0 => evs
      | S k' => skip_errors k' rest
      end
  | ev :: rest => ev :: skip_errors k rest
  end.

(** What each request's listeners are called with: a request behind [k]
    registered error listeners does not hear of the first [k] errors. *)
Fixpoint heard_by (k : nat) (evs : list GatewayEvent) (rs : list Request)
    : list Request :=
  match rs with
  | [] => []
  | r :: rest =>
      (run (skip_errors k evs) r).1 :: heard_by (if armed r then S k else k) evs rest
  end.

(** The error listeners registered. *)
Definition armed_count (rs : list Request) : nat :=
  length (List.filter armed rs).

(** A request as [requestIB] leaves it on a trading day. *)
Definition fresh (reqId : Z) (from to : float) : Request :=
  mkRequest reqId from to None [] Pending true true.

(** The events a request's listeners react to. *)
Definition concerns (reqId : Z) (ev : GatewayEvent) : bool :=
  match ev with
  | HistoricalData id _ _ _ _ _ _ => bool_decide (id = reqId)
  | GatewayError _ => true
  end.

(** The bar an event contributes to the request [reqId] over [from, to],
    with the time stamp as the gateway sent it. *)
Definition accepted (reqId : Z) (from to : float) (ev : GatewayEvent) : option Bar :=
  match ev with
  | HistoricalData id t o h l c v =>
      let time := PrimFloat.mul t 1000 in
      if bool_decide (id = reqId) && negb (sequence_ended o h l c)
         && negb (PrimFloat.ltb time from || PrimFloat.ltb to time)
      then Some (mkBar o h l c v time)
      else None
  | GatewayError _ => None
  end.

(** [time += timeDelta] *)
Definition add_time (delta : float) (bar : Bar) : Bar :=
  mkBar (o bar) (h bar) (l bar) (c bar) (v bar) (PrimFloat.add (time bar) delta).

(** The first bar keeps its time, the later ones are moved by the first
    one's part of an hour. *)
Definition shifted (bars : list Bar) : list Bar :=
  match bars with
  | [] => []
  | first :: rest => first :: map (add_time (half_hour_part (time first))) rest
  end.

Fixpoint place (delta : option float) (bars : list Bar) : list Bar :=
  match bars with
  | [] => []
  | bar :: rest =>
      match delta with
      | None => bar :: place (Some (half_hour_part (time bar))) rest
      | Some d => add_time d bar :: place (Some d) rest
      end
  end.

(** What holds of a request from [requestIB] on: it listens exactly as long
    as the promise is pending, the error listener is there as long, and a
    resolved promise holds the bars collected. *)
Definition coherent (r : Request) : Prop :=
  match result r with
  | Pending => listening r = true /\ armed r = true
  | Resolved bars => listening r = false /\ bars = candles r
  | Rejected _ => listening r = false
  end.

(** A time that passed the test of the range. *)
Definition in_range (lo hi time : float) : Prop :=
  PrimFloat.ltb time lo = false /\ PrimFloat.ltb hi time = false.

(** The first bar passed the test of the range and fixes the shift; every
    later bar's time is one that passed the test, plus that shift. *)
Definition aligned (lo hi : float) (r : Request) : Prop :=
  match candles r with
  | [] => timeDelta r = None
  | first :: rest =>
      timeDelta r = Some (half_hour_part (time first))
      /\ in_range lo hi (time first)
      /\ Forall (fun bar => exists raw,
                   in_range lo hi raw
                   /\ time bar = PrimFloat.add raw (half_hour_part (time first))) rest
  end.

(** The calls of the module's interface, in the order a program makes
    them. *)
Inductive ModuleCall :=
| CallDisposeIB (nextId : Z)
| CallRequestIB (from to : float) (ticker interval : string) (reqId nextId : Z).

(** The calls that set a client up. *)
Definition is_setup (call : ApiCall) : bool :=
  match call with
  | ApiNew _ _ | ApiConnect => true
  | _ => false
  end.

Section Provider.

(** The gateway port and the exchange (constants of the transport), the
    weekend test of the plugin utilities, the conversion of the time frame
    and the local calendar fields of a timestamp. *)
Variable IB_GATEWAY_PORT : Z.
Variable exchange : string.
Variable isWeekend : float -> bool.
Variable convertIBTimeFrame : string -> string.
Variable localDate : float -> LocalDate.

(** [getClient()]; [nextId] is what [IBTransport.getReqId()] returns if it
    is called. *)
Definition getClient (nextId : Z) (p : Provider) : Z * Provider :=
  match client p with
  | Some id => (id, p)
  | None =>
      (nextId,
       mkProvider (Some nextId) (calls p ++ [ApiNew IB_GATEWAY_PORT nextId; ApiConnect]))
  end.

Definition disposeIB (nextId : Z) (p : Provider) : Provider :=
  let '(_, p1) := getClient nextId p in called ApiDisconnect p1.

(** [requestIB]: the request as it stands when the function returns, and
    the provider.  [reqId] and [nextId] are what [IBTransport.getReqId()]
    returns for the request and, if one is created, for the client. *)
Definition requestIB (from to : float) (ticker interval : string) (reqId nextId : Z)
    (p : Provider) : Request * Provider :=
  if isWeekend from then
    (mkRequest reqId from to None [] (Resolved []) false false, p)
  else
    let p1 := called (ApiOnHistoricalData reqId) (getClient nextId p).2 in
    let p2 := called (ApiOnceError reqId) (getClient nextId p1).2 in
    let ibEndDate := createIBDate (localDate to) in
    let ibInterval := convertIBTimeFrame interval in
    let p3 :=
      called (ApiReqHistoricalData reqId ticker exchange ibEndDate "86400 S" ibInterval
                "TRADES" 1 2 false)
        (getClient nextId p2).2 in
    (mkRequest reqId from to None [] Pending true true, p3).

Definition call (mc : ModuleCall) (p : Provider) : Provider :=
  match mc with
  | CallDisposeIB nextId => disposeIB nextId p
  | CallRequestIB from to ticker interval reqId nextId =>
      (requestIB from to ticker interval reqId nextId p).2
  end.

Definition session (mcs : list ModuleCall) (p : Provider) : Provider :=
  foldl (fun p mc => call mc p) p mcs.

(** The client, once there, was created and connected first, and never
    again. *)
Definition connected_once (p : Provider) : Prop :=
  match client p with
  | None => calls p = []
  | Some id =>
      exists rest,
        calls p = ApiNew IB_GATEWAY_PORT id :: ApiConnect :: rest
        /\ Forall (fun call => is_setup call = false) rest
  end.

Lemma length_append (a b : string) :
  String.length (a +:+ b) = String.length a + String.length b.
Proof.
  induction a as [|ch a IH]; [done|].
  change (S (String.length (a +:+ b)) = S (String.length a + String.length b)).
  by rewrite IH.
Qed.

Lemma append_assoc (a b c : string) : (a +:+ b) +:+ c = a +:+ b +:+ c.
Proof.
  induction a as [|ch a IH]; [done|].
  change (String ch ((a +:+ b) +:+ c) = String ch (a +:+ b +:+ c)). by rewrite IH.
Qed.

Lemma length_zeros n : String.length (zeros n) = n.
Proof.
  induction n as [|n IH]; [done|].
  change (S (String.length (zeros n)) = S n). by rewrite IH.
Qed.

Lemma length_padStart len s :
  String.length (padStart len s) = Nat.max len (String.length s).
Proof. unfold padStart. rewrite length_append, length_zeros. lia. Qed.

Lemma append_inj_length (a a' b b' : string) :
  String.length a = String.length a' -> a +:+ b = a' +:+ b' -> a = a' /\ b = b'.
Proof.
  revert a'. induction a as [|ch a IH]; intros [|ch' a'] Hlen Heq; simpl in *; try done.
  injection Heq as -> Heq. injection Hlen as Hlen. by destruct (IH a' Hlen Heq) as [-> ->].
Qed.

Lemma two_digits n :
  n < 100 ->
  String.length (padStart 2 (pretty n)) = 2 /\ read_decimal 0 (padStart 2 (pretty n)) = n.
Proof.
  intros Hn.
  assert (Hall : forallb (fun k => Nat.eqb (String.length (padStart 2 (pretty k))) 2
                                   && Nat.eqb (read_decimal 0 (padStart 2 (pretty k))) k)
                   (seq 0 100) = true) by (vm_compute; reflexivity).
  rewrite forallb_forall in Hall. specialize (Hall n).
  rewrite andb_true_iff, !Nat.eqb_eq in Hall. apply Hall, in_seq. lia.
Qed.

Lemma four_digits (y : Z) :
  (0 <= y <= 9999)%Z ->
  String.length (padStart 4 (pretty y)) = 4
  /\ read_decimal 0 (padStart 4 (pretty y)) = Z.to_nat y.
Proof.
  intros Hy.
  assert (Hall : forallb (fun k => Nat.eqb (String.length (padStart 4 (pretty (Z.of_nat k)))) 4
                                   && Nat.eqb (read_decimal 0
                                                 (padStart 4 (pretty (Z.of_nat k)))) k)
                   (seq 0 (100 * 100)) = true) by (vm_compute; reflexivity).
  rewrite forallb_forall in Hall. specialize (Hall (Z.to_nat y)).
  rewrite andb_true_iff, !Nat.eqb_eq, Z2Nat.id in Hall by lia.
  apply Hall, in_seq. lia.
Qed.

(** X15. The end date handed to the gateway has at least 21 characters.
    For a date of the years 0 to 9999 it has exactly 21, in the layout
    [YYYYMMDD HH:MM:SS UTC], and it determines the date: two such dates
    with the same text have the same fields. *)
Theorem createIBDate_is_fixed_width date :
  21 <= String.length (createIBDate date)
  /\ (four_digit_year date ->
      String.length (createIBDate date) = 21
      /\ forall other,
           four_digit_year other -> createIBDate other = createIBDate date ->
           other = date).
Proof.
  split.
  - unfold createIBDate. rewrite !length_append, !length_padStart. simpl. lia.
  - intros (Hy & Hmo & Hd & Hh & Hmi & Hs).
    destruct (four_digits _ Hy) as [Ly Ry].
    destruct (two_digits (getMonth date + 1)) as [Lmo Rmo]; [lia|].
    destruct (two_digits (getDate date)) as [Ld Rd]; [lia|].
    destruct (two_digits (getHours date)) as [Lh Rh]; [lia|].
    destruct (two_digits (getMinutes date)) as [Lmi Rmi]; [lia|].
    destruct (two_digits (getSeconds date)) as [Ls Rs]; [lia|].
    split.
    + unfold createIBDate. rewrite !length_append, Ly, Lmo, Ld, Lh, Lmi, Ls. done.
    + intros other (Hy' & Hmo' & Hd' & Hh' & Hmi' & Hs') Heq.
      destruct (four_digits _ Hy') as [Ly' Ry'].
      destruct (two_digits (getMonth other + 1)) as [Lmo' Rmo']; [lia|].
      destruct (two_digits (getDate other)) as [Ld' Rd']; [lia|].
      destruct (two_digits (getHours other)) as [Lh' Rh']; [lia|].
      destruct (two_digits (getMinutes other)) as [Lmi' Rmi']; [lia|].
      destruct (two_digits (getSeconds other)) as [Ls' Rs']; [lia|].
      unfold createIBDate in Heq.
      rewrite !append_assoc in Heq.
      apply append_inj_length in Heq as [E1 Heq]; [|congruence].
      apply append_inj_length in Heq as [E2 Heq]; [|congruence].
      apply append_inj_length in Heq as [E3 Heq]; [|congruence].
      apply (append_inj_length " " " ") in Heq as [_ Heq]; [|done].
      apply append_inj_length in Heq as [E4 Heq]; [|congruence].
      apply (append_inj_length ":" ":") in Heq as [_ Heq]; [|done].
      apply append_inj_length in Heq as [E5 Heq]; [|congruence].
      apply (append_inj_length ":" ":") in Heq as [_ Heq]; [|done].
      apply append_inj_length in Heq as [E6 _]; [|congruence].
      assert (getFullYear other = getFullYear date)
        by (apply (f_equal (read_decimal 0)) in E1; lia).
      assert (getMonth other = getMonth date)
        by (apply (f_equal (read_decimal 0)) in E2; lia).
      assert (getDate other = getDate date)
        by (apply (f_equal (read_decimal 0)) in E3; lia).
      assert (getHours other = getHours date)
        by (apply (f_equal (read_decimal 0)) in E4; lia).
      assert (getMinutes other = getMinutes date)
        by (apply (f_equal (read_decimal 0)) in E5; lia).
      assert (getSeconds other = getSeconds date)
        by (apply (f_equal (read_decimal 0)) in E6; lia).
      destruct other, date; simpl in *; congruence.
Qed.

Lemma run_app evs post r :
  run (evs ++ post) r
  = ((run post (run evs r).1).1, (run evs r).2 ++ (run post (run evs r).1).2).
Proof.
  revert r. induction evs as [|ev evs IH]; intros r; simpl.
  - by destruct (run post r).
  - destruct (deliver ev r) as [r1 thrown]. rewrite IH.
    destruct (run evs r1) as [r2 more]. simpl.
    destruct (run post r2) as [r3 last]. simpl. by rewrite app_assoc.
Qed.

Lemma run_cons ev rest r :
  run (ev :: rest) r
  = ((run rest (deliver ev r).1).1,
     from_option (fun e => [e]) [] (deliver ev r).2 ++ (run rest (deliver ev r).1).2).
Proof.
  simpl. destruct (deliver ev r) as [r1 thrown]. simpl. by destruct (run rest r1).
Qed.

Lemma deliver_fixed ev r :
  sendReqId (deliver ev r).1 = sendReqId r
  /\ from (deliver ev r).1 = from r /\ to (deliver ev r).1 = to r.
Proof.
  destruct ev as [reqId t o h l c v|error]; simpl.
  - destruct (listening r); [|done]. simpl. unfold historyDataHandler.
    repeat case_match; try done; unfold settle; by case_match.
  - destruct (armed r); [|done]. simpl. unfold settle. simpl. by case_match.
Qed.

Lemma run_fixed evs r :
  sendReqId (run evs r).1 = sendReqId r
  /\ from (run evs r).1 = from r /\ to (run evs r).1 = to r.
Proof.
  revert r. induction evs as [|ev evs IH]; intros r; simpl; [done|].
  destruct (deliver_fixed ev r) as (E1 & E2 & E3).
  destruct (deliver ev r) as [r1 thrown]. specialize (IH r1).
  destruct (run evs r1) as [r2 more]. simpl in *.
  destruct IH as (-> & -> & ->). done.
Qed.

(** X16. Events of other requests never reach a request: a stream of
    gateway events leaves a request, and makes its listeners throw, exactly
    as the stream without the bars of other request ids does.  Errors are
    not told apart by request. *)
Theorem other_requests_are_ignored evs r :
  run evs r = run (List.filter (concerns (sendReqId r)) evs) r.
Proof.
  revert r. induction evs as [|ev evs IH]; intros r; [done|].
  destruct (concerns (sendReqId r) ev) eqn:Hev.
  - simpl. rewrite Hev. simpl. destruct (deliver_fixed ev r) as (E & _).
    destruct (deliver ev r) as [r1 thrown]. simpl in E. rewrite <- E. by rewrite <- IH.
  - simpl List.filter. rewrite Hev. rewrite <- IH.
    destruct ev as [reqId t o h l c v|error]; [|done]. simpl in Hev.
    apply bool_decide_eq_false in Hev. simpl.
    assert (deliver (HistoricalData reqId t o h l c v) r = (r, None)) as Hd.
    { simpl. destruct (listening r); [|done]. unfold historyDataHandler.
      by rewrite bool_decide_eq_true_2. }
    simpl in Hd. rewrite Hd. by destruct (run evs r).
Qed.

Lemma deliver_data_armed reqId t o h l c v r :
  armed (deliver (HistoricalData reqId t o h l c v) r).1 = armed r
  /\ (deliver (HistoricalData reqId t o h l c v) r).2 = None.
Proof.
  simpl. destruct (listening r); [|done]. simpl. unfold historyDataHandler.
  repeat case_match; try done; unfold settle; by case_match.
Qed.

Lemma run_data reqId t o h l c v rest r :
  (run (HistoricalData reqId t o h l c v :: rest) r).1
  = (run rest (deliver (HistoricalData reqId t o h l c v) r).1).1.
Proof. rewrite run_cons. done. Qed.

Lemma run_unarmed error rest r :
  armed r = false -> (run (GatewayError error :: rest) r).1 = (run rest r).1.
Proof. intros Ha. rewrite run_cons. simpl. by rewrite Ha. Qed.

Lemma heard_by_data k reqId t o h l c v evs rs :
  heard_by k (HistoricalData reqId t o h l c v :: evs) rs
  = heard_by k evs (map (fun r => (deliver (HistoricalData reqId t o h l c v) r).1) rs).
Proof.
  revert k. induction rs as [|r rs IH]; intros k; [done|].
  cbn [heard_by map skip_errors].
  rewrite run_data, (proj1 (deliver_data_armed reqId t o h l c v r)). by rewrite IH.
Qed.

Lemma heard_by_nil k rs : heard_by k [] rs = rs.
Proof. revert k. induction rs as [|r rs IH]; intros k; [done|]. simpl. by rewrite IH. Qed.

Lemma heard_by_skipped k error evs rs :
  heard_by (S k) (GatewayError error :: evs) rs = heard_by k evs rs.
Proof.
  revert k. induction rs as [|r rs IH]; intros k; [done|].
  cbn [heard_by skip_errors]. destruct (armed r); by rewrite IH.
Qed.

Lemma skip_errors_0 evs : skip_errors 0 evs = evs.
Proof.
  induction evs as [|ev evs IH]; [done|]. destruct ev; [|done]. simpl. by rewrite IH.
Qed.

Lemma heard_by_error error evs rs :
  heard_by 0 (GatewayError error :: evs) rs = heard_by 0 evs (fire_first error rs).1.
Proof.
  induction rs as [|r rs IH]; [done|].
  cbn [heard_by skip_errors fire_first]. destruct (armed r) eqn:Ha.
  - cbn [errorHandler fst heard_by skip_errors].
    assert (armed (unsubscribe (settle (Rejected error) (disarm r))) = false) as ->.
    { unfold settle. simpl. by destruct (result r). }
    rewrite heard_by_skipped, skip_errors_0. f_equal.
    rewrite run_cons. cbn [fst]. simpl deliver. by rewrite Ha.
  - destruct (fire_first error rs) as [rest1 thrown] eqn:Hfire.
    cbn [fst heard_by] in *. rewrite Ha, IH. f_equal.
    by rewrite (run_unarmed error evs r Ha), skip_errors_0.
Qed.

Lemma emit_data_armed reqId t o h l c v rs :
  armed_count (map (fun r => (deliver (HistoricalData reqId t o h l c v) r).1) rs)
  = armed_count rs.
Proof.
  unfold armed_count. induction rs as [|r rs IH]; [done|].
  cbn [map List.filter]. rewrite (proj1 (deliver_data_armed reqId t o h l c v r)).
  destruct (armed r); cbn [length]; by rewrite IH.
Qed.

Lemma fire_first_thrown error rs :
  match armed_count rs with
  | 0 => fire_first error rs = (rs, None)
  | S n =>
      (fire_first error rs).2 = Some (history_error error)
      /\ armed_count (fire_first error rs).1 = n
  end.
Proof.
  unfold armed_count. induction rs as [|r rs IH]; [done|].
  cbn [fire_first List.filter]. destruct (armed r) eqn:Ha.
  - cbn [length errorHandler fst snd List.filter]. split; [done|].
    assert (armed (unsubscribe (settle (Rejected error) (disarm r))) = false) as ->; [|done].
    unfold settle. simpl. by destruct (result r).
  - destruct (fire_first error rs) as [rest1 thrown].
    destruct (length (List.filter armed rs)) as [|n].
    + by injection IH as -> ->.
    + cbn [fst snd List.filter] in *. by rewrite Ha.
Qed.

(** X17. The client and its listeners are shared by all requests, and an
    error of the gateway is thrown by the oldest error listener still
    registered, which ends the emission.  So over any stream of events, on
    any requests made on the client: what leaves the emitter is what the
    error listener throws on each of the first errors of the stream, as
    many as there were error listeners, in order (a History error with the
    error's message; the TypeError of reading [message] when the event
    carries [undefined] or [null]); and every request is left as its
    own listeners leave it when they are called with the stream without the
    errors that went to the listeners registered before its own.  A request
    that is alone on the client hears the whole stream. *)
Theorem oldest_error_listener_throws evs rs :
  (stream evs rs).1 = heard_by 0 evs rs
  /\ (stream evs rs).2
     = map history_error (take (armed_count rs) (errors evs))
  /\ forall r, stream evs [r] = ([(run evs r).1], (run evs r).2).
Proof.
  split; [|split].
  - revert rs. induction evs as [|ev evs IH]; intros rs.
    + by rewrite heard_by_nil.
    + destruct ev as [reqId t o h l c v|error].
      * rewrite heard_by_data, <- IH. cbn [stream emit].
        by destruct (stream evs _).
      * rewrite heard_by_error, <- IH. cbn [stream emit].
        destruct (fire_first error rs) as [rs1 thrown]. cbn [fst].
        by destruct (stream evs rs1).
  - revert rs. induction evs as [|ev evs IH]; intros rs.
    + simpl. by rewrite take_nil.
    + destruct ev as [reqId t o h l c v|error].
      * change (errors (HistoricalData reqId t o h l c v :: evs)) with (errors evs).
        rewrite <- (emit_data_armed reqId t o h l c v rs), <- IH. cbn [stream emit].
        by destruct (stream evs _).
      * change (errors (GatewayError error :: evs)) with (error :: errors evs).
        pose proof (fire_first_thrown error rs) as Hfire.
        cbn [stream emit]. destruct (fire_first error rs) as [rs1 thrown].
        specialize (IH rs1). destruct (stream evs rs1) as [rs2 more]. cbn [snd] in *.
        subst more. destruct (armed_count rs) as [|n] eqn:Hn.
        -- injection Hfire as -> ->. by rewrite Hn.
        -- cbn [fst snd] in Hfire. by destruct Hfire as [-> ->].
  - intros r. revert r. induction evs as [|ev evs IH]; intros r; [done|].
    cbn [stream run]. destruct ev as [reqId t o h l c v|error].
    + cbn [emit map]. rewrite IH.
      destruct (deliver (HistoricalData reqId t o h l c v) r) as [r1 thrown] eqn:Hd.
      pose proof (proj2 (deliver_data_armed reqId t o h l c v r)) as Hnone.
      rewrite Hd in Hnone. simpl in Hnone. subst thrown. cbn [fst].
      by destruct (run evs r1).
    + cbn [emit fire_first deliver]. destruct (armed r).
      * cbn [errorHandler]. rewrite IH. by destruct (run evs _).
      * rewrite IH. by destruct (run evs r).
Qed.

Lemma deliver_coherent ev r : coherent r -> coherent (deliver ev r).1.
Proof.
  intros Hr. destruct ev as [reqId t o h l c v|error]; simpl.
  - destruct (listening r) eqn:Hl; [|exact Hr]. simpl.
    unfold coherent in Hr.
    destruct (result r) eqn:Hres; [|destruct Hr; congruence|congruence].
    unfold historyDataHandler.
    destruct (bool_decide (reqId <> sendReqId r)); [by unfold coherent; rewrite Hres|].
    destruct (sequence_ended o h l c).
    { unfold coherent, settle. rewrite Hres. done. }
    destruct (out_of_range r _); [by unfold coherent; rewrite Hres|].
    destruct (timeDelta r); unfold coherent; simpl; rewrite Hres; done.
  - destruct (armed r) eqn:Ha; [|exact Hr]. simpl.
    unfold coherent in *. unfold settle. simpl.
    destruct (result r) eqn:Hres; simpl; rewrite ?Hres; try done.
    by destruct Hr.
Qed.

Lemma run_coherent evs r : coherent r -> coherent (run evs r).1.
Proof.
  revert r. induction evs as [|ev evs IH]; intros r Hr; simpl; [done|].
  pose proof (deliver_coherent ev r Hr) as H1.
  destruct (deliver ev r) as [r1 thrown]. specialize (IH r1 H1).
  by destruct (run evs r1).
Qed.

Lemma deliver_deaf ev r :
  listening r = false ->
  listening (deliver ev r).1 = false /\ candles (deliver ev r).1 = candles r
  /\ (result r <> Pending -> result (deliver ev r).1 = result r).
Proof.
  intros Hl. destruct ev as [reqId t o h l c v|error]; simpl.
  - rewrite Hl. simpl. auto.
  - destruct (armed r); simpl; [|auto]. unfold settle. simpl.
    destruct (result r) eqn:Hres; simpl; rewrite ?Hres; repeat split; auto; done.
Qed.

Lemma run_deaf evs r :
  listening r = false ->
  listening (run evs r).1 = false /\ candles (run evs r).1 = candles r
  /\ (result r <> Pending -> result (run evs r).1 = result r).
Proof.
  revert r. induction evs as [|ev evs IH]; intros r Hl; simpl; [done|].
  destruct (deliver_deaf ev r Hl) as (E1 & E2 & E3).
  destruct (deliver ev r) as [r1 thrown]. specialize (IH r1 E1).
  destruct (run evs r1) as [r2 more]. simpl in *.
  destruct IH as (-> & -> & IH). split; [done|]. split; [done|].
  intros Hres. rewrite IH; [by apply E3|]. by rewrite E3.
Qed.

Lemma fresh_coherent reqId from to : coherent (fresh reqId from to).
Proof. done. Qed.

(** X18. A promise is settled once: after the promise has been resolved
    or rejected, no further event changes its outcome or the bars
    collected, and the list a promise was resolved with is the list of bars
    as it stays. *)
Theorem request_settles_once evs post reqId from to :
  result (run evs (fresh reqId from to)).1 <> Pending ->
  result (run (evs ++ post) (fresh reqId from to)).1
  = result (run evs (fresh reqId from to)).1
  /\ candles (run (evs ++ post) (fresh reqId from to)).1
     = candles (run evs (fresh reqId from to)).1
  /\ forall bars,
       result (run (evs ++ post) (fresh reqId from to)).1 = Resolved bars ->
       bars = candles (run (evs ++ post) (fresh reqId from to)).1.
Proof.
  intros Hres. rewrite run_app. simpl.
  pose proof (run_coherent evs _ (fresh_coherent reqId from to)) as Hc.
  assert (listening (run evs (fresh reqId from to)).1 = false) as Hl.
  { unfold coherent in Hc. destruct (result _); [done| |]; by destruct Hc. }
  destruct (run_deaf post _ Hl) as (_ & E2 & E3).
  split; [by apply E3|]. split; [done|].
  intros bars Hb.
  pose proof (run_coherent post _ Hc) as Hc'. unfold coherent in Hc'.
  rewrite Hb in Hc'. by destruct Hc'.
Qed.

Lemma to_int32_small x : (- 2 ^ 31 <= x < 2 ^ 31)%Z -> to_int32 x = x.
Proof.
  intros Hx. unfold to_int32. rewrite Z.mod_small; lia.
Qed.

Lemma as_fraction_positive x n k : as_fraction x = Some (n, k) -> (0 < k)%Z.
Proof.
  unfold as_fraction. destruct (FloatOps.Prim2SF x) as [s|s| |s m e]; try done.
  - intros [= <- <-]. lia.
  - intros [= <- <-]. apply Z.pow_pos_nonneg; lia.
Qed.

Lemma quot_bounds a b k :
  (0 < k -> 0 < b -> Z.abs a < b * k -> - b < Z.quot a k < b)%Z.
Proof.
  intros Hk Hb Ha. destruct (Z.le_gt_cases 0 a) as [Hpos|Hneg].
  - rewrite Z.quot_div_nonneg by lia. split.
    + pose proof (Z.div_pos a k Hpos Hk). lia.
    + apply Z.div_lt_upper_bound; lia.
  - replace a with (- - a)%Z by lia. rewrite Z.quot_opp_l by lia.
    rewrite Z.quot_div_nonneg by lia. split.
    + assert (- a / k < b)%Z by (apply Z.div_lt_upper_bound; lia). lia.
    + assert (0 <= - a / k)%Z by (apply Z.div_pos; lia). lia.
Qed.

Lemma remainder_of_hour_bounds time :
  (-3600000 < remainder_of_hour time < 3600000)%Z
  /\ (forall n k, as_fraction time = Some (n, k) ->
        remainder_of_hour time
        = Z.quot (Z.rem (Z.rem n (86400000 * k)) (3600000 * k)) k
        /\ (0 <= n -> 0 <= remainder_of_hour time)%Z)
  /\ (as_fraction time = None -> remainder_of_hour time = 0%Z).
Proof.
  unfold remainder_of_hour. destruct (as_fraction time) as [[n k]|] eqn:Hfr.
  2: { split; [lia|]. split; [done|]. done. }
  pose proof (as_fraction_positive time n k Hfr) as Hk.
  pose proof (Z.rem_bound_abs (Z.rem n (86400000 * k)) (3600000 * k) ltac:(lia)) as Hb.
  pose proof (quot_bounds (Z.rem (Z.rem n (86400000 * k)) (3600000 * k)) 3600000 k
                Hk ltac:(lia) ltac:(lia)) as Hq.
  rewrite to_int32_small by lia. split; [done|]. split; [|done].
  intros ? ? [= <- <-]. split; [done|]. intros Hn.
  apply Z.quot_pos; [|done]. apply Z.rem_nonneg; [lia|]. apply Z.rem_nonneg; lia.
Qed.

Lemma deliver_aligned ev r :
  aligned (from r) (to r) r -> aligned (from r) (to r) (deliver ev r).1.
Proof.
  intros Hr. destruct ev as [reqId t o h l c v|error]; simpl.
  - destruct (listening r); [|exact Hr]. simpl. unfold historyDataHandler.
    destruct (bool_decide (reqId <> sendReqId r)); [exact Hr|].
    destruct (sequence_ended o h l c).
    { unfold settle. by destruct (result r). }
    destruct (out_of_range r _) eqn:Hrange; [exact Hr|].
    assert (in_range (from r) (to r) (PrimFloat.mul t 1000)) as Hin.
    { unfold out_of_range in Hrange. by apply orb_false_iff in Hrange. }
    unfold aligned in *. destruct (timeDelta r) as [delta|] eqn:Hdelta; simpl.
    + destruct (candles r) as [|first rest]; [done|]. simpl.
      destruct Hr as (Hd & Hfirst & Hrest). split; [done|]. split; [done|].
      apply Forall_app. split; [done|]. apply Forall_singleton. simpl.
      injection Hd as <-. by exists (PrimFloat.mul t 1000).
    + destruct (candles r) as [|first rest]; [|by destruct Hr]. simpl.
      split; [done|]. split; [done|]. apply Forall_nil_2.
  - destruct (armed r); [|exact Hr]. simpl. unfold settle. simpl.
    by destruct (result r).
Qed.

Lemma run_aligned evs r :
  aligned (from r) (to r) r -> aligned (from r) (to r) (run evs r).1.
Proof.
  revert r. induction evs as [|ev evs IH]; intros r Hr; simpl; [done|].
  pose proof (deliver_aligned ev r Hr) as H1.
  destruct (deliver_fixed ev r) as (_ & E2 & E3).
  destruct (deliver ev r) as [r1 thrown]. simpl in *.
  specialize (IH r1). rewrite E2, E3 in IH. specialize (IH H1).
  by destruct (run evs r1).
Qed.

(** X19. Whatever the gateway sends, the bars a request has collected
    follow the first one.  The first bar's time passed the test of the
    range (neither [time < from] nor [time > to] held, as for NaN) and
    fixes the shift: the double of an integer [d] of less than an hour in
    absolute value.  For a finite time of the value [n / k] that integer is
    the remainder of [n / k] by a day and then by an hour, without its
    fraction, which the wrap to 32 bits leaves as it is, and it is not
    negative when the time is not; for NaN and the infinities it is 0.
    Every later bar's time is a time that passed the test of the range,
    plus the shift, added as doubles. *)
Theorem collected_times_follow_first_bar evs reqId from to :
  match candles (run evs (fresh reqId from to)).1 with
  | [] => timeDelta (run evs (fresh reqId from to)).1 = None
  | first :: rest =>
      exists d,
        timeDelta (run evs (fresh reqId from to)).1 = Some (of_int d)
        /\ (-3600000 < d < 3600000)%Z
        /\ in_range from to (time first)
        /\ (forall n k, as_fraction (time first) = Some (n, k) ->
              d = Z.quot (Z.rem (Z.rem n (86400000 * k)) (3600000 * k)) k
              /\ (0 <= n -> 0 <= d)%Z)
        /\ (as_fraction (time first) = None -> d = 0%Z)
        /\ Forall (fun bar => exists raw,
                     in_range from to raw
                     /\ time bar = PrimFloat.add raw (of_int d)) rest
  end.
Proof.
  pose proof (run_aligned evs (fresh reqId from to) eq_refl) as Hal.
  unfold aligned in Hal. simpl in Hal.
  destruct (candles _) as [|first rest]; [done|].
  destruct Hal as (Hd & Hfirst & Hrest).
  exists (remainder_of_hour (time first)).
  destruct (remainder_of_hour_bounds (time first)) as (Hb & Hx & Hnone).
  done.
Qed.

Lemma place_Some delta bars : place (Some delta) bars = map (add_time delta) bars.
Proof. induction bars as [|bar bars IH]; simpl; [done|]. by rewrite IH. Qed.

Lemma place_shifted bars : place None bars = shifted bars.
Proof. destruct bars as [|first rest]; simpl; [done|]. by rewrite place_Some. Qed.

Lemma deliver_collects ev r :
  coherent r -> result r = Pending -> result (deliver ev r).1 = Pending ->
  exists bars,
    from_option (fun bar => [bar]) [] (accepted (sendReqId r) (from r) (to r) ev) = bars
    /\ candles (deliver ev r).1 = candles r ++ place (timeDelta r) bars
    /\ forall more,
         place (timeDelta r) (bars ++ more)
         = place (timeDelta r) bars ++ place (timeDelta (deliver ev r).1) more.
Proof.
  intros Hc Hres. unfold coherent in Hc. rewrite Hres in Hc. destruct Hc as [Hl Ha].
  destruct ev as [reqId t o h l c v|error]; simpl.
  - rewrite Hl. simpl. unfold historyDataHandler.
    destruct (decide (reqId = sendReqId r)) as [->|Hne].
    + rewrite bool_decide_eq_false_2 by (intros Hn; by apply Hn).
      rewrite bool_decide_eq_true_2 by done.
      destruct (sequence_ended o h l c); simpl.
      { unfold settle. rewrite Hres. done. }
      unfold out_of_range.
      destruct (PrimFloat.ltb (PrimFloat.mul t 1000) (from r)
                || PrimFloat.ltb (to r) (PrimFloat.mul t 1000)); simpl.
      { intros _. eexists. split; [done|]. simpl. by rewrite app_nil_r. }
      intros _. eexists. split; [done|].
      destruct (timeDelta r); simpl; done.
    + rewrite bool_decide_eq_true_2 by done.
      rewrite bool_decide_eq_false_2 by done. simpl.
      intros _. eexists. split; [done|]. simpl. by rewrite app_nil_r.
  - rewrite Ha. simpl. unfold settle. simpl. rewrite Hres. done.
Qed.

Lemma run_collects evs r :
  coherent r -> result r = Pending -> result (run evs r).1 = Pending ->
  candles (run evs r).1
  = candles r ++ place (timeDelta r) (omap (accepted (sendReqId r) (from r) (to r)) evs).
Proof.
  revert r. induction evs as [|ev evs IH]; intros r Hc Hres Hend; simpl.
  { by rewrite app_nil_r. }
  pose proof (deliver_coherent ev r Hc) as Hc1.
  pose proof (deliver_collects ev r Hc Hres) as Hstep.
  destruct (deliver_fixed ev r) as (E1 & E2 & E3).
  simpl in Hend.
  destruct (deliver ev r) as [r1 thrown]. simpl in *.
  specialize (IH r1 Hc1).
  destruct (run evs r1) as [r2 more] eqn:Hrun. simpl in *.
  assert (result r1 = Pending) as Hres1.
  { destruct (result r1) eqn:Hr1; [done| |].
    - unfold coherent in Hc1. rewrite Hr1 in Hc1. destruct Hc1 as [Hl _].
      destruct (run_deaf evs r1 Hl) as (_ & _ & Hkeep).
      rewrite Hrun in Hkeep. simpl in Hkeep. rewrite Hkeep in Hend by congruence.
      congruence.
    - unfold coherent in Hc1. rewrite Hr1 in Hc1.
      destruct (run_deaf evs r1 Hc1) as (_ & _ & Hkeep).
      rewrite Hrun in Hkeep. simpl in Hkeep. rewrite Hkeep in Hend by congruence.
      congruence. }
  specialize (IH Hres1 Hend). destruct (Hstep Hres1) as (bars & Hbars & Hcandles & Hplace).
  rewrite IH, Hcandles, E1, E2, E3, <- app_assoc. f_equal.
  destruct (accepted (sendReqId r) (from r) (to r) ev) as [bar|]; simpl in Hbars;
    subst bars.
  - exact (eq_sym (Hplace (omap (accepted (sendReqId r) (from r) (to r)) evs))).
  - exact (eq_sym (Hplace (omap (accepted (sendReqId r) (from r) (to r)) evs))).
Qed.

Lemma run_unheard evs r :
  listening r = false -> armed r = false -> run evs r = (r, []).
Proof.
  intros Hl Ha. induction evs as [|ev evs IH]; simpl; [done|].
  destruct ev as [reqId t o h l c v|error]; simpl; rewrite ?Hl, ?Ha; simpl;
    rewrite IH; done.
Qed.

Lemma requestIB_fresh from to ticker interval reqId nextId p :
  isWeekend from = false ->
  (requestIB from to ticker interval reqId nextId p).1 = fresh reqId from to.
Proof. intros Hday. unfold requestIB. by rewrite Hday. Qed.

(** X20. A request made on a trading day whose promise is still pending
    after a stream of events is resolved by the next end marker of its own
    id (open, close, high and low all -1), whatever follows: with the bars
    of the events of its id that passed the test of the range
    ([parseInt(t) * 1000], computed in doubles, neither below [from] nor
    above [to]), in arrival order, prices and volume unchanged, the first
    with its own time and the later ones with the first one's part of an
    hour added, in doubles.  It then listens no more. *)
Theorem history_request_resolves_with_accepted_bars
    from to ticker interval reqId nextId p evs post t o h l c v :
  isWeekend from = false ->
  result (run evs (requestIB from to ticker interval reqId nextId p).1).1 = Pending ->
  sequence_ended o h l c = true ->
  result (run (evs ++ HistoricalData reqId t o h l c v :: post)
            (requestIB from to ticker interval reqId nextId p).1).1
  = Resolved (shifted (omap (accepted reqId from to) evs))
  /\ listening (run (evs ++ HistoricalData reqId t o h l c v :: post)
                  (requestIB from to ticker interval reqId nextId p).1).1 = false.
Proof.
  intros Hday. rewrite (requestIB_fresh _ _ _ _ _ _ _ Hday). intros Hpending Hend.
  pose proof (run_coherent evs _ (fresh_coherent reqId from to)) as Hc.
  pose proof (run_collects evs _ (fresh_coherent reqId from to) eq_refl Hpending) as Hbars.
  simpl in Hbars. rewrite place_shifted in Hbars.
  destruct (run_fixed evs (fresh reqId from to)) as (Eid & _).
  rewrite run_app, run_cons. cbn [fst]. set (r1 := (run evs (fresh reqId from to)).1) in *.
  assert (listening r1 = true) as Hl.
  { unfold coherent in Hc. rewrite Hpending in Hc. by destruct Hc. }
  assert (deliver (HistoricalData reqId t o h l c v) r1
          = (unsubscribe (settle (Resolved (candles r1)) r1), None)) as Hd.
  { simpl. rewrite Hl. unfold historyDataHandler.
    rewrite bool_decide_eq_false_2 by (rewrite Eid; simpl; intros Hn; by apply Hn).
    by rewrite Hend. }
  rewrite Hd. cbn [fst].
  destruct (run_deaf post (unsubscribe (settle (Resolved (candles r1)) r1)) eq_refl)
    as (E1 & _ & E3).
  split; [|done]. rewrite E3.
  - unfold settle. rewrite Hpending. simpl. by rewrite Hbars.
  - unfold settle. by rewrite Hpending.
Qed.

Lemma getClient_connected nextId p :
  connected_once p ->
  connected_once (getClient nextId p).2 /\ client (getClient nextId p).2 <> None.
Proof.
  unfold connected_once, getClient. intros Hp.
  destruct (client p) as [id|] eqn:Hclient; simpl.
  - rewrite Hclient. done.
  - rewrite Hp. split; [|done]. exists []. done.
Qed.

Lemma called_connected call p :
  is_setup call = false -> connected_once p -> client p <> None ->
  connected_once (called call p) /\ client (called call p) <> None.
Proof.
  unfold connected_once, called. simpl. intros Hcall Hp Hclient.
  destruct (client p) as [id|]; [|done]. split; [|done].
  destruct Hp as (rest & -> & Hrest). exists (rest ++ [call]). split; [done|].
  apply Forall_app. split; [done|]. by apply Forall_singleton.
Qed.

Lemma call_connected mc p : connected_once p -> connected_once (call mc p).
Proof.
  intros Hp. destruct mc as [nextId|from to ticker interval reqId nextId]; simpl.
  - unfold disposeIB. destruct (getClient_connected nextId p Hp) as [H1 H2].
    destruct (getClient nextId p) as [id p1]. simpl in *.
    by apply called_connected.
  - unfold requestIB. destruct (isWeekend from); [done|]. simpl.
    destruct (getClient_connected nextId p Hp) as [H1 H2].
    destruct (called_connected (ApiOnHistoricalData reqId) _ eq_refl H1 H2) as [H3 H4].
    destruct (getClient_connected nextId _ H3) as [H5 H6].
    destruct (called_connected (ApiOnceError reqId) _ eq_refl H5 H6) as [H7 H8].
    destruct (getClient_connected nextId _ H7) as [H9 H10].
    by apply called_connected.
Qed.

(** X21. Over any sequence of [disposeIB] and [requestIB] calls on a newly
    loaded module, a client is created and connected at most once, before
    every other call on the gateway: once there is a client, the calls begin
    with its creation and [connect], and no creation or [connect] follows,
    not even after [disposeIB] has disconnected it.  While there is no client
    no call has been made. *)
Theorem client_is_created_once mcs :
  match client (session mcs (mkProvider None [])) with
  | None => calls (session mcs (mkProvider None [])) = []
  | Some id =>
      exists rest,
        calls (session mcs (mkProvider None []))
        = ApiNew IB_GATEWAY_PORT id :: ApiConnect :: rest
        /\ Forall (fun call => is_setup call = false) rest
  end.
Proof.
  change (connected_once (session mcs (mkProvider None []))).
  assert (connected_once (mkProvider None [])) as H0 by done.
  revert H0. generalize (mkProvider None []).
  induction mcs as [|mc mcs IH]; intros p Hp; [done|].
  simpl. apply IH. by apply call_connected.
Qed.

(** X22. A request whose [from] falls on a weekend makes no call on the
    gateway and creates no client; its promise is resolved with no bars,
    and no event of the gateway changes it or makes a listener throw, as
    none was registered. *)
Theorem weekend_request_is_inert from to ticker interval reqId nextId p evs :
  isWeekend from = true ->
  (requestIB from to ticker interval reqId nextId p).2 = p
  /\ result (requestIB from to ticker interval reqId nextId p).1 = Resolved []
  /\ run evs (requestIB from to ticker interval reqId nextId p).1
     = ((requestIB from to ticker interval reqId nextId p).1, []).
Proof.
  intros Hweekend. unfold requestIB. rewrite Hweekend. simpl.
  split; [done|]. split; [done|]. by apply run_unheard.
Qed.

End Provider.

(** A trading-day request for one hour of bars and what the gateway sends
    for it. *)
Definition sample_date : LocalDate :=
  {| getFullYear := 2021; getMonth := 2; getDate := 15;
     getHours := 9; getMinutes := 30; getSeconds := 0 |}.

Definition sample_bars : list GatewayEvent :=
  [HistoricalData 7 1800%float 1%float 2%float 0.5%float 1.5%float 100%float;
   HistoricalData 8 1900%float 9%float 9%float 9%float 9%float 9%float;
   HistoricalData 7 5400%float 1.5%float 3%float 1%float 2%float 50%float;
   HistoricalData 7 9000000%float 2%float 2%float 2%float 2%float 10%float].

Definition end_marker : GatewayEvent :=
  HistoricalData 7 nan (-1)%float (-1)%float (-1)%float (-1)%float 0%float.

(** An earlier request that was resolved keeps its error listener: the
    next error of the gateway goes to it and not to the pending request
    behind it, which is rejected by the error after that one only. *)
Lemma stale_listener_takes_the_error :
  let settled := (run [end_marker] (fresh 7 0 7200000)).1 in
  let waiting := fresh 8 0 7200000 in
  result settled = Resolved []
  /\ map result (stream [GatewayError (Error "down")] [settled; waiting]).1 = [Resolved []; Pending]
  /\ (stream [GatewayError (Error "down")] [settled; waiting]).2 = [DebutError History "down"]
  /\ map result (stream [GatewayError (Error "down"); GatewayError (Error "again")] [settled; waiting]).1
     = [Resolved []; Rejected (Error "again")].
Proof. vm_compute. done. Qed.

Lemma history_request_resolves_with_accepted_bars_witness :
  result (run (sample_bars ++ end_marker :: [GatewayError (Error "late")])
            (requestIB 0 "SMART" (fun _ => false) (fun s => s) (fun _ => sample_date)
               0 7200000 "AAPL" "1h" 7 1 (mkProvider None [])).1).1
  = Resolved [mkBar 1%float 2%float 0.5%float 1.5%float 100%float 1800000%float;
              mkBar 1.5%float 3%float 1%float 2%float 50%float 7200000%float]
  /\ listening (run (sample_bars ++ end_marker :: [GatewayError (Error "late")])
                  (requestIB 0 "SMART" (fun _ => false) (fun s => s)
                     (fun _ => sample_date)
                     0 7200000 "AAPL" "1h" 7 1 (mkProvider None [])).1).1 = false.
Proof.
  exact (history_request_resolves_with_accepted_bars 0 "SMART" (fun _ => false)
           (fun s => s) (fun _ => sample_date) 0 7200000 "AAPL" "1h" 7 1
           (mkProvider None []) sample_bars [GatewayError (Error "late")] nan
           (-1)%float (-1)%float (-1)%float (-1)%float 0%float
           eq_refl eq_refl eq_refl).
Defined.

Lemma request_settles_once_witness :
  result (run ([end_marker] ++ sample_bars ++ [GatewayError (Error "late")]) (fresh 7 0 7200000)).1
  = Resolved []
  /\ candles (run ([end_marker] ++ sample_bars ++ [GatewayError (Error "late")])
                (fresh 7 0 7200000)).1 = [].
Proof.
  assert (result (run [end_marker] (fresh 7 0 7200000)).1 <> Pending) as Hsettled
    by (vm_compute; discriminate).
  destruct (request_settles_once [end_marker] (sample_bars ++ [GatewayError (Error "late")])
              7 0 7200000 Hsettled) as (E1 & E2 & _).
  split; [exact E1 | exact E2].
Defined.

Lemma weekend_request_is_inert_witness :
  run (sample_bars ++ [GatewayError (Error "down")])
    (requestIB 0 "SMART" (fun _ => true) (fun s => s) (fun _ => sample_date)
       0 7200000 "AAPL" "1h" 7 1 (mkProvider None [])).1
  = (mkRequest 7 0 7200000 None [] (Resolved []) false false, []).
Proof.
  exact (proj2 (proj2 (weekend_request_is_inert 0 "SMART" (fun _ => true) (fun s => s)
                         (fun _ => sample_date) 0 7200000 "AAPL" "1h" 7 1
                         (mkProvider None []) (sample_bars ++ [GatewayError (Error "down")])
                         eq_refl))).
Defined.

End IB.
